(** * go-libp2p: the connection-upgrade and dialing core, embedded in Rocq

    A shallow embedding of the parts of the repository that coordinate
    dialing, accepting and stream lifecycle:

    - [Ranker]      p2p/net/swarm/dial_ranker.go
    - [Streams]     the swarm stream type and [Conn.removeStream]
    - [DialSync]    p2p/net/swarm/dial_sync.go
    - [Noise]       the noise handshake ([handleRemoteHandshakePayload])
    - [Listener]    p2p/net/upgrader/listener.go
    - [Notify]      [Conn.doClose] and the per-connection notification lock

    Part I holds the definitions, Part II the theorems. *)

From Stdlib Require Import ZArith Lia Bool String Ascii.
From stdpp Require Import base tactics option list sorting gmap strings.

(** * Part I: definitions *)

(** ** Machine integers

    Go's [int] and [time.Duration] are 64-bit two's complement integers;
    arithmetic on them wraps. *)
Module Int64.
Local Open Scope Z_scope.

Definition minInt64 : Z := - 2 ^ 63.
Definition maxInt64 : Z := 2 ^ 63 - 1.

Definition wrap (x : Z) : Z := (x + 2 ^ 63) mod 2 ^ 64 - 2 ^ 63.

Definition add (a b : Z) : Z := wrap (a + b).
Definition mul (a b : Z) : Z := wrap (a * b).

Definition inRange (x : Z) : Prop := minInt64 <= x <= maxInt64.

End Int64.

(** Number of elements of a list that satisfy a test. *)
Fixpoint countb {A} (p : A -> bool) (l : list A) : nat :=
  match l with
  | [] => 0
  | x :: r => (if p x then 1 else 0) + countb p r
  end.

(** ** The address ranker (dial_ranker.go) *)
Module Ranker.
Local Open Scope Z_scope.

(** A multiaddr is a sequence of components, each a protocol code with the
    textual value of its argument (empty for protocols without one). *)
Record Component := mkComponent { Code : Z; Value : string }.

Definition Multiaddr := list Component.

#[export] Instance Component_eq_dec : EqDecision Component.
Proof. solve_decision. Defined.

(** Protocol codes of go-multiaddr. *)
Definition P_IP4 : Z := 4.
Definition P_TCP : Z := 6.
Definition P_IP6 : Z := 41.
Definition P_DNS : Z := 53.
Definition P_UDP : Z := 273.
Definition P_WEBRTC_DIRECT : Z := 280.
Definition P_CIRCUIT : Z := 290.
Definition P_P2P : Z := 421.
Definition P_ONION3 : Z := 445.
Definition P_QUIC : Z := 460.
Definition P_QUIC_V1 : Z := 461.
Definition P_WEBTRANSPORT : Z := 465.

(** [Multiaddr.ValueForProtocol]: the value of the first component with the
    given code; [None] stands for [ErrProtocolNotFound]. *)
Fixpoint ValueForProtocol (a : Multiaddr) (code : Z) : option string :=
  match a with
  | [] => None
  | c :: rest => if Code c =? code then Some (Value c) else ValueForProtocol rest code
  end.

(** [strconv.Atoi], value only (callers drop the error): 0 on a syntax
    error, the nearest bound on a range error. *)
Definition digitOf (c : ascii) : option Z :=
  let n := Z.of_nat (nat_of_ascii c) in
  if (48 <=? n) && (n <=? 57) then Some (n - 48) else None.

Fixpoint parseDigits (acc : Z) (s : string) : option Z :=
  match s with
  | EmptyString => Some acc
  | String c r =>
      match digitOf c with
      | Some d => parseDigits (acc * 10 + d) r
      | None => None
      end
  end.

Definition Atoi (s : string) : Z :=
  let '(neg, body) :=
    match s with
    | String "-"%char r => (true, r)
    | String "+"%char r => (false, r)
    | _ => (false, s)
    end in
  match body with
  | EmptyString => 0
  | _ =>
      match parseDigits 0 body with
      | None => 0
      | Some n =>
          let v := if neg then - n else n in
          Z.max Int64.minInt64 (Z.min Int64.maxInt64 v)
      end
  end.

(** time.Duration in nanoseconds. *)
Definition Millisecond : Z := 1000000.
Definition Second : Z := 1000 * Millisecond.

Definition PublicTCPDelay : Z := 250 * Millisecond.
Definition PrivateTCPDelay : Z := 30 * Millisecond.
Definition PublicQUICDelay : Z := 250 * Millisecond.
Definition PrivateQUICDelay : Z := 30 * Millisecond.
Definition RelayDelay : Z := 500 * Millisecond.
Definition PublicOtherDelay : Z := 1 * Second.
Definition PrivateOtherDelay : Z := 100 * Millisecond.

(** network.AddrDelay *)
Record AddrDelay := mkAddrDelay { Addr : Multiaddr; Delay : Z }.

Definition isProtocolAddr (a : Multiaddr) (p : Z) : bool :=
  existsb (fun c => Code c =? p) a.

Definition isQUICAddr (a : Multiaddr) : bool :=
  isProtocolAddr a P_QUIC || isProtocolAddr a P_QUIC_V1.

Definition udpPort (a : Multiaddr) : Z :=
  Atoi (default EmptyString (ValueForProtocol a P_UDP)).

(** [score]: lower is better. *)
Definition score (a : Multiaddr) : Z :=
  let ip4Weight := if isProtocolAddr a P_IP4 then 2 ^ 18 else 0 in
  if ValueForProtocol a P_WEBTRANSPORT is Some _ then
    Int64.add (Int64.add ip4Weight (2 ^ 19)) (udpPort a)
  else if ValueForProtocol a P_QUIC is Some _ then
    Int64.add (Int64.add ip4Weight (udpPort a)) (2 ^ 17)
  else if ValueForProtocol a P_QUIC_V1 is Some _ then
    Int64.add ip4Weight (udpPort a)
  else if ValueForProtocol a P_TCP is Some p then
    Int64.add (Int64.add ip4Weight (Atoi p)) (2 ^ 20)
  else if ValueForProtocol a P_WEBRTC_DIRECT is Some _ then
    2 ^ 21
  else 2 ^ 30.

(** What the ranker takes from outside dial_ranker.go.

    [sortSlice key l] is [sort.Slice(l, func(i, j) bool { return key(l[i]) <
    key(l[j]) })]: the result is a rearrangement of [l] in which no element
    has a smaller key than an earlier one; the order of elements with equal
    keys is not specified (the sort is not stable).

    [IsPrivateAddr] is go-multiaddr's [manet.IsPrivateAddr]; [isRelayAddr]
    is the swarm's helper of that name, defined in a file that is not part
    of the sources at hand. *)
Class RankerEnv := {
  sortSlice : (Multiaddr -> Z) -> list Multiaddr -> list Multiaddr;
  sortSlice_perm : forall key l, sortSlice key l ≡ₚ l;
  sortSlice_sorted : forall key l,
    StronglySorted (fun a b => key a <= key b) (sortSlice key l);
  IsPrivateAddr : Multiaddr -> bool;
  isRelayAddr : Multiaddr -> bool
}.

(** [addrs[i], addrs[j] = addrs[j], addrs[i]] *)
Definition swap {A} (l : list A) (i j : nat) : list A :=
  match l !! i, l !! j with
  | Some x, Some y => <[i := y]> (<[j := x]> l)
  | _, _ => l
  end.

(** [filterAddrs] filters in place: the loop body for index [i], on the
    array and the write index [j]. *)
Definition filterStep (f : Multiaddr -> bool) (st : list Multiaddr * nat) (i : nat)
  : list Multiaddr * nat :=
  let '(addrs, j) := st in
  match addrs !! i with
  | Some a => if f a then (swap addrs i j, S j) else (addrs, j)
  | None => (addrs, j)
  end.

Definition filterAddrs (addrs : list Multiaddr) (f : Multiaddr -> bool)
  : list Multiaddr * list Multiaddr :=
  let '(addrs', j) := foldl (filterStep f) (addrs, 0%nat) (seq 0 (length addrs)) in
  (take j addrs', drop j addrs').

(** Index of the first element at or after [start] that satisfies [p]. *)
Fixpoint firstIdx {A} (p : A -> bool) (l : list A) : option nat :=
  match l with
  | [] => None
  | x :: r => if p x then Some 0%nat else S <$> firstIdx p r
  end.

Definition firstIdxFrom {A} (p : A -> bool) (l : list A) (start : nat) : option nat :=
  (fun k => (start + k)%nat) <$> firstIdx p (drop start l).

(** [a := addrs[j]; copy(addrs[pos+1:], addrs[pos:j]); addrs[pos] = a],
    done only when [j > pos]. *)
Definition moveTo {A} (l : list A) (j pos : nat) : list A :=
  if (pos <? j)%nat then
    match l !! j with
    | Some a => take pos l ++ a :: take (j - pos) (drop pos l) ++ drop (S j) l
    | None => l
    end
  else l.

(** The delay loop of [getAddrDelay], from index [i] on. *)
Section delays.
Context (tcpDelay quicDelay otherDelay offset : Z).
Context (happyEyeballsQUIC happyEyeballsTCP : bool) (tcpStartIdx : nat).

Definition quicDelayAt (i : nat) : Z :=
  let delay := if (i =? 1)%nat then quicDelay else 0 in
  if (1 <? i)%nat then
    if happyEyeballsQUIC then Int64.mul 2 quicDelay else quicDelay
  else delay.

Definition tcpDelayAt (i : nat) : Z :=
  let delay := if (i =? tcpStartIdx + 1)%nat then tcpDelay else 0 in
  if (tcpStartIdx + 1 <? i)%nat then
    if happyEyeballsTCP then Int64.mul 2 tcpDelay else tcpDelay
  else delay.

Fixpoint delayLoop (i : nat) (tcpFirstDialDelay lastQUICOrTCPDelay : Z)
    (addrs : list Multiaddr) : list AddrDelay :=
  match addrs with
  | [] => []
  | addr :: rest =>
      if isQUICAddr addr then
        let delay := quicDelayAt i in
        mkAddrDelay addr (Int64.add offset delay)
          :: delayLoop (S i) (Int64.add delay tcpDelay) delay rest
      else if isProtocolAddr addr P_TCP then
        let delay := Int64.add (tcpDelayAt i) tcpFirstDialDelay in
        mkAddrDelay addr (Int64.add offset delay)
          :: delayLoop (S i) tcpFirstDialDelay delay rest
      else
        let delay := Int64.add lastQUICOrTCPDelay otherDelay in
        mkAddrDelay addr (Int64.add offset delay)
          :: delayLoop (S i) tcpFirstDialDelay lastQUICOrTCPDelay rest
  end.
End delays.

Section ranker.
Context `{RankerEnv}.

Definition isQUICv4 (a : Multiaddr) : bool := isQUICAddr a && isProtocolAddr a P_IP4.
Definition isTCPv4 (a : Multiaddr) : bool :=
  isProtocolAddr a P_TCP && isProtocolAddr a P_IP4.
Definition isTCP (a : Multiaddr) : bool := isProtocolAddr a P_TCP.

(** The happy-eyeballs move for QUIC: the reordered slice, the flag and
    the index [i] from which the search for TCP starts. *)
Definition reorderQUIC (addrs : list Multiaddr) : list Multiaddr * bool * nat :=
  match addrs !! 0%nat with
  | Some a0 =>
      if isQUICAddr a0 && isProtocolAddr a0 P_IP6 then
        match firstIdxFrom isQUICv4 addrs 1 with
        | Some j => (moveTo addrs j 1, true, S j)
        | None => (addrs, false, 0%nat)
        end
      else (addrs, false, 0%nat)
  | None => (addrs, false, 0%nat)
  end.

(** [for tcpStartIdx = i; tcpStartIdx < len(addrs); tcpStartIdx++] *)
Definition findTCPStart (addrs : list Multiaddr) (i : nat) : nat :=
  default (length addrs) (firstIdxFrom isTCP addrs i).

Definition reorderTCP (addrs : list Multiaddr) (tcpStartIdx : nat)
  : list Multiaddr * bool :=
  match addrs !! tcpStartIdx with
  | Some a =>
      if isProtocolAddr a P_IP6 then
        match firstIdxFrom isTCPv4 addrs (tcpStartIdx + 1) with
        | Some j => (moveTo addrs j (tcpStartIdx + 1), true)
        | None => (addrs, false)
        end
      else (addrs, false)
  | None => (addrs, false)
  end.

Definition getAddrDelay (addrs : list Multiaddr)
    (tcpDelay quicDelay otherDelay offset : Z) : list AddrDelay :=
  if (length addrs =? 0)%nat then []
  else
    let addrs := sortSlice score addrs in
    let '(addrs, happyEyeballsQUIC, i) := reorderQUIC addrs in
    let tcpStartIdx := findTCPStart addrs i in
    let '(addrs, happyEyeballsTCP) := reorderTCP addrs tcpStartIdx in
    delayLoop tcpDelay quicDelay otherDelay offset
      happyEyeballsQUIC happyEyeballsTCP tcpStartIdx 0 0 0 addrs.

Definition NoDelayDialRanker (addrs : list Multiaddr) : list AddrDelay :=
  getAddrDelay addrs 0 0 0 0.

Definition hasIP (a : Multiaddr) : bool :=
  isProtocolAddr a P_IP4 || isProtocolAddr a P_IP6.

(** The three groups and the leftover of [DefaultDialRanker]. *)
Definition groups (addrs : list Multiaddr)
  : list Multiaddr * list Multiaddr * list Multiaddr * list Multiaddr :=
  let '(relay, addrs) := filterAddrs addrs isRelayAddr in
  let '(pvt, addrs) := filterAddrs addrs IsPrivateAddr in
  let '(public, addrs) := filterAddrs addrs hasIP in
  (relay, pvt, public, addrs).

(** [res] after the three appends. *)
Definition rankedGroups (addrs : list Multiaddr) : list AddrDelay :=
  let '(relay, pvt, public, _) := groups addrs in
  let relayOffset := if (0 <? length public)%nat then RelayDelay else 0 in
  getAddrDelay pvt PrivateTCPDelay PrivateQUICDelay PrivateOtherDelay 0
    ++ getAddrDelay public PublicTCPDelay PublicQUICDelay PublicOtherDelay 0
    ++ getAddrDelay relay PublicTCPDelay PublicQUICDelay PublicOtherDelay relayOffset.

(** [maxDelay]: the delay of the last entry of [res], 0 when it is empty. *)
Definition maxDelayOf (res : list AddrDelay) : Z :=
  match last res with
  | Some r => Delay r
  | None => 0
  end.

Definition DefaultDialRanker (addrs : list Multiaddr) : list AddrDelay :=
  let '(_, _, _, rest) := groups addrs in
  let res := rankedGroups addrs in
  let maxDelay := maxDelayOf res in
  res ++ ((fun a => mkAddrDelay a (Int64.add maxDelay PublicOtherDelay)) <$> rest).
End ranker.

(** An instance to run the ranker on concrete inputs.  Go's [sort.Slice]
    sorts slices of at most 12 elements by insertion; [insertionSort] is
    that algorithm. *)
Fixpoint insertSorted (key : Multiaddr -> Z) (x : Multiaddr) (l : list Multiaddr)
  : list Multiaddr :=
  match l with
  | [] => [x]
  | y :: r => if key x <? key y then x :: y :: r else y :: insertSorted key x r
  end.

Definition insertionSort (key : Multiaddr -> Z) (l : list Multiaddr) : list Multiaddr :=
  foldl (fun acc x => insertSorted key x acc) [] l.

(** Stand-ins for the two address predicates on the textual form: a relay
    address has a p2p-circuit component; the private test reads the first
    component, an IPv4 address in 10/8, 127/8 or 192.168/16, or the IPv6
    loopback. *)
Definition hasCircuit (a : Multiaddr) : bool := isProtocolAddr a P_CIRCUIT.

Definition privateByPrefix (a : Multiaddr) : bool :=
  match a with
  | c :: _ =>
      if Code c =? P_IP4 then
        String.prefix "10." (Value c) || String.prefix "127." (Value c)
        || String.prefix "192.168." (Value c)
      else if Code c =? P_IP6 then String.eqb (Value c) "::1"
      else false
  | [] => false
  end.

(** *** Vocabulary of the statements about the ranker *)

(** The elements of [l] that pass, respectively fail, a test. *)
Definition matching (f : Multiaddr -> bool) (l : list Multiaddr) : list Multiaddr :=
  filter (fun a => f a = true) l.

Definition failing (f : Multiaddr -> bool) (l : list Multiaddr) : list Multiaddr :=
  filter (fun a => f a = false) l.

(** go-multiaddr only builds addresses whose udp and tcp components hold a
    16-bit port in decimal. *)
Definition wellFormedPorts (a : Multiaddr) : bool :=
  forallb (fun c =>
             if (Code c =? P_UDP) || (Code c =? P_TCP)
             then (0 <=? Atoi (Value c)) && (Atoi (Value c) <=? 65535)
             else true) a.

(** A QUIC address proper: QUIC without WebTransport on top. *)
Definition plainQUIC (a : Multiaddr) : bool :=
  isQUICAddr a && negb (isProtocolAddr a P_WEBTRANSPORT).

Definition isIPv6Addr (a : Multiaddr) : bool :=
  isProtocolAddr a P_IP6 && negb (isProtocolAddr a P_IP4).

Definition isIPv4Addr (a : Multiaddr) : bool :=
  isProtocolAddr a P_IP4 && negb (isProtocolAddr a P_IP6).

(** An address that takes the default case of the delay loop. *)
Definition otherTransport (a : Multiaddr) : bool :=
  negb (isQUICAddr a) && negb (isProtocolAddr a P_TCP).

Definition quicOrTCP (r : AddrDelay) : bool :=
  isQUICAddr (Addr r) || isProtocolAddr (Addr r) P_TCP.

(** The largest delay of a ranked list, 0 when it is empty. *)
Definition largestDelay (res : list AddrDelay) : Z :=
  foldr Z.max 0 (Delay <$> res).

(** The delay of the last QUIC or TCP entry of a ranked prefix. *)
Definition lastQUICOrTCP (pre : list AddrDelay) : option Z :=
  Delay <$> last (filter (fun r => quicOrTCP r = true) pre).

Section vocabulary.
Context `{RankerEnv}.

(** The public group of [DefaultDialRanker]. *)
Definition publicAddr (a : Multiaddr) : bool :=
  negb (isRelayAddr a) && negb (IsPrivateAddr a) && hasIP a.

(** The addresses [DefaultDialRanker] ranks after all groups. *)
Definition leftover (addrs : list Multiaddr) : list Multiaddr :=
  (groups addrs).2.

(** The "other" delay of the group an address is ranked in. *)
Definition otherDelayOf (a : Multiaddr) : Z :=
  if negb (isRelayAddr a) && IsPrivateAddr a then PrivateOtherDelay
  else PublicOtherDelay.
End vocabulary.

(** *** The addresses of the ranker's tests *)
Definition ip4 (v : string) : Component := mkComponent P_IP4 v.
Definition ip6 (v : string) : Component := mkComponent P_IP6 v.
Definition udp (v : string) : Component := mkComponent P_UDP v.
Definition tcp (v : string) : Component := mkComponent P_TCP v.
Definition quic_v1 : Component := mkComponent P_QUIC_V1 EmptyString.
Definition webrtc_direct : Component := mkComponent P_WEBRTC_DIRECT EmptyString.
Definition onion3 (v : string) : Component := mkComponent P_ONION3 v.

Definition q1v1 : Multiaddr := [ip4 "1.2.3.4"; udp "1"; quic_v1].
Definition q2v1 : Multiaddr := [ip4 "1.2.3.4"; udp "2"; quic_v1].
Definition q1v16 : Multiaddr := [ip6 "1::2"; udp "1"; quic_v1].
Definition t1 : Multiaddr := [ip4 "1.2.3.5"; tcp "1"].
Definition wrtc1 : Multiaddr := [ip4 "1.2.3.4"; udp "1"; webrtc_direct].
Definition wrtc1v6 : Multiaddr := [ip6 "1::2"; udp "1"; webrtc_direct].
Definition onion1 : Multiaddr :=
  [onion3 "vww6ybal4bd7szmgncyruucpgfkqahzddi37ktceo3ah7ngmcopnpyyd:1234"].
Definition onlyIP : Multiaddr := [ip4 "1.2.3.4"].

End Ranker.

(** ** Streams of a swarm connection (the swarm stream type, [Conn.addStream],
    [Conn.removeStream])

    A [Stream] object is identified by its ordinal [id], which
    [swarm.nextStreamID] makes unique; the map [c.streams.m], keyed by
    stream pointer in the source, is keyed by that ordinal here.  Every
    method below runs under the mutex the source takes ([s.closeMx],
    [c.streams]), so one call is one step. *)
Module Streams.
Local Open Scope Z_scope.

Inductive Direction := DirUnknown | DirInbound | DirOutbound.

#[export] Instance Direction_eq_dec : EqDecision Direction.
Proof. solve_decision. Defined.

(** Calls made on the underlying [network.MuxedStream]. *)
Inductive MuxCall := MuxClose | MuxReset | MuxResetWithError (errCode : Z).

Record Stream := mkStream {
  dir : Direction;
  isClosed : bool;
  acceptStreamGoroutineCompleted : bool;
  muxCalls : list MuxCall;
  (** number of calls of [s.scope.Done()] *)
  scopeDone : nat
}.

Record Conn := mkConn {
  (** [c.streams.m]; [None] is the nil map left by [doClose] *)
  streams_m : option (gset nat);
  (** [c.stat.NumStreams] *)
  NumStreams : Z;
  (** the [Stream] objects allocated by [addStream] *)
  objects : gmap nat Stream;
  (** [swarm.nextStreamID] *)
  nextStreamID : nat;
  (** the counter of [swarm.refs] *)
  refs : Z
}.

Definition setStream (c : Conn) (id : nat) (s : Stream) : Conn :=
  mkConn (streams_m c) (NumStreams c) (<[id := s]> (objects c)) (nextStreamID c) (refs c).

Definition newConn (nextID : nat) (refs0 : Z) : Conn :=
  mkConn (Some ∅) 0 ∅ nextID refs0.

(** [Conn.removeStream]: [delete] on a nil map does nothing. *)
Definition removeStream (c : Conn) (id : nat) : Conn :=
  let c := mkConn ((fun m => m ∖ {[id]}) <$> streams_m c) (NumStreams c - 1)
                  (objects c) (nextStreamID c) (refs c) in
  match objects c !! id with
  | Some s =>
      setStream c id
        (mkStream (dir s) (isClosed s) (acceptStreamGoroutineCompleted s)
                  (muxCalls s) (S (scopeDone s)))
  | None => c
  end.

(** [Stream.closeAndRemoveStream] *)
Definition closeAndRemoveStream (c : Conn) (id : nat) : Conn :=
  match objects c !! id with
  | Some s =>
      if isClosed s then c
      else
        let s := mkStream (dir s) true (acceptStreamGoroutineCompleted s)
                          (muxCalls s) (scopeDone s) in
        let c := setStream c id s in
        let c := mkConn (streams_m c) (NumStreams c) (objects c) (nextStreamID c)
                        (refs c - 1) in
        if acceptStreamGoroutineCompleted s then removeStream c id else c
  | None => c
  end.

(** [Stream.completeAcceptStreamGoroutine] *)
Definition completeAcceptStreamGoroutine (c : Conn) (id : nat) : Conn :=
  match objects c !! id with
  | Some s =>
      if acceptStreamGoroutineCompleted s then c
      else
        let s := mkStream (dir s) (isClosed s) true (muxCalls s) (scopeDone s) in
        let c := setStream c id s in
        if isClosed s then removeStream c id else c
  | None => c
  end.

Definition muxCall (c : Conn) (id : nat) (call : MuxCall) : Conn :=
  match objects c !! id with
  | Some s =>
      setStream c id
        (mkStream (dir s) (isClosed s) (acceptStreamGoroutineCompleted s)
                  (muxCalls s ++ [call]) (scopeDone s))
  | None => c
  end.

(** [Stream.Close], [Stream.Reset], [Stream.ResetWithError] *)
Definition Close (c : Conn) (id : nat) : Conn :=
  closeAndRemoveStream (muxCall c id MuxClose) id.

Definition Reset (c : Conn) (id : nat) : Conn :=
  closeAndRemoveStream (muxCall c id MuxReset) id.

Definition ResetWithError (c : Conn) (id : nat) (errCode : Z) : Conn :=
  closeAndRemoveStream (muxCall c id (MuxResetWithError errCode)) id.

(** [Conn.addStream]: [None] is [ErrConnClosed] (the connection keeps no
    object for the muxed stream it resets). *)
Definition addStream (c : Conn) (d : Direction) : Conn * option nat :=
  match streams_m c with
  | None => (c, None)
  | Some m =>
      let id := S (nextStreamID c) in
      let s := mkStream d false (negb (bool_decide (d = DirInbound))) [] 0 in
      (mkConn (Some ({[id]} ∪ m)) (NumStreams c + 1) (<[id := s]> (objects c)) id
              (refs c + 1),
       Some id)
  end.

(** [streams := c.streams.m; c.streams.m = nil] of [Conn.doClose]; the
    [s.Reset()] calls that follow are [Reset] steps. *)
Definition detachStreams (c : Conn) : Conn :=
  mkConn None (NumStreams c) (objects c) (nextStreamID c) (refs c).

(** What can happen to a connection's streams, in any order. *)
Inductive Event :=
  | EvAddStream (d : Direction)
  | EvClose (id : nat)
  | EvReset (id : nat)
  | EvResetWithError (id : nat) (errCode : Z)
  | EvCompleteAccept (id : nat)
  | EvDetach.

(** A method can only be called on a stream that exists. *)
Definition step (c : Conn) (e : Event) : option Conn :=
  match e with
  | EvAddStream d => Some (fst (addStream c d))
  | EvClose id => if objects c !! id is Some _ then Some (Close c id) else None
  | EvReset id => if objects c !! id is Some _ then Some (Reset c id) else None
  | EvResetWithError id code =>
      if objects c !! id is Some _ then Some (ResetWithError c id code) else None
  | EvCompleteAccept id =>
      if objects c !! id is Some _ then Some (completeAcceptStreamGoroutine c id) else None
  | EvDetach => Some (detachStreams c)
  end.

Fixpoint run (c : Conn) (tr : list Event) : option Conn :=
  match tr with
  | [] => Some c
  | e :: tr => c' ← step c e; run c' tr
  end.

(** [e] is a call of [Close], [Reset] or [ResetWithError] on stream [id]. *)
Definition closes (id : nat) (e : Event) : bool :=
  match e with
  | EvClose i | EvReset i | EvResetWithError i _ => bool_decide (i = id)
  | _ => false
  end.

Definition completes (id : nat) (e : Event) : bool :=
  match e with
  | EvCompleteAccept i => bool_decide (i = id)
  | _ => false
  end.

End Streams.

(** ** The dial synchronizer (dial_sync.go)

    [dialSync.Dial] runs in many goroutines at once.  The model is a
    transition system whose steps are the atomic actions of the source: a
    critical section under [ds.mutex], one arm of a [select], a channel
    operation of the worker, a cancellation from outside. *)
Module DialSync.
Local Open Scope Z_scope.

Definition peerID := string.

Inductive error :=
  | errConcurrentDialSuccessful
  | Canceled            (* context.Canceled *)
  | DeadlineExceeded    (* context.DeadlineExceeded *)
  | dialError (msg : string).

#[export] Instance error_eq_dec : EqDecision error.
Proof. solve_decision. Defined.

(** *** Contexts

    A context is a chain from the background context through nodes that can
    be canceled and nodes that carry a value.  The cancel function of an
    active dial owns node [DialNode ad]; every other cancelable context
    ([WithCancel], [WithTimeout], ... of a caller) owns a node [ExtNode n]. *)
Inductive node := ExtNode (n : nat) | DialNode (ad : nat).

#[export] Instance node_eq_dec : EqDecision node.
Proof. solve_decision. Defined.

Inductive ctxKey := forceDirectDial | simConnectIsClient | simConnectIsServer | userKey (n : nat).

#[export] Instance ctxKey_eq_dec : EqDecision ctxKey.
Proof. solve_decision. Defined.

Inductive Context :=
  | Background
  | WithCancelCause (n : node) (parent : Context)
  | WithValue (k : ctxKey) (v : string) (parent : Context).

(** The cancelable nodes on the chain of a context, innermost first. *)
Fixpoint nodes (c : Context) : list node :=
  match c with
  | Background => []
  | WithCancelCause n parent => n :: nodes parent
  | WithValue _ _ parent => nodes parent
  end.

(** [ctx.Value(k)] *)
Fixpoint Value (c : Context) (k : ctxKey) : option string :=
  match c with
  | Background => None
  | WithCancelCause _ parent => Value parent k
  | WithValue k' v parent => if bool_decide (k' = k) then Some v else Value parent k
  end.

(** One call of a cancel function: the node, the error [ctx.Err()] reports
    from then on, and the cause. *)
Record CancelEvent := mkCancel { cnode : node; cerr : error; ccause : error }.

(** The cancellations so far, oldest first.  A context is done once a node
    of its chain was canceled, and keeps the error and cause of the first
    such cancellation. *)
Definition firstCancel (c : Context) (log : list CancelEvent) : option CancelEvent :=
  head (filter (fun ev => cnode ev ∈ nodes c) log).

Definition Err (c : Context) (log : list CancelEvent) : option error :=
  cerr <$> firstCancel c log.

Definition Cause (c : Context) (log : list CancelEvent) : option error :=
  ccause <$> firstCancel c log.

(** A context built by callers: it has no node of an active dial. *)
Definition isExtNode (n : node) : bool :=
  match n with
  | ExtNode _ => true
  | DialNode _ => false
  end.

Definition external (c : Context) : bool := forallb isExtNode (nodes c).

(** Modelled from the spec: the flag helpers of core/network
    ([GetForceDirectDial], [WithForceDirectDial], [GetSimultaneousConnect],
    [WithSimultaneousConnect]) are not part of the sources at hand.  A
    caller's context contributes "forceDirect/simultaneous-connect flags
    only": a flag is a value of the context, with its reason. *)
Definition GetForceDirectDial (ctx : Context) : bool * string :=
  match Value ctx forceDirectDial with
  | Some reason => (true, reason)
  | None => (false, EmptyString)
  end.

Definition WithForceDirectDial (ctx : Context) (reason : string) : Context :=
  WithValue forceDirectDial reason ctx.

Definition GetSimultaneousConnect (ctx : Context) : bool * bool * string :=
  match Value ctx simConnectIsClient with
  | Some reason => (true, true, reason)
  | None =>
      match Value ctx simConnectIsServer with
      | Some reason => (true, false, reason)
      | None => (false, false, EmptyString)
      end
  end.

Definition WithSimultaneousConnect (ctx : Context) (isClient : bool) (reason : string)
  : Context :=
  if isClient then WithValue simConnectIsClient reason ctx
  else WithValue simConnectIsServer reason ctx.

(** The context [activeDial.dial] puts in its request: [ad.ctx] with the
    caller's flags. *)
Definition requestCtx (adctx ctx : Context) : Context :=
  let dialCtx := adctx in
  let dialCtx :=
    let '(forceDirect, reason) := GetForceDirectDial ctx in
    if forceDirect then WithForceDirectDial dialCtx reason else dialCtx in
  let dialCtx :=
    let '(simConnect, isClient, reason) := GetSimultaneousConnect ctx in
    if simConnect then WithSimultaneousConnect dialCtx isClient reason else dialCtx in
  dialCtx.

(** *** The registry *)

(** An [activeDial]; [*Conn] values are plain numbers.  [actx] is [ad.ctx],
    whose cancel function is [ad.cancelCause]; [reqchClosed] is the state
    of the unbuffered channel [ad.reqch]. *)
Record activeDial := mkActiveDial {
  refCnt : Z;
  actx : Context;
  reqchClosed : bool
}.

(** [ds.dials] maps a peer to a pointer; [records] is the heap the
    pointers index; [spawned] lists the [go ds.dialWorker(p, actd.reqch)]
    calls so far. *)
Record dialSync := mkDialSync {
  dials : gmap peerID nat;
  records : gmap nat activeDial;
  nextRecord : nat;
  spawned : list (peerID * nat)
}.

Definition newDialSync : dialSync := mkDialSync ∅ ∅ 0 [].

(** [dialSync.getActiveDial], one critical section. *)
Definition getActiveDial (ds : dialSync) (p : peerID) : dialSync * nat :=
  let '(ds, ad) :=
    match dials ds !! p with
    | Some ad => (ds, ad)
    | None =>
        let ad := nextRecord ds in
        let actd := mkActiveDial 0 (WithCancelCause (DialNode ad) Background) false in
        (mkDialSync (<[p := ad]> (dials ds)) (<[ad := actd]> (records ds)) (S ad)
                    (spawned ds ++ [(p, ad)]),
         ad)
    end in
  (mkDialSync (dials ds)
     (alter (fun r => mkActiveDial (refCnt r + 1) (actx r) (reqchClosed r)) ad (records ds))
     (nextRecord ds) (spawned ds),
   ad).

(** The critical section that ends [dialSync.Dial].  [panicked] reports a
    [close] of a closed channel. *)
Definition release (ds : dialSync) (log : list CancelEvent) (p : peerID) (ad : nat)
    (err : option error) : dialSync * list CancelEvent * bool :=
  match records ds !! ad with
  | Some r =>
      let r := mkActiveDial (refCnt r - 1) (actx r) (reqchClosed r) in
      if refCnt r =? 0 then
        let cause := if err is Some e then e else errConcurrentDialSuccessful in
        (mkDialSync (delete p (dials ds))
           (<[ad := mkActiveDial (refCnt r) (actx r) true]> (records ds))
           (nextRecord ds) (spawned ds),
         log ++ [mkCancel (DialNode ad) Canceled cause],
         reqchClosed r)
      else
        (mkDialSync (dials ds) (<[ad := r]> (records ds)) (nextRecord ds) (spawned ds),
         log, false)
  | None => (ds, log, true)
  end.

(** *** Callers *)

(** Where a goroutine is inside [dialSync.Dial]. *)
Inductive PC :=
  | AtGetActiveDial                         (* entering *)
  | AtSend (ad : nat)                       (* first select of [activeDial.dial] *)
  | AtRecv (ad : nat)                       (* second select *)
  | AtRelease (ad : nat) (conn : option nat) (err : option error)
  | Returned (conn : option nat) (err : option error).

(** [resch] is the caller's response channel (capacity 1); [answered]
    says that the worker has sent its response. *)
Record Caller := mkCaller {
  target : peerID;
  cctx : Context;
  pc : PC;
  resch : option (option nat * option error);
  answered : bool
}.

Definition setPC (c : Caller) (pc' : PC) : Caller :=
  mkCaller (target c) (cctx c) pc' (resch c) (answered c).

Record State := mkState {
  ds : dialSync;
  cancels : list CancelEvent;
  callers : list Caller;
  (** the requests the workers have received: record, request context,
      caller whose [resch] it carries *)
  received : list (nat * Context * nat);
  panicked : bool
}.

Definition initial : State := mkState newDialSync [] [] [] false.

Inductive Label :=
  | LCall (p : peerID) (ctx : Context)      (* a goroutine calls Dial(ctx, p) *)
  | LGetActiveDial (c : nat)
  | LSend (c : nat)                          (* the worker receives c's request *)
  | LSendCanceled (c : nat)                  (* <-ctx.Done() in the first select *)
  | LRespond (c : nat) (conn : option nat) (err : option error)
  | LRecv (c : nat)                          (* res := <-resch *)
  | LRecvCanceled (c : nat)                  (* <-ctx.Done() in the second select *)
  | LRelease (c : nat)
  | LCancel (n : nat) (err : error).         (* a caller's context is canceled *)

Definition isActive (ad : nat) (pc : PC) : bool :=
  match pc with
  | AtSend a | AtRecv a | AtRelease a _ _ => bool_decide (a = ad)
  | _ => false
  end.

Definition setCaller (st : State) (c : nat) (cl : Caller) : State :=
  mkState (ds st) (cancels st) (<[c := cl]> (callers st)) (received st) (panicked st).

(** One step; [None] when the action is not enabled. *)
Definition step (st : State) (l : Label) : option State :=
  match l with
  | LCall p ctx =>
      if external ctx then
        Some (mkState (ds st) (cancels st)
                (callers st ++ [mkCaller p ctx AtGetActiveDial None false])
                (received st) (panicked st))
      else None
  | LGetActiveDial c =>
      cl ← callers st !! c;
      match pc cl with
      | AtGetActiveDial =>
          let '(ds', ad) := getActiveDial (ds st) (target cl) in
          Some (mkState ds' (cancels st) (<[c := setPC cl (AtSend ad)]> (callers st))
                  (received st) (panicked st))
      | _ => None
      end
  | LSend c =>
      cl ← callers st !! c;
      match pc cl with
      | AtSend ad =>
          r ← records (ds st) !! ad;
          Some (mkState (ds st) (cancels st) (<[c := setPC cl (AtRecv ad)]> (callers st))
                  (received st ++ [(ad, requestCtx (actx r) (cctx cl), c)])
                  (panicked st || reqchClosed r))
      | _ => None
      end
  | LSendCanceled c =>
      cl ← callers st !! c;
      match pc cl with
      | AtSend ad =>
          e ← Err (cctx cl) (cancels st);
          Some (setCaller st c (setPC cl (AtRelease ad None (Some e))))
      | _ => None
      end
  | LRespond c conn err =>
      cl ← callers st !! c;
      if bool_decide (c ∈ (received st).*2) && negb (answered cl) then
        Some (setCaller st c (mkCaller (target cl) (cctx cl) (pc cl) (Some (conn, err)) true))
      else None
  | LRecv c =>
      cl ← callers st !! c;
      match pc cl, resch cl with
      | AtRecv ad, Some (conn, err) =>
          Some (setCaller st c
                  (mkCaller (target cl) (cctx cl) (AtRelease ad conn err) None (answered cl)))
      | _, _ => None
      end
  | LRecvCanceled c =>
      cl ← callers st !! c;
      match pc cl with
      | AtRecv ad =>
          e ← Err (cctx cl) (cancels st);
          Some (setCaller st c (setPC cl (AtRelease ad None (Some e))))
      | _ => None
      end
  | LRelease c =>
      cl ← callers st !! c;
      match pc cl with
      | AtRelease ad conn err =>
          let '(ds', log', pan) := release (ds st) (cancels st) (target cl) ad err in
          Some (mkState ds' log' (<[c := setPC cl (Returned conn err)]> (callers st))
                  (received st) (panicked st || pan))
      | _ => None
      end
  | LCancel n err =>
      Some (mkState (ds st) (cancels st ++ [mkCancel (ExtNode n) err err]) (callers st)
              (received st) (panicked st))
  end.

Fixpoint run (st : State) (tr : list Label) : option State :=
  match tr with
  | [] => Some st
  | l :: tr => st' ← step st l; run st' tr
  end.

Definition reachable (st : State) : Prop := exists tr, run initial tr = Some st.

(** The callers that hold record [ad]: past [getActiveDial], before the
    final critical section. *)
Definition holders (ad : nat) (cs : list Caller) : nat :=
  countb (fun cl => isActive ad (pc cl)) cs.



(** The caller a step belongs to. *)
Definition subject (l : Label) : option nat :=
  match l with
  | LCall _ _ | LCancel _ _ => None
  | LGetActiveDial c | LSend c | LSendCanceled c | LRespond c _ _ | LRecv c
  | LRecvCanceled c | LRelease c => Some c
  end.

End DialSync.

(** ** The noise handshake (handshake and session files of p2p/security/noise) *)
Module Noise.

Definition peerID := string.

(** A byte slice; each element is in 0..255. *)
Definition bytes := list Z.

Definition bytesOfString (s : string) : bytes :=
  map (fun c => Z.of_nat (nat_of_ascii c)) (list_ascii_of_string s).

Inductive error :=
  | ErrPeerIDMismatch (Expected Actual : peerID)   (* sec.ErrPeerIDMismatch *)
  | Errorf (msg : string)                           (* fmt.Errorf without %w *)
  | Wrap (msg : string) (wrapped : error)           (* fmt.Errorf with %w *)
  | LibError (msg : string)                         (* an error of a library *)
  | CtxErr (msg : string).                          (* ctx.Err() *)

Definition payloadSigPrefix : string := "noise-libp2p-static-key:".

Definition LengthPrefixLength : nat := 2.

(** pb.NoiseHandshakePayload *)
Record NoiseHandshakePayload {Ext : Type} := mkPayload {
  IdentityKey : bytes;
  IdentitySig : bytes;
  Extensions : option Ext
}.
Arguments NoiseHandshakePayload : clear implicits.
Arguments mkPayload {Ext}.

(** What the handshake takes from its libraries (protobuf, the crypto and
    peer packages, flynn/noise) and from the session's read/write file.
    [Net] is the state of the insecure connection together with the random
    source; [HS] is a [*noise.HandshakeState]. *)
Class NoiseEnv := {
  PubKey : Type;
  PrivKey : Type;
  Ext : Type;
  CipherState : Type;
  DHKey : Type;
  HS : Type;
  Net : Type;
  proto_Unmarshal : bytes -> error + NoiseHandshakePayload Ext;
  proto_Marshal : NoiseHandshakePayload Ext -> error + bytes;
  crypto_UnmarshalPublicKey : bytes -> error + PubKey;
  crypto_MarshalPublicKey : PubKey -> error + bytes;
  peer_IDFromPublicKey : PubKey -> error + peerID;
  Verify : PubKey -> bytes -> bytes -> error + bool;
  Sign : PrivKey -> bytes -> error + bytes;
  GetPublic : PrivKey -> PubKey;
  DHPublic : DHKey -> bytes;
  GenerateKeypair : Net -> Net * (error + DHKey);
  NewHandshakeState : bool -> DHKey -> bytes -> error + HS;
  PeerStatic : HS -> bytes;
  WriteMessage : HS -> bytes -> bytes
                 -> error + (HS * bytes * option CipherState * option CipherState);
  ReadMessage : HS -> bytes
                -> error + (HS * bytes * option CipherState * option CipherState);
  writeMsgInsecure : bytes -> Net -> Net * option error;
  readNextInsecureMsgLen : Net -> Net * (error + nat);
  readNextMsgInsecure : nat -> Net -> Net * (error + bytes);
  SetDeadline : option Z -> Net -> Net * option error;
  connClose : Net -> Net
}.

Section noise.
Context `{NoiseEnv}.

(** EarlyDataHandler *)
Record EarlyDataHandler := mkEDH {
  Send : Net -> peerID -> Net * option Ext;
  Received : Net -> option Ext -> Net * option error
}.

Record secureSession := mkSession {
  initiator : bool;
  checkPeerID : bool;
  localID : peerID;
  localKey : PrivKey;
  remoteID : peerID;
  remoteKey : option PubKey;
  enc : option CipherState;
  dec : option CipherState;
  prologue : bytes;
  initiatorEarlyDataHandler : option EarlyDataHandler;
  responderEarlyDataHandler : option EarlyDataHandler
}.

Definition setRemote (s : secureSession) (id : peerID) (k : PubKey) : secureSession :=
  mkSession (initiator s) (checkPeerID s) (localID s) (localKey s) id (Some k)
            (enc s) (dec s) (prologue s)
            (initiatorEarlyDataHandler s) (responderEarlyDataHandler s).

(** [setCipherStates] *)
Definition setCipherStates (s : secureSession) (cs1 cs2 : CipherState) : secureSession :=
  let '(e, d) := if initiator s then (cs1, cs2) else (cs2, cs1) in
  mkSession (initiator s) (checkPeerID s) (localID s) (localKey s) (remoteID s)
            (remoteKey s) (Some e) (Some d) (prologue s)
            (initiatorEarlyDataHandler s) (responderEarlyDataHandler s).

Definition setIfBoth (s : secureSession) (cs1 cs2 : option CipherState) : secureSession :=
  match cs1, cs2 with
  | Some c1, Some c2 => setCipherStates s c1 c2
  | _, _ => s
  end.

(** [handleRemoteHandshakePayload] *)
Definition handleRemoteHandshakePayload (s : secureSession) (payload remoteStatic : bytes)
  : secureSession * (error + option Ext) :=
  match proto_Unmarshal payload with
  | inl err =>
      (s, inl (Wrap "error unmarshaling remote handshake payload: %w" err))
  | inr nhp =>
      match crypto_UnmarshalPublicKey (IdentityKey nhp) with
      | inl err => (s, inl err)
      | inr remotePubKey =>
          match peer_IDFromPublicKey remotePubKey with
          | inl err => (s, inl err)
          | inr id =>
              if checkPeerID s && negb (String.eqb (remoteID s) id) then
                (s, inl (ErrPeerIDMismatch (remoteID s) id))
              else
                let sig := IdentitySig nhp in
                let msg := bytesOfString payloadSigPrefix ++ remoteStatic in
                match Verify remotePubKey msg sig with
                | inl err => (s, inl (Wrap "error verifying signature: %w" err))
                | inr false => (s, inl (Errorf "handshake signature invalid"))
                | inr true => (setRemote s id remotePubKey, inr (Extensions nhp))
                end
          end
      end
  end.

(** [generateHandshakePayload] *)
Definition generateHandshakePayload (s : secureSession) (localStatic : DHKey)
    (ext : option Ext) : error + bytes :=
  match crypto_MarshalPublicKey (GetPublic (localKey s)) with
  | inl err => inl (Wrap "error serializing libp2p identity key: %w" err)
  | inr localKeyRaw =>
      let toSign := bytesOfString payloadSigPrefix ++ DHPublic localStatic in
      match Sign (localKey s) toSign with
      | inl err => inl (Wrap "error sigining handshake payload: %w" err)
      | inr signedPayload =>
          match proto_Marshal (mkPayload localKeyRaw signedPayload ext) with
          | inl err => inl (Wrap "error marshaling handshake payload: %w" err)
          | inr payloadEnc => inr payloadEnc
          end
      end
  end.

(** The handshake threads the session and the connection, and stops at
    the first error. *)
Definition M (A : Type) : Type := secureSession -> Net -> secureSession * Net * (error + A).

Definition ret {A} (a : A) : M A := fun s n => (s, n, inr a).
Definition fail {A} (e : error) : M A := fun s n => (s, n, inl e).
Definition bind {A B} (m : M A) (k : A -> M B) : M B :=
  fun s n =>
    match m s n with
    | (s', n', inr a) => k a s' n'
    | (s', n', inl e) => (s', n', inl e)
    end.
Definition lift {A} (r : error + A) : M A := fun s n => (s, n, r).
Definition onNet {A} (f : Net -> Net * (error + A)) : M A :=
  fun s n => let '(n', r) := f n in (s, n', r).
Definition onNetErr (f : Net -> Net * option error) : M unit :=
  fun s n => let '(n', r) := f n in (s, n', if r is Some e then inl e else inr tt).
Definition getSession : M secureSession := fun s n => (s, n, inr s).
Definition wrapErr {A} (msg : string) (m : M A) : M A :=
  fun s n =>
    match m s n with
    | (s', n', inl e) => (s', n', inl (Wrap msg e))
    | r => r
    end.

#[local] Instance M_bind : MBind M := fun A B k m => bind m k.

(** [if cs1 != nil && cs2 != nil { s.setCipherStates(cs1, cs2) }] *)
Definition applyCipherStates (cs1 cs2 : option CipherState) : M unit :=
  fun s n => (setIfBoth s cs1 cs2, n, inr tt).

(** [binary.BigEndian.PutUint16(bz, uint16(n))] *)
Definition PutUint16 (bz : bytes) (n : Z) : bytes :=
  let v := (n mod 65536)%Z in
  <[1%nat := (v mod 256)%Z]> (<[0%nat := (v / 256)%Z]> bz).

(** [sendHandshakeMessage]; [hbuf[:LengthPrefixLength]] is two bytes whose
    content is overwritten. *)
Definition sendHandshakeMessage (hs : HS) (payload : bytes) : M HS :=
  '(hs', bz, cs1, cs2) ← lift (WriteMessage hs (replicate LengthPrefixLength 0%Z) payload) ;
  let bz := PutUint16 bz (Z.of_nat (length bz) - Z.of_nat LengthPrefixLength) in
  _ ← onNetErr (writeMsgInsecure bz) ;
  _ ← applyCipherStates cs1 cs2 ;
  ret hs'.

(** [readHandshakeMessage] *)
Definition readHandshakeMessage (hs : HS) : M (HS * bytes) :=
  l ← onNet readNextInsecureMsgLen ;
  buf ← onNet (readNextMsgInsecure l) ;
  '(hs', msg, cs1, cs2) ← lift (ReadMessage hs buf) ;
  _ ← applyCipherStates cs1 cs2 ;
  ret (hs', msg).

Definition handlePayload (payload remoteStatic : bytes) : M (option Ext) :=
  fun s n => let '(s', r) := handleRemoteHandshakePayload s payload remoteStatic in (s', n, r).

Definition edhReceived (h : option EarlyDataHandler) (ed : option Ext) : M unit :=
  match h with
  | Some h => onNetErr (fun n => Received h n ed)
  | None => ret tt
  end.

Definition edhSend (h : option EarlyDataHandler) : M (option Ext) :=
  match h with
  | Some h => fun s n => let '(n', ed) := Send h n (remoteID s) in (s, n', inr ed)
  | None => ret (None : option Ext)
  end.

(** The two branches of [runHandshake], after the handshake state is set
    up. *)
Definition initiatorStages (kp : DHKey) (hs : HS) : M unit :=
  (* stage 0 *)
  hs ← wrapErr "error sending handshake message: %w" (sendHandshakeMessage hs []) ;
  (* stage 1 *)
  '(hs, plaintext) ← wrapErr "error reading handshake message: %w" (readHandshakeMessage hs) ;
  rcvdEd ← handlePayload plaintext (PeerStatic hs) ;
  s ← getSession ;
  _ ← edhReceived (initiatorEarlyDataHandler s) rcvdEd ;
  (* stage 2 *)
  ed ← edhSend (initiatorEarlyDataHandler s) ;
  s ← getSession ;
  payload ← lift (generateHandshakePayload s kp ed) ;
  _ ← wrapErr "error sending handshake message: %w" (sendHandshakeMessage hs payload) ;
  ret tt.

Definition responderStages (kp : DHKey) (hs : HS) : M unit :=
  (* stage 0 *)
  '(hs, _) ← wrapErr "error reading handshake message: %w" (readHandshakeMessage hs) ;
  (* stage 1 *)
  s ← getSession ;
  ed ← edhSend (responderEarlyDataHandler s) ;
  s ← getSession ;
  payload ← lift (generateHandshakePayload s kp ed) ;
  hs ← wrapErr "error sending handshake message: %w" (sendHandshakeMessage hs payload) ;
  (* stage 2 *)
  '(hs, plaintext) ← wrapErr "error reading handshake message: %w" (readHandshakeMessage hs) ;
  rcvdEd ← handlePayload plaintext (PeerStatic hs) ;
  s ← getSession ;
  _ ← edhReceived (responderEarlyDataHandler s) rcvdEd ;
  ret tt.

(** The deadline of [runHandshake]: set when the context has one, and
    cleared at exit when setting it succeeded. *)
Definition withDeadline (deadline : option Z) (body : M unit) : M unit :=
  match deadline with
  | Some d =>
      fun s n =>
        let '(n1, r) := SetDeadline (Some d) n in
        let '(s', n2, res) := body s n1 in
        if r is None then (s', fst (SetDeadline None n2), res) else (s', n2, res)
  | None => body
  end.

(** [runHandshake]; [deadline] is [ctx.Deadline()]. *)
Definition runHandshake (deadline : option Z) : M unit :=
  kp ← wrapErr "error generating static keypair: %w" (onNet GenerateKeypair) ;
  s ← getSession ;
  hs ← wrapErr "error initializing handshake state: %w"
          (lift (NewHandshakeState (initiator s) kp (prologue s))) ;
  withDeadline deadline
    (if initiator s then initiatorStages kp hs else responderStages kp hs).

(** [newSecureSession] after the session object is built.  The handshake
    runs in its own goroutine; [ctxDone] is [Some e] when the [select]
    takes [<-ctx.Done()] with [ctx.Err() = e].  The result is the pair
    [(s, err)] of the source, [None] for a nil session. *)
Definition newSecureSession (s : secureSession) (n : Net) (deadline : option Z)
    (ctxDone : option error) : option secureSession * Net * option error :=
  match ctxDone with
  | None =>
      let '(s', n', r) := runHandshake deadline s n in
      match r with
      | inl err => (Some s', connClose n', Some err)
      | inr _ => (Some s', n', None)
      end
  | Some e =>
      let '(_, n', _) := runHandshake deadline s (connClose n) in
      (None, n', Some e)
  end.
(** *** Vocabulary of the statements about the handshake *)

(** The parts of a session the handshake messages do not touch. *)
Definition keeps (s s' : secureSession) : Prop :=
  initiator s' = initiator s /\ checkPeerID s' = checkPeerID s
  /\ remoteID s' = remoteID s /\ remoteKey s' = remoteKey s.

(** The session [s'] holds a remote key whose identity is [s]'s expected
    remote identity. *)
Definition verified (s s' : secureSession) : Prop :=
  remoteID s' = remoteID s
  /\ exists k, remoteKey s' = Some k /\ peer_IDFromPublicKey k = inr (remoteID s).

(** The remote payload [payload] carries a key of identity [id]. *)
Definition carries (payload : bytes) (id : peerID) : Prop :=
  exists nhp k,
    proto_Unmarshal payload = inr nhp
    /\ crypto_UnmarshalPublicKey (IdentityKey nhp) = inr k
    /\ peer_IDFromPublicKey k = inr id.

(** The initiator gets as far as the remote payload [plaintext]: the
    session and connection at that point. *)
Definition initiatorReaches (deadline : option Z) (s : secureSession) (n : Net)
    (plaintext : bytes) (s2 : secureSession) : Prop :=
  exists n1 kp hs0 s1 n2 hs1 n3 hs2,
    GenerateKeypair n = (n1, inr kp)
    /\ NewHandshakeState true kp (prologue s) = inr hs0
    /\ sendHandshakeMessage hs0 [] s (if deadline is Some d then (SetDeadline (Some d) n1).1 else n1)
       = (s1, n2, inr hs1)
    /\ readHandshakeMessage hs1 s1 n2 = (s2, n3, inr (hs2, plaintext)).

(** The responder gets as far as the remote payload [plaintext]. *)
Definition responderReaches (deadline : option Z) (s : secureSession) (n : Net)
    (plaintext : bytes) (s3 : secureSession) : Prop :=
  exists n1 kp hs0 s1 n2 hs1 pt0 s1' n3 ed payload s2 n4 hs2 n5 hs3,
    GenerateKeypair n = (n1, inr kp)
    /\ NewHandshakeState false kp (prologue s) = inr hs0
    /\ readHandshakeMessage hs0 s (if deadline is Some d then (SetDeadline (Some d) n1).1 else n1)
       = (s1, n2, inr (hs1, pt0))
    /\ edhSend (responderEarlyDataHandler s1) s1 n2 = (s1', n3, inr ed)
    /\ generateHandshakePayload s1' kp ed = inr payload
    /\ sendHandshakeMessage hs1 payload s1' n3 = (s2, n4, inr hs2)
    /\ readHandshakeMessage hs2 s2 n4 = (s3, n5, inr (hs3, plaintext)).

End noise.

(** *** An environment to run the handshake on concrete data

    A key is the name of its owner and a payload is the bytes of that name;
    every signature verifies; the connection is the list of the messages
    still to be read. *)
Definition stringOfBytes (b : bytes) : string :=
  string_of_list_ascii (map (fun z => ascii_of_nat (Z.to_nat z)) b).

#[export] Instance scriptedEnv : NoiseEnv := {|
  PubKey := string;
  PrivKey := string;
  Ext := unit;
  CipherState := unit;
  DHKey := unit;
  HS := nat;
  Net := list bytes;
  proto_Unmarshal := fun b => inr (mkPayload b [] None);
  proto_Marshal := fun p => inr (IdentityKey p);
  crypto_UnmarshalPublicKey := fun b => inr (stringOfBytes b);
  crypto_MarshalPublicKey := fun k => inr (bytesOfString k);
  peer_IDFromPublicKey := fun k => inr k;
  Verify := fun _ _ _ => inr true;
  Sign := fun _ _ => inr [];
  GetPublic := fun k => k;
  DHPublic := fun _ => [];
  GenerateKeypair := fun n => (n, inr tt);
  NewHandshakeState := fun _ _ _ => inr 0%nat;
  PeerStatic := fun _ => [];
  WriteMessage := fun hs out payload => inr (S hs, out ++ payload, None, None);
  ReadMessage := fun hs buf => inr (S hs, buf, None, None);
  writeMsgInsecure := fun _ n => (n, None);
  readNextInsecureMsgLen := fun n =>
    (n, match n with
        | m :: _ => inr (length m)
        | [] => inl (LibError "EOF")
        end);
  readNextMsgInsecure := fun _ n =>
    match n with
    | m :: r => (r, inr m)
    | [] => (n, inl (LibError "EOF"))
    end;
  SetDeadline := fun _ n => (n, None);
  connClose := fun _ => []
|}.

(** An initiator that expects "bob". *)
Definition bobExpected : secureSession :=
  mkSession true true "alice" "alice" "bob" None None None [] None None.

End Noise.

(** ** The upgrader's listener (p2p/net/upgrader/listener.go) *)
Module Listener.
Local Open Scope Z_scope.

Inductive error :=
  | ErrListenerClosed                (* transport.ErrListenerClosed *)
  | Errorf (msg : string)            (* fmt.Errorf(msg) *)
  | AcceptError (msg : string) (temporary : bool).  (* from the gated listener *)

#[export] Instance error_eq_dec : EqDecision error.
Proof. solve_decision. Defined.

(** [err.Error()] *)
Definition Error (e : error) : string :=
  match e with
  | ErrListenerClosed => "listener closed"
  | Errorf msg => msg
  | AcceptError msg _ => msg
  end.

(** [strings.Contains] *)
Fixpoint Contains (s substr : string) : bool :=
  String.prefix substr s ||
  match s with
  | EmptyString => false
  | String _ r => Contains r substr
  end.

(** *** [listener.Accept]

    [incoming] is what the channel [l.incoming] will still hand out, in
    order, and [incomingClosed] whether it is closed after that.
    [IsClosed] is the state of each connection at the moment [Accept] looks
    at it. *)
Inductive AcceptResult :=
  | Accepted (c : nat)
  | Failed (e : error)
  | Blocked                 (* the channel is empty and still open *)
  | NilError.               (* l.err.Error() on a nil error *)

Fixpoint acceptLoop (IsClosed : nat -> bool) (incoming : list nat)
  : option nat * list nat :=
  match incoming with
  | [] => (None, [])
  | c :: rest => if negb (IsClosed c) then (Some c, rest) else acceptLoop IsClosed rest
  end.

Definition Accept (IsClosed : nat -> bool) (incoming : list nat) (incomingClosed : bool)
    (lerr : option error) : AcceptResult * list nat :=
  match acceptLoop IsClosed incoming with
  | (Some c, rest) => (Accepted c, rest)
  | (None, rest) =>
      if incomingClosed then
        match lerr with
        | Some e =>
            if Contains (Error e) "use of closed network connection"
            then (Failed ErrListenerClosed, rest)
            else (Failed e, rest)
        | None => (NilError, rest)
        end
      else (Blocked, rest)
  end.

(** *** [listener.handleIncoming]

    The accept loop and the upgrade goroutines it starts, as a transition
    system: one step is one synchronization of the source. *)

(** Modelled from the spec: the type [threshold] (threshold.go is not part
    of the sources at hand).  It "maintains a threshold counter of upgraded
    but not yet delivered to Accept() connections"; [Acquire] "never
    blocks, even if we go over the threshold", [Wait] blocks "while we're
    over the threshold" and returns once "the counter drops" below it. *)
Record threshold := mkThreshold { count : Z; cutoff : Z }.

Definition Acquire (t : threshold) : threshold := mkThreshold (count t + 1) (cutoff t).
Definition Release (t : threshold) : threshold := mkThreshold (count t - 1) (cutoff t).
Definition canWait (t : threshold) : bool := count t <? cutoff t.

(** Where the accept loop is. *)
Inductive LoopPC :=
  | LoopTop                 (* at [for l.ctx.Err() == nil] *)
  | InAccept                (* inside [l.GatedMaListener.Accept()] *)
  | AtWait (maconn : nat)   (* at [l.threshold.Wait()], holding a raw connection *)
  | Draining                (* in the deferred function, at [wg.Wait()] *)
  | Exited.

(** Where an upgrade goroutine is. *)
Inductive TaskPC :=
  | Upgrading               (* inside [l.upgrader.Upgrade] *)
  | Delivering              (* after [Acquire], at the [select] *)
  | Finished.

#[export] Instance TaskPC_eq_dec : EqDecision TaskPC.
Proof. solve_decision. Defined.

Record State := mkState {
  loop : LoopPC;
  tasks : list (nat * TaskPC);       (* raw connection and state of each goroutine *)
  th : threshold;
  ctxCanceled : bool;                (* l.ctx.Err() != nil *)
  lerr : option error;               (* l.err *)
  acceptCalls : nat;                 (* calls of the gated listener's Accept *)
  delivered : list nat;              (* connections received by [listener.Accept] *)
  dropped : list nat;                (* connections closed by the listener *)
  incomingClosed : bool
}.

Definition initial (cutoff0 : Z) : State :=
  mkState LoopTop [] (mkThreshold 0 cutoff0) false None 0 [] [] false.

Inductive Label :=
  | LCallAccept                              (* the loop calls Accept *)
  | LLeave                                   (* the loop condition fails *)
  | LAcceptOk (maconn : nat) (scoped : bool) (* Accept returns a connection *)
  | LAcceptErr (e : error)                   (* Accept returns an error *)
  | LWait                                    (* Wait returns; the goroutine starts *)
  | LUpgradeOk (t : nat)                     (* Upgrade succeeds; Acquire *)
  | LUpgradeFail (t : nat)                   (* Upgrade fails; connScope.Done() *)
  | LDeliver (t : nat)                       (* [l.incoming <- conn] meets a receiver *)
  | LExpire (t : nat)                        (* [<-ctx.Done()]: timeout or close *)
  | LCancel                                  (* [l.cancel()] *)
  | LDrained.                                (* [wg.Wait()] returns; [close(l.incoming)] *)

Definition setLoop (st : State) (pc : LoopPC) : State :=
  mkState pc (tasks st) (th st) (ctxCanceled st) (lerr st) (acceptCalls st)
          (delivered st) (dropped st) (incomingClosed st).

Definition setTask (st : State) (t : nat) (pc : TaskPC) (th' : threshold) : State :=
  mkState (loop st) (alter (fun x => (fst x, pc)) t (tasks st)) th' (ctxCanceled st)
          (lerr st) (acceptCalls st) (delivered st) (dropped st) (incomingClosed st).

(** The deferred function up to [wg.Wait()]. *)
Definition leave (st : State) (e : option error) : State :=
  let lerr1 := if e is Some _ then e else lerr st in
  let lerr2 := if lerr1 is Some _ then lerr1 else Some (Errorf "listener closed") in
  mkState Draining (tasks st) (th st) (ctxCanceled st) lerr2 (acceptCalls st)
          (delivered st) (dropped st) (incomingClosed st).

Definition step (st : State) (l : Label) : option State :=
  match l, loop st with
  | LCallAccept, LoopTop =>
      if ctxCanceled st then None
      else Some (mkState InAccept (tasks st) (th st) (ctxCanceled st) (lerr st)
                   (S (acceptCalls st)) (delivered st) (dropped st) (incomingClosed st))
  | LLeave, LoopTop => if ctxCanceled st then Some (leave st None) else None
  | LAcceptOk maconn scoped, InAccept =>
      if scoped then Some (setLoop st (AtWait maconn))
      else Some (mkState LoopTop (tasks st) (th st) (ctxCanceled st) (lerr st)
                   (acceptCalls st) (delivered st) (dropped st ++ [maconn])
                   (incomingClosed st))
  | LAcceptErr e, InAccept =>
      match e with
      | AcceptError _ true => Some (setLoop st LoopTop)
      | _ => Some (leave st (Some e))
      end
  | LWait, AtWait maconn =>
      if canWait (th st) then
        Some (mkState LoopTop (tasks st ++ [(maconn, Upgrading)]) (th st) (ctxCanceled st)
                (lerr st) (acceptCalls st) (delivered st) (dropped st) (incomingClosed st))
      else None
  | LUpgradeOk t, _ =>
      match tasks st !! t with
      | Some (_, Upgrading) => Some (setTask st t Delivering (Acquire (th st)))
      | _ => None
      end
  | LUpgradeFail t, _ =>
      match tasks st !! t with
      | Some (_, Upgrading) => Some (setTask st t Finished (th st))
      | _ => None
      end
  | LDeliver t, _ =>
      match tasks st !! t with
      | Some (c, Delivering) =>
          let st := setTask st t Finished (Release (th st)) in
          Some (mkState (loop st) (tasks st) (th st) (ctxCanceled st) (lerr st)
                  (acceptCalls st) (delivered st ++ [c]) (dropped st) (incomingClosed st))
      | _ => None
      end
  | LExpire t, _ =>
      match tasks st !! t with
      | Some (c, Delivering) =>
          let st := setTask st t Finished (Release (th st)) in
          Some (mkState (loop st) (tasks st) (th st) (ctxCanceled st) (lerr st)
                  (acceptCalls st) (delivered st) (dropped st ++ [c]) (incomingClosed st))
      | _ => None
      end
  | LCancel, _ =>
      Some (mkState (loop st) (tasks st) (th st) true (lerr st) (acceptCalls st)
              (delivered st) (dropped st) (incomingClosed st))
  | LDrained, Draining =>
      if forallb (fun x => bool_decide (snd x = Finished)) (tasks st) then
        Some (mkState Exited (tasks st) (th st) (ctxCanceled st) (lerr st)
                (acceptCalls st) (delivered st) (dropped st) true)
      else None
  | _, _ => None
  end.


Fixpoint run (st : State) (tr : list Label) : option State :=
  match tr with
  | [] => Some st
  | l :: tr => st' ← step st l; run st' tr
  end.






End Listener.

(** ** Connect and disconnect notifications of a connection
    ([Conn.Close], [Conn.doClose] of swarm_conn.go) *)
Module Notify.

Inductive Notification :=
  | Connected (f : nat)
  | Disconnected (f : nat).

#[export] Instance Notification_eq_dec : EqDecision Notification.
Proof. solve_decision. Defined.

(** Who holds [c.notifyLk]. *)
Inductive Holder := Opener | Notifier.

(** The goroutine started at the end of [doClose]. *)
Inductive NotifierPC :=
  | NotStarted
  | AtLock                       (* at [c.notifyLk.Lock()] *)
  | Notifying (todo : list nat)  (* inside [notifyAll], notifiees left *)
  | NotifierDone.

(** Modelled from the spec: [Swarm.addConn] and [Swarm.notifyAll] (swarm.go
    is not part of the sources at hand).  The connect notification is
    protected by "a per-connection notification lock": the goroutine that
    creates the connection takes [c.notifyLk] before anyone else can reach
    the connection, notifies every notifiee, and releases the lock.
    [notifyAll] calls the notifiees one after the other. *)
Inductive OpenerPC :=
  | Opening (todo : list nat)    (* holds the lock; notifiees left *)
  | OpenerDone.

Record State := mkState {
  notifiees : list nat;
  notifyLk : option Holder;
  opener : OpenerPC;
  closeOnce : bool;              (* [c.closeOnce] has fired *)
  closeCalls : nat;              (* calls of Close / CloseWithError so far *)
  notifier : NotifierPC;
  log : list Notification        (* notifications delivered, oldest first *)
}.

(** Modelled from the spec: the state in which [addConn] has created the
    connection and holds its notification lock. *)
Definition initial (fs : list nat) : State :=
  mkState fs (Some Opener) (Opening fs) false 0 NotStarted [].

Inductive Label :=
  | LConnected                   (* the opener notifies the next notifiee *)
  | LOpenerUnlock
  | LClose                       (* some goroutine calls Close or CloseWithError *)
  | LNotifierLock
  | LDisconnected                (* the notifier notifies the next notifiee *)
  | LNotifierUnlock.

Definition step (st : State) (l : Label) : option State :=
  match l with
  | LConnected =>
      match opener st with
      | Opening (f :: todo) =>
          Some (mkState (notifiees st) (notifyLk st) (Opening todo) (closeOnce st)
                  (closeCalls st) (notifier st) (log st ++ [Connected f]))
      | _ => None
      end
  | LOpenerUnlock =>
      match opener st with
      | Opening [] =>
          Some (mkState (notifiees st) None OpenerDone (closeOnce st)
                  (closeCalls st) (notifier st) (log st))
      | _ => None
      end
  | LClose =>
      (* [c.closeOnce.Do(func() { c.doClose(errCode) })]: the first call runs
         [doClose], which ends by starting the notifier goroutine *)
      if closeOnce st then
        Some (mkState (notifiees st) (notifyLk st) (opener st) true
                (S (closeCalls st)) (notifier st) (log st))
      else
        Some (mkState (notifiees st) (notifyLk st) (opener st) true
                (S (closeCalls st)) AtLock (log st))
  | LNotifierLock =>
      match notifier st, notifyLk st with
      | AtLock, None =>
          Some (mkState (notifiees st) (Some Notifier) (opener st) (closeOnce st)
                  (closeCalls st) (Notifying (notifiees st)) (log st))
      | _, _ => None
      end
  | LDisconnected =>
      match notifier st with
      | Notifying (f :: todo) =>
          Some (mkState (notifiees st) (notifyLk st) (opener st) (closeOnce st)
                  (closeCalls st) (Notifying todo) (log st ++ [Disconnected f]))
      | _ => None
      end
  | LNotifierUnlock =>
      match notifier st with
      | Notifying [] =>
          Some (mkState (notifiees st) None (opener st) (closeOnce st)
                  (closeCalls st) NotifierDone (log st))
      | _ => None
      end
  end.

Fixpoint run (st : State) (tr : list Label) : option State :=
  match tr with
  | [] => Some st
  | l :: tr => st' ← step st l; run st' tr
  end.

Definition isConnected (n : Notification) : bool :=
  match n with
  | Connected _ => true
  | Disconnected _ => false
  end.

End Notify.

(** * Part II: theorems *)

Module Int64Facts.
Import Int64.
Local Open Scope Z_scope.

Lemma wrap_small x : inRange x -> wrap x = x.
Proof.
  unfold inRange, minInt64, maxInt64, wrap. intros Hx.
  rewrite Z.mod_small; lia.
Qed.

Lemma wrap_0 : wrap 0 = 0.
Proof. reflexivity. Qed.

Lemma wrap_add_r a b : wrap (a + wrap b) = wrap (a + b).
Proof.
  unfold wrap.
  replace (a + ((b + 2 ^ 63) mod 2 ^ 64 - 2 ^ 63) + 2 ^ 63)
    with (a + (b + 2 ^ 63) mod 2 ^ 64) by lia.
  rewrite Zplus_mod_idemp_r. f_equal. f_equal. lia.
Qed.

Lemma wrap_add_l a b : wrap (wrap a + b) = wrap (a + b).
Proof. rewrite (Z.add_comm (wrap a)), wrap_add_r. f_equal. lia. Qed.

Lemma add_assoc a b c : add a (add b c) = add (add a b) c.
Proof. unfold add. rewrite wrap_add_r, wrap_add_l. f_equal. lia. Qed.

Lemma add_0_l_wrapped a b : add a (add 0 b) = add a b.
Proof. unfold add. rewrite wrap_add_r. f_equal. Qed.

Lemma add_0_0 : add 0 0 = 0.
Proof. reflexivity. Qed.

Lemma mul_2_0 : mul 2 0 = 0.
Proof. reflexivity. Qed.

End Int64Facts.

Module RankerFacts.
Import Ranker Int64Facts.
Local Open Scope Z_scope.

Lemma insertSorted_perm key x l : insertSorted key x l ≡ₚ x :: l.
Proof.
  induction l as [|y r IH]; simpl; [done|].
  destruct (key x <? key y); [done|]. rewrite IH. apply Permutation_swap.
Qed.

Lemma insertionSort_perm key l : insertionSort key l ≡ₚ l.
Proof.
  unfold insertionSort.
  assert (G : forall acc, foldl (fun acc x => insertSorted key x acc) acc l ≡ₚ l ++ acc).
  { induction l as [|x l IH]; intros acc; simpl; [done|].
    rewrite IH, insertSorted_perm. by rewrite Permutation_middle. }
  rewrite G. by rewrite app_nil_r.
Qed.

Lemma insertSorted_sorted key x l :
  StronglySorted (fun a b => key a <= key b) l ->
  StronglySorted (fun a b => key a <= key b) (insertSorted key x l).
Proof.
  induction 1 as [|y r Hs IH Hall]; simpl.
  - repeat constructor.
  - destruct (Z.ltb_spec (key x) (key y)).
    + constructor; [by constructor|]. constructor; [lia|].
      eapply Forall_impl; [exact Hall|]. simpl. intros; lia.
    + constructor; [done|]. rewrite insertSorted_perm. constructor; [lia|done].
Qed.

Lemma insertionSort_sorted key l :
  StronglySorted (fun a b => key a <= key b) (insertionSort key l).
Proof.
  unfold insertionSort.
  assert (G : forall acc, StronglySorted (fun a b => key a <= key b) acc ->
     StronglySorted (fun a b => key a <= key b)
       (foldl (fun acc x => insertSorted key x acc) acc l)).
  { induction l as [|x l IH]; intros acc Hacc; simpl; [done|].
    apply IH. by apply insertSorted_sorted. }
  apply G. constructor.
Qed.

(** The environment used to run the ranker on concrete addresses. *)
#[export] Instance smallSliceEnv : RankerEnv := {|
  sortSlice := insertionSort;
  sortSlice_perm := insertionSort_perm;
  sortSlice_sorted := insertionSort_sorted;
  IsPrivateAddr := privateByPrefix;
  isRelayAddr := hasCircuit |}.

(** *** Rearrangements *)

Lemma moveTo_perm {A} (l : list A) j pos : moveTo l j pos ≡ₚ l.
Proof.
  unfold moveTo. destruct (Nat.ltb_spec pos j) as [Hlt|]; [|done].
  destruct (l !! j) as [a|] eqn:Hj; [|done].
  rewrite <- (take_drop pos l) at 4.
  apply Permutation_app_head.
  assert (Hd : drop pos l !! (j - pos)%nat = Some a).
  { rewrite lookup_drop. rewrite <- Hj. f_equal. lia. }
  transitivity (take (j - pos) (drop pos l) ++ a :: drop (S (j - pos)) (drop pos l));
    [|by rewrite (take_drop_middle _ _ _ Hd)].
  rewrite <- Permutation_middle, drop_drop.
  by replace (pos + S (j - pos))%nat with (S j) by lia.
Qed.

Lemma moveTo_length {A} (l : list A) j pos : length (moveTo l j pos) = length l.
Proof. apply Permutation_length, moveTo_perm. Qed.

Lemma swap_same {A} (l : list A) i : swap l i i = l.
Proof.
  unfold swap. destruct (l !! i) as [x|] eqn:E; [|done].
  rewrite list_insert_insert_eq. by apply list_insert_id.
Qed.

Lemma swap_middle {A} (Y N R : list A) n0 a :
  swap (Y ++ n0 :: N ++ a :: R) (length Y + S (length N)) (length Y)
  = Y ++ a :: N ++ n0 :: R.
Proof.
  unfold swap.
  assert (H1 : (Y ++ n0 :: N ++ a :: R) !! (length Y + S (length N))%nat = Some a).
  { rewrite lookup_app_r by lia.
    replace (length Y + S (length N) - length Y)%nat with (S (length N)) by lia.
    simpl. rewrite lookup_app_r by lia.
    by replace (length N - length N)%nat with 0%nat by lia. }
  assert (H2 : (Y ++ n0 :: N ++ a :: R) !! length Y = Some n0).
  { rewrite lookup_app_r by lia. by replace (length Y - length Y)%nat with 0%nat by lia. }
  rewrite H1, H2.
  rewrite (insert_app_r_alt _ _ (length Y)) by lia.
  replace (length Y - length Y)%nat with 0%nat by lia. simpl.
  rewrite insert_app_r_alt by lia.
  replace (length Y + S (length N) - length Y)%nat with (S (length N)) by lia. simpl.
  rewrite insert_app_r_alt by lia.
  by replace (length N - length N)%nat with 0%nat by lia.
Qed.


Lemma filter_loop f (Y N R : list Multiaddr) :
  exists N',
    foldl (filterStep f) (Y ++ N ++ R, length Y) (seq (length Y + length N) (length R))
    = ((Y ++ matching f R) ++ N', length (Y ++ matching f R))
    /\ N' ≡ₚ N ++ failing f R.
Proof.
  revert Y N. induction R as [|a R IH]; intros Y N.
  - exists N. simpl. unfold matching, failing. simpl. rewrite !app_nil_r. done.
  - simpl.
    assert (Ha : (Y ++ N ++ a :: R) !! (length Y + length N)%nat = Some a).
    { rewrite lookup_app_r by lia.
      replace (length Y + length N - length Y)%nat with (length N) by lia.
      rewrite lookup_app_r by lia.
      by replace (length N - length N)%nat with 0%nat by lia. }
    rewrite Ha. unfold matching, failing. rewrite !filter_cons.
    destruct (f a) eqn:Hf.
    + destruct (decide (true = true)) as [_|]; [|done].
      destruct (decide (true = false)) as [|_]; [done|].
      destruct N as [|n0 N].
      * simpl. rewrite Nat.add_0_r, swap_same.
        destruct (IH (Y ++ [a]) []) as (N' & E & P).
        exists N'. rewrite length_app in E. simpl in E.
        rewrite Nat.add_0_r in E. rewrite <- !app_assoc in E. simpl in E.
        rewrite Nat.add_1_r in E. rewrite E. split; [|done].
        unfold matching. by rewrite <- !app_assoc.
      * simpl. rewrite swap_middle.
        destruct (IH (Y ++ [a]) (N ++ [n0])) as (N' & E & P).
        exists N'. rewrite !length_app in E. simpl in E.
        rewrite <- !app_assoc in E. simpl in E.
        replace (length Y + 1 + (length N + 1))%nat with (S (length Y + S (length N))) in E by lia.
        replace (length Y + 1)%nat with (S (length Y)) in E by lia.
        rewrite E. split.
        -- unfold matching. rewrite <- !app_assoc, !length_app. simpl. f_equal. lia.
        -- rewrite P. unfold failing. rewrite <- app_assoc. simpl.
           by rewrite <- Permutation_middle.
    + destruct (decide (false = true)) as [|_]; [done|].
      destruct (decide (false = false)) as [_|]; [|done].
      destruct (IH Y (N ++ [a])) as (N' & E & P).
      exists N'. rewrite length_app in E. simpl in E. rewrite <- !app_assoc in E. simpl in E.
      replace (length Y + (length N + 1))%nat with (S (length Y + length N)) in E by lia.
      rewrite E. split; [unfold matching; by rewrite <- app_assoc|].
      rewrite P. unfold failing. by rewrite <- app_assoc.
Qed.

Lemma filterAddrs_spec l f :
  (filterAddrs l f).1 = matching f l /\ (filterAddrs l f).2 ≡ₚ failing f l.
Proof.
  unfold filterAddrs.
  destruct (filter_loop f [] [] l) as (N' & E & P). simpl in E, P.
  rewrite E. simpl. rewrite take_app_length, drop_app_length. done.
Qed.

Lemma ValueForProtocol_Some a p :
  isProtocolAddr a p = true -> exists c, c ∈ a /\ Code c = p /\ ValueForProtocol a p = Some (Value c).
Proof.
  unfold isProtocolAddr. induction a as [|c r IH]; cbn [existsb ValueForProtocol]; [done|].
  destruct (Z.eqb_spec (Code c) p) as [Heq|Hne]; cbn [orb].
  - intros _. exists c. split; [left|done].
  - intros Hr. destruct (IH Hr) as (c' & Hin & Hc & Hv). exists c'. split; [by right|done].
Qed.

Lemma ValueForProtocol_None a p :
  isProtocolAddr a p = false -> ValueForProtocol a p = None.
Proof.
  unfold isProtocolAddr. induction a as [|c r IH]; cbn [existsb ValueForProtocol]; [done|].
  destruct (Z.eqb_spec (Code c) p); cbn [orb]; [done|]. apply IH.
Qed.

Lemma wellFormedPorts_elem a c :
  wellFormedPorts a = true -> c ∈ a -> Code c = P_UDP \/ Code c = P_TCP ->
  0 <= Atoi (Value c) <= 65535.
Proof.
  unfold wellFormedPorts. rewrite forallb_forall. intros Hwf Hin Hc.
  apply list_elem_of_In in Hin. specialize (Hwf c Hin).
  assert (E : (Code c =? P_UDP) || (Code c =? P_TCP) = true).
  { destruct Hc as [->| ->]; reflexivity. }
  rewrite E in Hwf. apply andb_true_iff in Hwf as [H1 H2]. lia.
Qed.

Lemma udpPort_range a : wellFormedPorts a = true -> 0 <= udpPort a <= 65535.
Proof.
  intros Hwf. unfold udpPort.
  destruct (isProtocolAddr a P_UDP) eqn:E.
  - destruct (ValueForProtocol_Some _ _ E) as (c & Hin & Hc & ->). simpl.
    apply (wellFormedPorts_elem a c Hwf Hin). by left.
  - rewrite (ValueForProtocol_None _ _ E). simpl. vm_compute. split; discriminate.
Qed.

Lemma add_small a b : Int64.inRange (a + b) -> Int64.add a b = a + b.
Proof. apply wrap_small. Qed.

Ltac small := unfold Int64.inRange, Int64.minInt64, Int64.maxInt64; lia.

Lemma plainQUIC_true a :
  plainQUIC a = true <-> isQUICAddr a = true /\ isProtocolAddr a P_WEBTRANSPORT = false.
Proof. unfold plainQUIC. rewrite andb_true_iff, negb_true_iff. done. Qed.

Lemma isIPv6Addr_true a :
  isIPv6Addr a = true <-> isProtocolAddr a P_IP6 = true /\ isProtocolAddr a P_IP4 = false.
Proof. unfold isIPv6Addr. rewrite andb_true_iff, negb_true_iff. done. Qed.

Lemma isIPv4Addr_true a :
  isIPv4Addr a = true <-> isProtocolAddr a P_IP4 = true /\ isProtocolAddr a P_IP6 = false.
Proof. unfold isIPv4Addr. rewrite andb_true_iff, negb_true_iff. done. Qed.

Lemma score_plainQUIC_v6 a :
  wellFormedPorts a = true -> plainQUIC a = true -> isIPv6Addr a = true ->
  0 <= score a < 2 ^ 18.
Proof.
  intros Hwf [Hq Hwt]%plainQUIC_true [H6 H4]%isIPv6Addr_true. pose proof (udpPort_range a Hwf) as Hp.
  unfold score. rewrite H4, (ValueForProtocol_None _ _ Hwt).
  unfold isQUICAddr in Hq.
  destruct (isProtocolAddr a P_QUIC) eqn:E1.
  - destruct (ValueForProtocol_Some _ _ E1) as (c & _ & _ & ->).
    rewrite !add_small; rewrite ?add_small; try small.
  - rewrite (ValueForProtocol_None _ _ E1). simpl in Hq.
    destruct (ValueForProtocol_Some _ _ Hq) as (c & _ & _ & ->).
    rewrite !add_small; try small.
Qed.

Lemma score_plainQUIC_v4 a :
  wellFormedPorts a = true -> plainQUIC a = true -> isProtocolAddr a P_IP4 = true ->
  2 ^ 18 <= score a < 2 ^ 19.
Proof.
  intros Hwf [Hq Hwt]%plainQUIC_true H4. pose proof (udpPort_range a Hwf) as Hp.
  unfold score. rewrite H4, (ValueForProtocol_None _ _ Hwt).
  unfold isQUICAddr in Hq.
  destruct (isProtocolAddr a P_QUIC) eqn:E1.
  - destruct (ValueForProtocol_Some _ _ E1) as (c & _ & _ & ->).
    rewrite !add_small; rewrite ?add_small; try small.
  - rewrite (ValueForProtocol_None _ _ E1). simpl in Hq.
    destruct (ValueForProtocol_Some _ _ Hq) as (c & _ & _ & ->).
    rewrite !add_small; try small.
Qed.

Lemma score_not_plainQUIC a :
  wellFormedPorts a = true -> plainQUIC a = false -> 2 ^ 19 <= score a.
Proof.
  intros Hwf Hn. pose proof (udpPort_range a Hwf) as Hp.
  unfold score.
  destruct (isProtocolAddr a P_WEBTRANSPORT) eqn:Ew.
  { destruct (ValueForProtocol_Some _ _ Ew) as (c & _ & _ & ->).
    destruct (isProtocolAddr a P_IP4); rewrite !add_small; rewrite ?add_small; try small. }
  rewrite (ValueForProtocol_None _ _ Ew).
  assert (Hq : isQUICAddr a = false).
  { unfold plainQUIC in Hn. rewrite Ew in Hn. simpl in Hn.
    by rewrite andb_true_r in Hn. }
  unfold isQUICAddr in Hq. apply orb_false_iff in Hq as [Hq1 Hq2].
  rewrite (ValueForProtocol_None _ _ Hq1), (ValueForProtocol_None _ _ Hq2).
  destruct (isProtocolAddr a P_TCP) eqn:Et.
  { destruct (ValueForProtocol_Some _ _ Et) as (c & Hin & Hc & ->).
    assert (0 <= Atoi (Value c) <= 65535)
      by (apply (wellFormedPorts_elem a c Hwf Hin); by right).
    destruct (isProtocolAddr a P_IP4); rewrite !add_small; rewrite ?add_small; try small. }
  rewrite (ValueForProtocol_None _ _ Et).
  destruct (ValueForProtocol a P_WEBRTC_DIRECT); lia.
Qed.

(** A sorted list whose least element is unique starts with it. *)
Lemma sorted_head {A} (key : A -> Z) (l r : list A) (x : A) :
  StronglySorted (fun a b => key a <= key b) l ->
  l ≡ₚ x :: r ->
  Forall (fun y => key x < key y) r ->
  exists l', l = x :: l' /\ l' ≡ₚ r.
Proof.
  intros Hs Hp Hr. destruct l as [|h l'].
  { by apply Permutation_nil_cons in Hp. }
  apply StronglySorted_inv in Hs as [_ Hall].
  assert (Hh : h ∈ x :: r) by (rewrite <- Hp; left).
  apply elem_of_cons in Hh as [->|Hh].
  - exists l'. split; [done|]. by apply Permutation_cons_inv in Hp.
  - exfalso. rewrite Forall_forall in Hr. pose proof (Hr h Hh) as Hlt.
    assert (Hx : x ∈ h :: l') by (rewrite Hp; left).
    apply elem_of_cons in Hx as [->|Hx]; [lia|].
    rewrite Forall_forall in Hall. specialize (Hall x Hx). simpl in Hall. lia.
Qed.

Lemma firstIdx_ge {A} (p : A -> bool) l start k :
  firstIdxFrom p l start = Some k -> (start <= k)%nat.
Proof.
  unfold firstIdxFrom. destruct (firstIdx p (drop start l)); simpl; [|done].
  intros [= <-]. lia.
Qed.

Lemma moveTo_take {A} (l : list A) j pos n :
  (n <= pos)%nat -> take n (moveTo l j pos) = take n l.
Proof.
  intros Hn. unfold moveTo. destruct (Nat.ltb_spec pos j); [|done].
  destruct (l !! j) eqn:E; [|done].
  apply lookup_lt_Some in E.
  rewrite take_app_le by (rewrite length_take; lia).
  rewrite take_take. f_equal. lia.
Qed.

Section facts.
Context `{RankerEnv}.

Lemma reorderQUIC_perm addrs : (reorderQUIC addrs).1.1 ≡ₚ addrs.
Proof.
  unfold reorderQUIC. destruct (addrs !! 0%nat); [|done].
  destruct (_ && _); [|done].
  destruct (firstIdxFrom _ _ _); [|done]. apply moveTo_perm.
Qed.

Lemma reorderTCP_perm addrs k : (reorderTCP addrs k).1 ≡ₚ addrs.
Proof.
  unfold reorderTCP. destruct (addrs !! k); [|done].
  destruct (isProtocolAddr _ _); [|done].
  destruct (firstIdxFrom _ _ _); [|done]. apply moveTo_perm.
Qed.

Lemma delayLoop_Addr t q o off hq ht k i tf lq addrs :
  Addr <$> (delayLoop t q o off hq ht k i tf lq addrs) = addrs.
Proof.
  revert i tf lq. induction addrs as [|a r IH]; intros i tf lq; simpl; [done|].
  destruct (isQUICAddr a); [|destruct (isProtocolAddr a P_TCP)]; simpl; by rewrite IH.
Qed.

Lemma getAddrDelay_Addr addrs t q o off :
  Addr <$> (getAddrDelay addrs t q o off) ≡ₚ addrs.
Proof.
  unfold getAddrDelay. destruct addrs as [|a r] eqn:E; [done|].
  rewrite <- E. clear E. simpl.
  destruct (length addrs =? 0)%nat eqn:El.
  { apply Nat.eqb_eq in El. by destruct addrs. }
  destruct (reorderQUIC (sortSlice score addrs)) as [[l1 hq] i] eqn:EQ.
  destruct (reorderTCP l1 (findTCPStart l1 i)) as [l2 ht] eqn:ET.
  rewrite delayLoop_Addr.
  pose proof (reorderTCP_perm l1 (findTCPStart l1 i)) as P2. rewrite ET in P2.
  pose proof (reorderQUIC_perm (sortSlice score addrs)) as P1. rewrite EQ in P1.
  simpl in *. by rewrite P2, P1, sortSlice_perm.
Qed.

Lemma getAddrDelay_length addrs t q o off :
  length (getAddrDelay addrs t q o off) = length addrs.
Proof.
  rewrite <- (length_fmap Addr). apply Permutation_length, getAddrDelay_Addr.
Qed.

Lemma delayLoop_zero hq ht k i addrs :
  Forall (fun r => Delay r = 0) (delayLoop 0 0 0 0 hq ht k i 0 0 addrs).
Proof.
  revert i. induction addrs as [|a r IH]; intros i; simpl; [constructor|].
  assert (Hq : quicDelayAt 0 hq i = 0).
  { unfold quicDelayAt. destruct (1 <? i)%nat, hq, (i =? 1)%nat; reflexivity. }
  assert (Ht : tcpDelayAt 0 ht k i = 0).
  { unfold tcpDelayAt. destruct (k + 1 <? i)%nat, ht, (i =? k + 1)%nat; reflexivity. }
  destruct (isQUICAddr a); [|destruct (isProtocolAddr a P_TCP)].
  - rewrite Hq. constructor; [reflexivity|]. apply IH.
  - rewrite Ht. constructor; [reflexivity|]. apply IH.
  - constructor; [reflexivity|]. apply IH.
Qed.

Lemma NoDelay_zero addrs : Forall (fun r => Delay r = 0) (NoDelayDialRanker addrs).
Proof.
  unfold NoDelayDialRanker, getAddrDelay.
  destruct (length addrs =? 0)%nat; [constructor|].
  destruct (reorderQUIC _) as [[l1 hq] i].
  destruct (reorderTCP _ _) as [l2 ht]. apply delayLoop_zero.
Qed.



Lemma reorderTCP_take2 l k :
  (2 <= k)%nat -> take 2 (reorderTCP l k).1 = take 2 l.
Proof.
  intros Hk. unfold reorderTCP. destruct (l !! k); [|done].
  destruct (isProtocolAddr _ _); [|done].
  destruct (firstIdxFrom _ _ _); [|done]. simpl. apply moveTo_take. lia.
Qed.

Lemma findTCPStart_ge l i : (i <= length l)%nat -> (i <= findTCPStart l i)%nat.
Proof.
  intros Hi. unfold findTCPStart. destruct (firstIdxFrom isTCP l i) eqn:E; simpl; [|done].
  by apply firstIdx_ge in E.
Qed.

(** The ranked public group when it has one IPv6 and one IPv4 QUIC address
    and no other QUIC address. *)
Lemma getAddrDelay_happy a6 a4 group rest t q o off :
  group ≡ₚ a6 :: a4 :: rest ->
  Forall (fun x => wellFormedPorts x = true) group ->
  plainQUIC a6 = true -> isIPv6Addr a6 = true ->
  plainQUIC a4 = true -> isIPv4Addr a4 = true ->
  Forall (fun x => plainQUIC x = false) rest ->
  exists tail,
    getAddrDelay group t q o off
    = mkAddrDelay a6 (Int64.add off 0) :: mkAddrDelay a4 (Int64.add off q) :: tail
    /\ Addr <$> tail ≡ₚ rest.
Proof.
  intros Hp Hwf Hq6 H6 Hq4 H4 Hrest.
  assert (Hwf' : forall x, x ∈ group -> wellFormedPorts x = true)
    by (by apply Forall_forall).
  assert (W6 : wellFormedPorts a6 = true) by (apply Hwf'; rewrite Hp; left).
  assert (W4 : wellFormedPorts a4 = true) by (apply Hwf'; rewrite Hp; right; left).
  pose proof (score_plainQUIC_v6 a6 W6 Hq6 H6) as S6.
  apply isIPv4Addr_true in H4. apply isIPv6Addr_true in H6.
  pose proof (score_plainQUIC_v4 a4 W4 Hq4 (proj1 H4)) as S4.
  apply plainQUIC_true in Hq6, Hq4.
  assert (SR : Forall (fun x => 2 ^ 19 <= score x) rest).
  { rewrite Forall_forall in Hrest |- *. intros x Hx.
    apply score_not_plainQUIC; [|by apply Hrest].
    apply Hwf'. rewrite Hp. by do 2 right. }
  pose proof (sortSlice_perm score group) as Pp.
  pose proof (sortSlice_sorted score group) as Ss.
  destruct (sorted_head score (sortSlice score group) (a4 :: rest) a6 Ss) as (l1 & E1 & P1).
  { by rewrite Pp. }
  { constructor; [lia|]. eapply Forall_impl; [exact SR|]. simpl. intros; lia. }
  rewrite E1 in Ss. apply StronglySorted_inv in Ss as [Ss _].
  destruct (sorted_head score l1 rest a4 Ss P1) as (l2 & E2 & P2).
  { eapply Forall_impl; [exact SR|]. simpl. intros; lia. }
  subst l1.
  unfold getAddrDelay.
  destruct (length group =? 0)%nat eqn:El.
  { apply Nat.eqb_eq in El. apply Permutation_length in Hp. simpl in Hp. lia. }
  rewrite E1.
  assert (EQ : reorderQUIC (a6 :: a4 :: l2) = (a6 :: a4 :: l2, true, 2%nat)).
  { unfold reorderQUIC. simpl. rewrite (proj1 Hq6), (proj1 H6). simpl.
    unfold firstIdxFrom. simpl. unfold isQUICv4. rewrite (proj1 Hq4), (proj1 H4). done. }
  rewrite EQ.
  set (k := findTCPStart (a6 :: a4 :: l2) 2).
  assert (Hk : (2 <= k)%nat) by (apply findTCPStart_ge; simpl; lia).
  destruct (reorderTCP (a6 :: a4 :: l2) k) as [l3 ht] eqn:ET.
  pose proof (reorderTCP_take2 (a6 :: a4 :: l2) k Hk) as T2. rewrite ET in T2. simpl in T2.
  pose proof (reorderTCP_perm (a6 :: a4 :: l2) k) as P3. rewrite ET in P3. simpl in P3.
  destruct l3 as [|x1 [|x2 l3]]; simpl in T2; try discriminate.
  injection T2 as -> ->.
  simpl. rewrite (proj1 Hq6), (proj1 Hq4).
  eexists. split; [reflexivity|].
  rewrite delayLoop_Addr.
  do 2 apply Permutation_cons_inv in P3. by rewrite P3.
Qed.


(** *** The groups of [DefaultDialRanker] *)

Lemma groups_spec addrs :
  let '(relay, pvt, public, rest) := groups addrs in
  relay = matching isRelayAddr addrs
  /\ pvt ≡ₚ matching IsPrivateAddr (failing isRelayAddr addrs)
  /\ public ≡ₚ matching hasIP (failing IsPrivateAddr (failing isRelayAddr addrs))
  /\ rest ≡ₚ failing hasIP (failing IsPrivateAddr (failing isRelayAddr addrs)).
Proof.
  unfold groups.
  destruct (filterAddrs addrs isRelayAddr) as [relay r1] eqn:E1.
  destruct (filterAddrs r1 IsPrivateAddr) as [pvt r2] eqn:E2.
  destruct (filterAddrs r2 hasIP) as [public rest] eqn:E3.
  pose proof (filterAddrs_spec addrs isRelayAddr) as [A1 B1]. rewrite E1 in A1, B1.
  pose proof (filterAddrs_spec r1 IsPrivateAddr) as [A2 B2]. rewrite E2 in A2, B2.
  pose proof (filterAddrs_spec r2 hasIP) as [A3 B3]. rewrite E3 in A3, B3.
  simpl in *. subst relay pvt public. unfold matching, failing in *.
  split; [done|]. split; [by rewrite B1|].
  split; [by rewrite B2, B1|]. by rewrite B3, B2, B1.
Qed.

Lemma leftover_elem addrs a :
  a ∈ leftover addrs <->
  a ∈ addrs /\ isRelayAddr a = false /\ IsPrivateAddr a = false /\ hasIP a = false.
Proof.
  unfold leftover. pose proof (groups_spec addrs) as G.
  destruct (groups addrs) as [[[relay pvt] public] rest]. simpl.
  destruct G as (_ & _ & _ & ->). unfold failing.
  rewrite !list_elem_of_filter. tauto.
Qed.

Lemma DefaultDialRanker_unfold addrs :
  DefaultDialRanker addrs
  = rankedGroups addrs
    ++ ((fun a => mkAddrDelay a (Int64.add (maxDelayOf (rankedGroups addrs)) PublicOtherDelay))
          <$> leftover addrs).
Proof.
  unfold DefaultDialRanker, leftover.
  by destruct (groups addrs) as [[[relay pvt] public] rest].
Qed.

(** Where the entries of the ranked groups come from. *)
Lemma rankedGroups_elem addrs r :
  r ∈ rankedGroups addrs ->
  Addr r ∈ addrs /\ (isRelayAddr (Addr r) = true \/ IsPrivateAddr (Addr r) = true
                     \/ hasIP (Addr r) = true).
Proof.
  unfold rankedGroups. pose proof (groups_spec addrs) as G.
  destruct (groups addrs) as [[[relay pvt] public] rest].
  destruct G as (-> & Gp & Gu & _).
  rewrite !elem_of_app. intros Hin.
  assert (Hin' : Addr r ∈ matching IsPrivateAddr (failing isRelayAddr addrs)
                 \/ Addr r ∈ matching hasIP (failing IsPrivateAddr (failing isRelayAddr addrs))
                 \/ Addr r ∈ matching isRelayAddr addrs).
  { destruct Hin as [Hin|[Hin|Hin]]; apply (list_elem_of_fmap_2 Addr) in Hin;
      rewrite getAddrDelay_Addr in Hin; [left; by rewrite <- Gp|right; left; by rewrite <- Gu|by do 2 right]. }
  unfold matching, failing in Hin'. rewrite !list_elem_of_filter in Hin'. tauto.
Qed.

(** *** The default case of the delay loop *)

Lemma delayLoop_other t q o off hq ht k i tf lq addrs pre a d post :
  delayLoop t q o off hq ht k i tf lq addrs = pre ++ mkAddrDelay a d :: post ->
  otherTransport a = true ->
  d = match lastQUICOrTCP pre with
      | Some d' => Int64.add d' o
      | None => Int64.add off (Int64.add lq o)
      end.
Proof.
  intros E Ha. apply andb_true_iff in Ha as [Hq%negb_true_iff Ht%negb_true_iff].
  revert i tf lq pre E. induction addrs as [|x xs IH]; intros i tf lq pre E.
  { by destruct pre. }
  destruct pre as [|e0 pre'].
  - cbn [delayLoop] in E. simpl in E.
    destruct (isQUICAddr x) eqn:Eq; [|destruct (isProtocolAddr x P_TCP) eqn:Et];
      injection E as -> <- _; try congruence. done.
  - cbn [delayLoop] in E. rewrite <- app_comm_cons in E.
    unfold lastQUICOrTCP.
    destruct (isQUICAddr x) eqn:Eq; [|destruct (isProtocolAddr x P_TCP) eqn:Et];
      injection E as <- E; apply IH in E; rewrite E; unfold lastQUICOrTCP.
    + rewrite filter_cons_True by (unfold quicOrTCP; cbn [Addr]; by rewrite Eq).
      destruct (filter _ pre') as [|f fs] eqn:EF;
        [|rewrite last_cons_cons; destruct (last (f :: fs)) eqn:EL;
          [done|by apply last_None in EL]].
      cbn. apply add_assoc.
    + rewrite filter_cons_True by (unfold quicOrTCP; cbn [Addr]; by rewrite Eq, Et).
      destruct (filter _ pre') as [|f fs] eqn:EF;
        [|rewrite last_cons_cons; destruct (last (f :: fs)) eqn:EL;
          [done|by apply last_None in EL]].
      cbn. apply add_assoc.
    + rewrite filter_cons_False; [done|].
      unfold quicOrTCP; cbn [Addr]. by rewrite Eq, Et.
Qed.

Lemma getAddrDelay_other addrs t q o off pre a d post :
  getAddrDelay addrs t q o off = pre ++ mkAddrDelay a d :: post ->
  otherTransport a = true ->
  d = match lastQUICOrTCP pre with
      | Some d' => Int64.add d' o
      | None => Int64.add off o
      end.
Proof.
  unfold getAddrDelay. destruct (length addrs =? 0)%nat; [by destruct pre|].
  destruct (reorderQUIC _) as [[l1 hq] i].
  destruct (reorderTCP _ _) as [l2 ht].
  intros E Ha. rewrite (delayLoop_other _ _ _ _ _ _ _ _ _ _ _ _ _ _ _ E Ha).
  destruct (lastQUICOrTCP pre); [done|]. apply add_0_l_wrapped.
Qed.

(** A group of one address. *)
Lemma getAddrDelay_single a t q o off :
  otherTransport a = true ->
  getAddrDelay [a] t q o off = [mkAddrDelay a (Int64.add off o)].
Proof.
  intros Ha.
  pose proof (getAddrDelay_Addr [a] t q o off) as P.
  apply Permutation_singleton_r in P.
  destruct (getAddrDelay [a] t q o off) as [|[a' d] [|? ?]] eqn:E; try discriminate.
  injection P as ->.
  by rewrite (getAddrDelay_other [a] t q o off [] a d [] E Ha).
Qed.

Lemma filterAddrs_single a f :
  filterAddrs [a] f = if f a then ([a], []) else ([], [a]).
Proof. unfold filterAddrs. simpl. destruct (f a); reflexivity. Qed.

Lemma filterAddrs_nil f : filterAddrs [] f = ([], []).
Proof. reflexivity. Qed.

(** [DefaultDialRanker] on a single address that is neither QUIC nor TCP. *)
Lemma DefaultDialRanker_lone a :
  otherTransport a = true ->
  DefaultDialRanker [a] = [mkAddrDelay a (otherDelayOf a)].
Proof.
  intros Ha. unfold DefaultDialRanker, rankedGroups, groups, otherDelayOf.
  rewrite filterAddrs_single. destruct (isRelayAddr a) eqn:Er.
  { rewrite !filterAddrs_nil. cbn -[getAddrDelay Int64.add].
    by rewrite (getAddrDelay_single a _ _ _ _ Ha). }
  rewrite filterAddrs_single. destruct (IsPrivateAddr a) eqn:Ep.
  { rewrite !filterAddrs_nil. cbn -[getAddrDelay Int64.add].
    by rewrite (getAddrDelay_single a _ _ _ _ Ha). }
  rewrite filterAddrs_single. destruct (hasIP a) eqn:Ei.
  { cbn -[getAddrDelay Int64.add]. by rewrite (getAddrDelay_single a _ _ _ _ Ha). }
  reflexivity.
Qed.


Lemma rankedGroups_split addrs :
  exists pvt public relay,
    rankedGroups addrs
    = getAddrDelay pvt PrivateTCPDelay PrivateQUICDelay PrivateOtherDelay 0
      ++ getAddrDelay public PublicTCPDelay PublicQUICDelay PublicOtherDelay 0
      ++ getAddrDelay relay PublicTCPDelay PublicQUICDelay PublicOtherDelay
           (if (0 <? length public)%nat then RelayDelay else 0)
    /\ relay = matching isRelayAddr addrs
    /\ pvt ≡ₚ matching IsPrivateAddr (failing isRelayAddr addrs)
    /\ public ≡ₚ matching hasIP (failing IsPrivateAddr (failing isRelayAddr addrs)).
Proof.
  unfold rankedGroups. pose proof (groups_spec addrs) as G.
  destruct (groups addrs) as [[[relay pvt] public] rest].
  destruct G as (G1 & G2 & G3 & _). by exists pvt, public, relay.
Qed.

Lemma publicAddr_true a :
  publicAddr a = true <->
  isRelayAddr a = false /\ IsPrivateAddr a = false /\ hasIP a = true.
Proof.
  unfold publicAddr. rewrite !andb_true_iff, !negb_true_iff. tauto.
Qed.

Lemma public_group_cons a l :
  publicAddr a = true ->
  matching hasIP (failing IsPrivateAddr (failing isRelayAddr (a :: l)))
  = a :: matching hasIP (failing IsPrivateAddr (failing isRelayAddr l)).
Proof.
  intros (Hr & Hp & Hi)%publicAddr_true. unfold matching, failing.
  by rewrite !filter_cons_True.
Qed.

(** C5.  When the input has exactly one IPv6 and one IPv4 public QUIC
    address ([a6] and [a4]; every other address is not a public QUIC
    address), [DefaultDialRanker] ranks [a6] with delay 0 and [a4] with
    delay [PublicQUICDelay] (250ms), and gives them no other entry. *)
Theorem DefaultDialRanker_happy_eyeballs_QUIC
    (addrs : list Multiaddr) (a6 a4 : Multiaddr) (others : list Multiaddr) :
  addrs ≡ₚ a6 :: a4 :: others ->
  Forall (fun x => wellFormedPorts x = true) addrs ->
  publicAddr a6 = true -> plainQUIC a6 = true -> isIPv6Addr a6 = true ->
  publicAddr a4 = true -> plainQUIC a4 = true -> isIPv4Addr a4 = true ->
  Forall (fun x => publicAddr x && plainQUIC x = false) others ->
  mkAddrDelay a6 0 ∈ DefaultDialRanker addrs
  /\ mkAddrDelay a4 PublicQUICDelay ∈ DefaultDialRanker addrs
  /\ PublicQUICDelay = 250 * Millisecond
  /\ forall r, r ∈ DefaultDialRanker addrs ->
       (Addr r = a6 -> Delay r = 0) /\ (Addr r = a4 -> Delay r = PublicQUICDelay).
Proof.
  intros Hp Hwf P6 Q6 I6 P4 Q4 I4 Hoth.
  destruct (rankedGroups_split addrs) as (pvt & public & relay & ER & Gr & Gp & Gu).
  set (O' := matching hasIP (failing IsPrivateAddr (failing isRelayAddr others))).
  assert (Gu' : public ≡ₚ a6 :: a4 :: O').
  { rewrite Gu. unfold matching, failing. rewrite Hp.
    fold (failing isRelayAddr (a6 :: a4 :: others)).
    fold (failing IsPrivateAddr (failing isRelayAddr (a6 :: a4 :: others))).
    fold (matching hasIP (failing IsPrivateAddr (failing isRelayAddr (a6 :: a4 :: others)))).
    rewrite (public_group_cons a6 _ P6).
    assert (E : matching hasIP (failing IsPrivateAddr (failing isRelayAddr (a4 :: others)))
                = a4 :: O') by apply (public_group_cons a4 _ P4).
    unfold matching, failing in *. by rewrite E. }
  assert (HO' : forall x, x ∈ O' -> x ∈ others /\ publicAddr x = true).
  { intros x. unfold O', matching, failing. rewrite !list_elem_of_filter.
    intros (Hi & Hv & Hr & Hin). split; [done|]. by apply publicAddr_true. }
  assert (HO'q : Forall (fun x => plainQUIC x = false) O').
  { apply Forall_forall. intros x Hx. destruct (HO' x Hx) as [Hin Hpub].
    rewrite Forall_forall in Hoth. specialize (Hoth x Hin).
    rewrite Hpub in Hoth. done. }
  assert (Hwfp : Forall (fun x => wellFormedPorts x = true) public).
  { rewrite Forall_forall in Hwf |- *. intros x Hx. apply Hwf.
    rewrite Gu in Hx. unfold matching, failing in Hx.
    rewrite !list_elem_of_filter in Hx. tauto. }
  destruct (getAddrDelay_happy a6 a4 public O' PublicTCPDelay PublicQUICDelay
              PublicOtherDelay 0 Gu' Hwfp Q6 I6 Q4 I4 HO'q) as (tail & EP & PT).
  change (Int64.add 0 0) with 0 in EP.
  change (Int64.add 0 PublicQUICDelay) with PublicQUICDelay in EP.
  rewrite DefaultDialRanker_unfold, ER, EP.
  split; [rewrite !elem_of_app; left; right; left; left|].
  split; [rewrite !elem_of_app; left; right; left; right; left|].
  split; [reflexivity|].
  assert (Hne : a4 <> a6).
  { intros ->. apply isIPv4Addr_true in I4. apply isIPv6Addr_true in I6.
    destruct I4, I6. congruence. }
  apply publicAddr_true in P6 as (R6 & V6 & H6).
  apply publicAddr_true in P4 as (R4 & V4 & H4).
  assert (Hnot : forall x, x ∈ O' -> x <> a6 /\ x <> a4).
  { intros x Hx. rewrite Forall_forall in HO'q. specialize (HO'q x Hx).
    split; intros ->; congruence. }
  intros r. rewrite !elem_of_app, !elem_of_cons.
  intros [[Hin|[[->|[->|Hin]]|Hin]]|Hin].
  - apply (list_elem_of_fmap_2 Addr) in Hin. rewrite getAddrDelay_Addr, Gp in Hin.
    unfold matching, failing in Hin. rewrite !list_elem_of_filter in Hin.
    split; intros E; rewrite E in Hin; destruct Hin as (? & ? & ?); congruence.
  - simpl. split; [done|]. intros E. by symmetry in E.
  - simpl. split; [|done]. intros E. done.
  - apply (list_elem_of_fmap_2 Addr) in Hin. rewrite PT in Hin.
    destruct (Hnot _ Hin). split; intros E; congruence.
  - apply (list_elem_of_fmap_2 Addr) in Hin. rewrite getAddrDelay_Addr, Gr in Hin.
    unfold matching in Hin. rewrite list_elem_of_filter in Hin.
    split; intros E; rewrite E in Hin; destruct Hin; congruence.
  - apply list_elem_of_fmap in Hin as (a & -> & Hin). simpl.
    apply leftover_elem in Hin as (_ & _ & _ & Hi).
    split; intros ->; congruence.
Qed.

Lemma largestDelay_ge res r : r ∈ res -> Delay r <= largestDelay res.
Proof.
  unfold largestDelay. induction res as [|x xs IH]; [by intros ?%elem_of_nil|].
  rewrite fmap_cons. simpl. intros [->|Hin]%elem_of_cons; [lia|].
  specialize (IH Hin). lia.
Qed.

(** C6, as the code has it.  (1) Inside a group, an address that is
    neither QUIC nor TCP gets the delay of the last QUIC or TCP address
    ranked before it in the group plus the group's "other" delay, and the
    group's offset plus the "other" delay when there is none before it.
    (2) An address left over after the three groups (no relay, not
    private, no IP component) gets the largest delay of the ranked groups
    plus [PublicOtherDelay], whenever the last ranked entry is the one
    with the largest delay.  (3) There is no exception for an address
    that is the only candidate: it is delayed by the "other" delay of its
    group, 100ms when it is private and 1s otherwise. *)
Theorem other_transport_delay :
  (forall addrs t q o off pre a d post,
      getAddrDelay addrs t q o off = pre ++ mkAddrDelay a d :: post ->
      otherTransport a = true ->
      d = match lastQUICOrTCP pre with
          | Some d' => Int64.add d' o
          | None => Int64.add off o
          end)
  /\ (forall addrs a,
        a ∈ leftover addrs ->
        maxDelayOf (rankedGroups addrs) = largestDelay (rankedGroups addrs) ->
        let d := Int64.add (largestDelay (rankedGroups addrs)) PublicOtherDelay in
        mkAddrDelay a d ∈ DefaultDialRanker addrs
        /\ forall r, r ∈ DefaultDialRanker addrs -> Addr r = a -> Delay r = d)
  /\ (forall a,
        otherTransport a = true ->
        DefaultDialRanker [a] = [mkAddrDelay a (otherDelayOf a)]
        /\ otherDelayOf a = (if negb (isRelayAddr a) && IsPrivateAddr a
                             then 100 * Millisecond else 1000 * Millisecond)).
Proof.
  split; [apply getAddrDelay_other|]. split.
  - intros addrs a Hin Hmax d. subst d. rewrite <- Hmax.
    rewrite DefaultDialRanker_unfold. split.
    + rewrite elem_of_app. right.
      by apply (list_elem_of_fmap_2
                  (fun a => mkAddrDelay a (Int64.add (maxDelayOf (rankedGroups addrs))
                                                     PublicOtherDelay))).
    + intros r [Hr|Hr]%elem_of_app Ea.
      * apply rankedGroups_elem in Hr as [_ Hr]. rewrite Ea in Hr.
        apply leftover_elem in Hin as (_ & ? & ? & ?).
        destruct Hr as [?|[?|?]]; congruence.
      * by apply list_elem_of_fmap in Hr as (a' & -> & _).
  - intros a Ha. split; [by apply DefaultDialRanker_lone|].
    unfold otherDelayOf. by destruct (_ && _).
Qed.

(** C7.  [NoDelayDialRanker] returns one entry per input address, every
    delay is 0, the returned addresses are the input addresses as a
    multiset, and the result does not depend on the order of the input
    (up to the order of the output). *)
Theorem NoDelayDialRanker_all_zero (addrs : list Multiaddr) :
  length (NoDelayDialRanker addrs) = length addrs
  /\ Forall (fun r => Delay r = 0) (NoDelayDialRanker addrs)
  /\ Addr <$> (NoDelayDialRanker addrs) ≡ₚ addrs
  /\ (forall addrs', addrs' ≡ₚ addrs ->
        NoDelayDialRanker addrs' ≡ₚ NoDelayDialRanker addrs).
Proof.
  split; [apply getAddrDelay_length|].
  split; [apply NoDelay_zero|].
  split; [apply getAddrDelay_Addr|].
  intros addrs' Hp.
  assert (G : forall l, NoDelayDialRanker l
              = (fun a => mkAddrDelay a 0) <$> (Addr <$> (NoDelayDialRanker l))).
  { intros l. pose proof (NoDelay_zero l) as Hz.
    induction Hz as [|[a d] r Hd _ IH]; [done|].
    simpl in Hd. subst d. rewrite !fmap_cons. simpl. by rewrite <- IH. }
  rewrite (G addrs'), (G addrs).
  apply fmap_Permutation. unfold NoDelayDialRanker.
  by rewrite !getAddrDelay_Addr.
Qed.
End facts.

(** C5 on the input of the test "quic-ip4-ip6". *)
Lemma happy_eyeballs_QUIC_witness :
  mkAddrDelay q1v16 0 ∈ DefaultDialRanker [q1v16; q2v1]
  /\ mkAddrDelay q2v1 PublicQUICDelay ∈ DefaultDialRanker [q1v16; q2v1].
Proof.
  destruct (DefaultDialRanker_happy_eyeballs_QUIC [q1v16; q2v1] q1v16 q2v1 [])
    as (A & B & _); try reflexivity.
  - repeat constructor.
  - constructor.
  - by split.
Defined.

(** C7 on the input of the test of the no-delay ranker. *)
Lemma NoDelayDialRanker_witness :
  Forall (fun r => Delay r = 0) (NoDelayDialRanker [q1v1; q2v1; q1v16; t1; wrtc1])
  /\ Addr <$> NoDelayDialRanker [q1v1; q2v1; q1v16; t1; wrtc1]
      ≡ₚ [q1v1; q2v1; q1v16; t1; wrtc1].
Proof.
  destruct (NoDelayDialRanker_all_zero [q1v1; q2v1; q1v16; t1; wrtc1]) as (_ & A & B & _).
  by split.
Defined.

(** C6 as stated fails: an address that is the only candidate is delayed.
    The test "only-non-ip-addr" expects [PublicOtherDelay] for the lone
    onion address; a lone webrtc-direct address gets the same. *)
Lemma lone_other_address_is_delayed :
  DefaultDialRanker [onion1] = [mkAddrDelay onion1 PublicOtherDelay]
  /\ DefaultDialRanker [wrtc1] = [mkAddrDelay wrtc1 PublicOtherDelay]
  /\ PublicOtherDelay = 1000000000
  /\ PublicOtherDelay <> 0.
Proof. repeat split. discriminate. Qed.

(** C6, amended, on the input of the test "quic-with-other": the onion
    address is ranked after the groups. *)
Lemma other_transport_delay_witness :
  mkAddrDelay onion1 (PublicQUICDelay + 2 * PublicOtherDelay)
    ∈ DefaultDialRanker [q1v1; q1v16; wrtc1; wrtc1v6; onion1; onlyIP].
Proof.
  destruct other_transport_delay as (_ & A & _).
  destruct (A [q1v1; q1v16; wrtc1; wrtc1v6; onion1; onlyIP] onion1) as [B _].
  - vm_compute. constructor.
  - reflexivity.
  - exact B.
Defined.

(** The ranker reproduces the expectations of the repository's tests. *)
Example test_quic_with_other :
  DefaultDialRanker [q1v1; q1v16; wrtc1; wrtc1v6; onion1; onlyIP]
  = [ mkAddrDelay q1v16 0;
      mkAddrDelay q1v1 PublicQUICDelay;
      mkAddrDelay wrtc1 (PublicQUICDelay + PublicOtherDelay);
      mkAddrDelay wrtc1v6 (PublicQUICDelay + PublicOtherDelay);
      mkAddrDelay onlyIP (PublicQUICDelay + PublicOtherDelay);
      mkAddrDelay onion1 (PublicQUICDelay + 2 * PublicOtherDelay) ].
Proof. reflexivity. Qed.

Example test_quic_and_tcp :
  DefaultDialRanker [q1v1; t1; q2v1]
  = [ mkAddrDelay q1v1 0;
      mkAddrDelay q2v1 PublicQUICDelay;
      mkAddrDelay t1 (PublicQUICDelay + PublicTCPDelay) ].
Proof. reflexivity. Qed.

(** [maxDelay] is the delay of the last ranked entry; with a private and a
    public group it need not be the largest delay of the ranked entries. *)
Example last_ranked_entry :
  let p1 := [ip4 "192.168.0.1"; udp "1"; quic_v1] in
  let p2 := [ip4 "192.168.0.1"; udp "2"; quic_v1] in
  DefaultDialRanker [p1; p2; q1v1; onion1]
  = [ mkAddrDelay p1 0;
      mkAddrDelay p2 PrivateQUICDelay;
      mkAddrDelay q1v1 0;
      mkAddrDelay onion1 PublicOtherDelay ].
Proof. reflexivity. Qed.

End RankerFacts.


(** ** Streams: release of the resource scope *)
Module StreamsFacts.
Import Streams.

Lemma run_snoc c tr e : run c (tr ++ [e]) = run c tr ≫= fun c' => step c' e.
Proof.
  revert c. induction tr as [|e' tr IH]; intros c; simpl.
  - by destruct (step c e).
  - destruct (step c e'); simpl; [apply IH|done].
Qed.

(** What one call does to the stream it is made on ([released] says that
    the call reached [removeStream]) and to the other streams. *)
Definition afterClose (s : Stream) (call : MuxCall) : Stream :=
  mkStream (dir s) true (acceptStreamGoroutineCompleted s) (muxCalls s ++ [call])
    (if negb (isClosed s) && acceptStreamGoroutineCompleted s
     then S (scopeDone s) else scopeDone s).

Definition afterComplete (s : Stream) : Stream :=
  mkStream (dir s) (isClosed s) true (muxCalls s)
    (if negb (acceptStreamGoroutineCompleted s) && isClosed s
     then S (scopeDone s) else scopeDone s).

Definition dropFrom (b : bool) (id : nat) (m : option (gset nat)) : option (gset nat) :=
  if b then (fun m => m ∖ {[id]}) <$> m else m.

Lemma close_spec c id s call :
  objects c !! id = Some s ->
  let c' := closeAndRemoveStream (muxCall c id call) id in
  objects c' = <[id := afterClose s call]> (objects c)
  /\ streams_m c' = dropFrom (negb (isClosed s) && acceptStreamGoroutineCompleted s) id
                      (streams_m c)
  /\ nextStreamID c' = nextStreamID c.
Proof.
  intros Hs. unfold closeAndRemoveStream, muxCall, afterClose, dropFrom. rewrite Hs. simpl.
  rewrite lookup_insert_eq. simpl.
  destruct (isClosed s) eqn:Ec; simpl; [done|].
  destruct (acceptStreamGoroutineCompleted s) eqn:Ea; simpl.
  - unfold removeStream. simpl. rewrite lookup_insert_eq. simpl.
    by rewrite !insert_insert_eq.
  - by rewrite !insert_insert_eq.
Qed.

Lemma complete_spec c id s :
  objects c !! id = Some s ->
  let c' := completeAcceptStreamGoroutine c id in
  objects c' = <[id := afterComplete s]> (objects c)
  /\ streams_m c' = dropFrom (negb (acceptStreamGoroutineCompleted s) && isClosed s) id
                      (streams_m c)
  /\ nextStreamID c' = nextStreamID c.
Proof.
  intros Hs. unfold completeAcceptStreamGoroutine, afterComplete, dropFrom. rewrite Hs.
  destruct (acceptStreamGoroutineCompleted s) eqn:Ea; simpl.
  - repeat split. rewrite insert_id; [done|]. rewrite Hs. f_equal.
    destruct s; simpl in *. by subst.
  - destruct (isClosed s) eqn:Ec; simpl.
    + unfold removeStream. simpl. rewrite lookup_insert_eq. simpl.
      by rewrite !insert_insert_eq.
    + done.
Qed.

(** The invariant of a connection's streams after the trace [tr]. *)
Record streamInv (tr : list Event) (c : Conn) (id : nat) (s : Stream) : Prop := {
  inv_done : scopeDone s
             = if isClosed s && acceptStreamGoroutineCompleted s then 1%nat else 0%nat;
  inv_closed : isClosed s = true <-> exists e, e ∈ tr /\ closes id e = true;
  inv_accept : acceptStreamGoroutineCompleted s = true
               <-> dir s <> DirInbound \/ exists e, e ∈ tr /\ completes id e = true;
  inv_live : forall m, streams_m c = Some m -> (id ∈ m <-> scopeDone s = 0%nat);
  inv_fresh : (id <= nextStreamID c)%nat
}.

Definition mentions (i : nat) (e : Event) : bool := closes i e || completes i e.

Record connInv (tr : list Event) (c : Conn) : Prop := {
  ci_streams : forall id s, objects c !! id = Some s -> streamInv tr c id s;
  ci_events : forall e i, e ∈ tr -> mentions i e = true -> is_Some (objects c !! i)
}.

Lemma elem_of_snoc {A} (l : list A) (x y : A) : y ∈ l ++ [x] <-> y ∈ l \/ y = x.
Proof. by rewrite elem_of_app, list_elem_of_singleton. Qed.

Lemma connInv_init n r : connInv [] (newConn n r).
Proof.
  split.
  - intros id s Hs. simpl in Hs. by rewrite lookup_empty in Hs.
  - intros e i Hin. by apply elem_of_nil in Hin.
Qed.

(** A call on stream [id0] that changes only that stream and may take it
    out of the map of live streams. *)
Lemma connInv_update tr c c' id0 s0 s0' b e :
  connInv tr c ->
  objects c !! id0 = Some s0 ->
  objects c' = <[id0 := s0']> (objects c) ->
  streams_m c' = dropFrom b id0 (streams_m c) ->
  nextStreamID c' = nextStreamID c ->
  (forall i, mentions i e = true -> i = id0) ->
  streamInv (tr ++ [e]) c' id0 s0' ->
  connInv (tr ++ [e]) c'.
Proof.
  intros [Hst Hev] Hs0 Eo Em En Honly H0. split.
  - intros id s. rewrite Eo. destruct (decide (id = id0)) as [->|Hne].
    { rewrite lookup_insert_eq. by intros [= <-]. }
    rewrite lookup_insert_ne by done. intros Hs.
    destruct (Hst id s Hs) as [D C A L F].
    assert (Hno : forall e', e' ∈ tr ++ [e] -> mentions id e' = true -> e' ∈ tr).
    { intros e' [Hin| ->]%elem_of_snoc Hm; [done|]. apply Honly in Hm. congruence. }
    split; try done.
    + rewrite C. split; intros (e' & Hin & Hc).
      * exists e'. split; [|done]. apply elem_of_snoc. by left.
      * exists e'. split; [|done]. apply Hno; [done|]. unfold mentions. by rewrite Hc.
    + rewrite A. split; (intros [?|(e' & Hin & Hc)]; [by left|right]).
      * exists e'. split; [|done]. apply elem_of_snoc. by left.
      * exists e'. split; [|done]. apply Hno; [done|]. unfold mentions.
        rewrite Hc. by rewrite orb_true_r.
    + intros m. rewrite Em. unfold dropFrom. destruct b; [|apply L].
      destruct (streams_m c) as [m0|]; simpl; [|done]. intros [= <-].
      rewrite <- (L m0 eq_refl). set_solver.
    + by rewrite En.
  - intros e' i [Hin| ->]%elem_of_snoc Hm; rewrite Eo.
    + destruct (decide (i = id0)) as [->|Hne]; [by rewrite lookup_insert_eq|].
      rewrite lookup_insert_ne by done. by apply (Hev e').
    + apply Honly in Hm as ->. by rewrite lookup_insert_eq.
Qed.

Lemma connInv_close tr c id0 call e :
  connInv tr c ->
  is_Some (objects c !! id0) ->
  closes id0 e = true ->
  (forall i, mentions i e = true -> i = id0) ->
  (forall i, completes i e = false) ->
  connInv (tr ++ [e]) (closeAndRemoveStream (muxCall c id0 call) id0).
Proof.
  intros Inv [s0 Hs0] Hce Honly Hnc.
  destruct (close_spec c id0 s0 call Hs0) as (Eo & Em & En).
  apply (connInv_update tr c _ id0 s0 _ _ e Inv Hs0 Eo Em En Honly).
  destruct (ci_streams _ _ Inv id0 s0 Hs0) as [D0 C0 A0 L0 F0]. split.
  - unfold afterClose. simpl. rewrite D0.
    by destruct (isClosed s0), (acceptStreamGoroutineCompleted s0).
  - simpl. split; [|done]. intros _. exists e. split; [|done].
    apply elem_of_snoc. by right.
  - simpl. rewrite A0. split; (intros [?|(e' & Hin & Hc)]; [by left|right]).
    + exists e'. split; [|done]. apply elem_of_snoc. by left.
    + apply elem_of_snoc in Hin as [Hin| ->]; [by exists e'|]. by rewrite Hnc in Hc.
  - intros m. rewrite Em. unfold afterClose, dropFrom. simpl.
    destruct (isClosed s0) eqn:Ec, (acceptStreamGoroutineCompleted s0) eqn:Ea; simpl;
      try apply L0.
    destruct (streams_m c) as [m0|]; simpl; [|done]. intros [= <-].
    split; [set_solver|done].
  - by rewrite En.
Qed.

Lemma connInv_complete tr c id0 :
  connInv tr c ->
  is_Some (objects c !! id0) ->
  connInv (tr ++ [EvCompleteAccept id0]) (completeAcceptStreamGoroutine c id0).
Proof.
  intros Inv [s0 Hs0].
  destruct (complete_spec c id0 s0 Hs0) as (Eo & Em & En).
  assert (Honly : forall i, mentions i (EvCompleteAccept id0) = true -> i = id0).
  { intros i. unfold mentions. simpl. by intros ?%bool_decide_eq_true. }
  apply (connInv_update tr c _ id0 s0 _ _ _ Inv Hs0 Eo Em En Honly).
  destruct (ci_streams _ _ Inv id0 s0 Hs0) as [D0 C0 A0 L0 F0]. split.
  - unfold afterComplete. simpl. rewrite D0.
    by destruct (isClosed s0), (acceptStreamGoroutineCompleted s0).
  - simpl. rewrite C0. split; intros (e' & Hin & Hc).
    + exists e'. split; [|done]. apply elem_of_snoc. by left.
    + apply elem_of_snoc in Hin as [Hin| ->]; [by exists e'|]. done.
  - simpl. split; [|done]. intros _. right. exists (EvCompleteAccept id0).
    split; [apply elem_of_snoc; by right|]. simpl. by apply bool_decide_eq_true.
  - intros m. rewrite Em. unfold afterComplete, dropFrom. simpl.
    destruct (isClosed s0) eqn:Ec, (acceptStreamGoroutineCompleted s0) eqn:Ea; simpl;
      try apply L0.
    destruct (streams_m c) as [m0|]; simpl; [|done]. intros [= <-].
    split; [set_solver|done].
  - by rewrite En.
Qed.

(** Steps that touch no existing stream object. *)
Lemma connInv_frame tr c c' e :
  connInv tr c ->
  (forall i, mentions i e = false) ->
  (forall id s, objects c !! id = Some s -> objects c' !! id = Some s) ->
  (forall id s, objects c' !! id = Some s ->
     objects c !! id = Some s
     \/ (objects c !! id = None /\ streamInv (tr ++ [e]) c' id s)) ->
  (forall m', streams_m c' = Some m' ->
     exists m, streams_m c = Some m /\ forall id, is_Some (objects c !! id) -> (id ∈ m' <-> id ∈ m)) ->
  (nextStreamID c <= nextStreamID c')%nat ->
  connInv (tr ++ [e]) c'.
Proof.
  intros [Hst Hev] Hno Hkeep Hnew Hm Hn. split.
  - intros id s Hs. destruct (Hnew id s Hs) as [Hold|[_ Hi]]; [|done].
    destruct (Hst id s Hold) as [D C A L F]. split; try done.
    + rewrite C. split; intros (e' & Hin & Hc).
      * exists e'. split; [|done]. apply elem_of_snoc. by left.
      * apply elem_of_snoc in Hin as [Hin| ->]; [by exists e'|].
        specialize (Hno id). unfold mentions in Hno. by rewrite Hc in Hno.
    + rewrite A. split; (intros [?|(e' & Hin & Hc)]; [by left|right]).
      * exists e'. split; [|done]. apply elem_of_snoc. by left.
      * apply elem_of_snoc in Hin as [Hin| ->]; [by exists e'|].
        specialize (Hno id). unfold mentions in Hno. rewrite Hc in Hno.
        by rewrite orb_true_r in Hno.
    + intros m' Em'. destruct (Hm m' Em') as (m & Em & Hiff).
      rewrite (Hiff id) by eauto. by apply L.
    + lia.
  - intros e' i [Hin| ->]%elem_of_snoc Hmn; [|by rewrite Hno in Hmn].
    destruct (Hev e' i Hin Hmn) as [s Hs]. exists s. by apply Hkeep.
Qed.

Lemma connInv_step tr c e c' :
  connInv tr c -> step c e = Some c' -> connInv (tr ++ [e]) c'.
Proof.
  intros Inv Hstep. destruct e as [d|i|i|i code|i|]; simpl in Hstep.
  - (* addStream *)
    injection Hstep as <-. unfold addStream.
    destruct (streams_m c) as [m|] eqn:Em; simpl.
    + assert (Hfresh : objects c !! S (nextStreamID c) = None).
      { destruct (objects c !! S (nextStreamID c)) as [s|] eqn:E; [|done].
        destruct (ci_streams _ _ Inv _ _ E) as [_ _ _ _ F]. lia. }
      apply (connInv_frame tr c _ _ Inv); simpl; try done.
      * intros id s Hs. rewrite lookup_insert_ne; [done|]. intros <-. congruence.
      * intros id s. destruct (decide (id = S (nextStreamID c))) as [->|Hne].
        -- rewrite lookup_insert_eq. intros [= <-]. right. split; [done|].
           split; simpl; try done.
           ++ split; [done|]. intros (e & [Hin| ->]%elem_of_snoc & Hc); [|done].
              destruct (ci_events _ _ Inv e (S (nextStreamID c)) Hin) as [s Hs].
              { unfold mentions. by rewrite Hc. }
              congruence.
           ++ split.
              ** intros Hd%negb_true_iff%bool_decide_eq_false. left. done.
              ** intros [Hd|(e & [Hin| ->]%elem_of_snoc & Hc)]; [| |done].
                 { by apply negb_true_iff, bool_decide_eq_false. }
                 destruct (ci_events _ _ Inv e (S (nextStreamID c)) Hin) as [s Hs].
                 { unfold mentions. rewrite Hc. by rewrite orb_true_r. }
                 congruence.
           ++ intros m' [= <-]. split; [done|]. intros _. set_solver.
        -- rewrite lookup_insert_ne by done. by left.
      * intros m' [= <-]. exists m. split; [done|]. intros id [s Hs].
        assert (id <> S (nextStreamID c)) by (intros ->; congruence). set_solver.
      * lia.
    + apply (connInv_frame tr c _ _ Inv); simpl; try done.
      * intros id s Hs. by left.
      * by rewrite Em.
  - destruct (objects c !! i) as [s|] eqn:Hs; [|done]. injection Hstep as <-.
    apply connInv_close; [done|by eexists|simpl; by apply bool_decide_eq_true| |done].
    intros j. unfold mentions. simpl. rewrite orb_false_r. by intros ?%bool_decide_eq_true.
  - destruct (objects c !! i) as [s|] eqn:Hs; [|done]. injection Hstep as <-.
    apply connInv_close; [done|by eexists|simpl; by apply bool_decide_eq_true| |done].
    intros j. unfold mentions. simpl. rewrite orb_false_r. by intros ?%bool_decide_eq_true.
  - destruct (objects c !! i) as [s|] eqn:Hs; [|done]. injection Hstep as <-.
    apply connInv_close; [done|by eexists|simpl; by apply bool_decide_eq_true| |done].
    intros j. unfold mentions. simpl. rewrite orb_false_r. by intros ?%bool_decide_eq_true.
  - destruct (objects c !! i) as [s|] eqn:Hs; [|done]. injection Hstep as <-.
    apply connInv_complete; [done|by eexists].
  - injection Hstep as <-. apply (connInv_frame tr c _ _ Inv); simpl; try done.
    intros id s Hs. by left.
Qed.

Lemma connInv_run n r tr c : run (newConn n r) tr = Some c -> connInv tr c.
Proof.
  revert c. induction tr as [|e tr IH] using rev_ind; intros c.
  - intros [= <-]. apply connInv_init.
  - rewrite run_snoc. destruct (run (newConn n r) tr) as [c0|]; [|done]. simpl.
    intros Hstep. eapply connInv_step; [by apply IH|done].
Qed.

(** C1.  After any sequence of calls on a connection's streams, for every
    stream: [scope.Done] has been called once if the stream is closed and
    its accept processing is complete, and not at all otherwise; it is
    closed exactly when [Close], [Reset] or [ResetWithError] has run on it;
    its accept processing is complete exactly when it is not inbound or
    [completeAcceptStreamGoroutine] has run on it; and as long as the
    connection keeps its map of live streams, the stream is in the map
    exactly when its scope is not released.  The statement holds after
    every prefix of the sequence, so the release never comes before both
    conditions, never twice, and is not missing once both hold. *)
Theorem stream_scope_released_exactly_once
    (nextID : nat) (refs0 : Z) (tr : list Event) (c : Conn) (id : nat) (s : Stream) :
  run (newConn nextID refs0) tr = Some c ->
  objects c !! id = Some s ->
  scopeDone s = (if isClosed s && acceptStreamGoroutineCompleted s then 1%nat else 0%nat)
  /\ (isClosed s = true <-> exists e, e ∈ tr /\ closes id e = true)
  /\ (acceptStreamGoroutineCompleted s = true
      <-> dir s <> DirInbound \/ exists e, e ∈ tr /\ completes id e = true)
  /\ (forall m, streams_m c = Some m -> (id ∈ m <-> scopeDone s = 0%nat)).
Proof.
  intros Hrun Hs. destruct (ci_streams _ _ (connInv_run _ _ _ _ Hrun) id s Hs). done.
Qed.

(** An inbound stream that is closed before its handler returns: the
    scope is released by [completeAcceptStreamGoroutine], once. *)
Lemma stream_scope_witness :
  exists c s,
    run (newConn 0 0) [EvAddStream DirInbound; EvReset 1; EvClose 1; EvCompleteAccept 1;
                       EvCompleteAccept 1] = Some c
    /\ objects c !! 1%nat = Some s
    /\ scopeDone s = 1%nat
    /\ streams_m c = Some ∅.
Proof.
  eexists _, _.
  split; [reflexivity|]. split; [reflexivity|].
  split.
  - apply (stream_scope_released_exactly_once 0 0
             [EvAddStream DirInbound; EvReset 1; EvClose 1; EvCompleteAccept 1;
              EvCompleteAccept 1] _ 1%nat _ eq_refl eq_refl).
  - reflexivity.
Defined.

End StreamsFacts.


(** ** The dial synchronizer *)
Module DialSyncFacts.
Import DialSync.
Local Open Scope Z_scope.

(** *** Counting *)

Lemma countb_app {A} (p : A -> bool) l1 l2 :
  countb p (l1 ++ l2) = (countb p l1 + countb p l2)%nat.
Proof. induction l1 as [|x l1 IH]; simpl; [done|]. rewrite IH. lia. Qed.

Lemma countb_insert {A} (p : A -> bool) l i x y :
  l !! i = Some x ->
  (countb p (<[i := y]> l) + (if p x then 1 else 0)
   = countb p l + (if p y then 1 else 0))%nat.
Proof.
  revert i. induction l as [|z l IH]; intros [|i]; simpl; try done.
  - intros [= ->]. lia.
  - intros Hi. specialize (IH i Hi). lia.
Qed.

Lemma countb_insert_same {A} (p : A -> bool) l i x y :
  l !! i = Some x -> p x = p y -> countb p (<[i := y]> l) = countb p l.
Proof.
  intros Hi E. pose proof (countb_insert p l i x y Hi) as H. rewrite E in H. lia.
Qed.

Lemma countb_pos {A} (p : A -> bool) l i x :
  l !! i = Some x -> p x = true -> (0 < countb p l)%nat.
Proof.
  revert i. induction l as [|z l IH]; intros [|i]; simpl; try done.
  - intros [= ->] ->. lia.
  - intros Hi Hp. specialize (IH i Hi Hp). lia.
Qed.

(** *** Contexts *)

Lemma Err_not_canceled c log :
  (forall n, n ∈ nodes c -> n ∉ cnode <$> log) -> Err c log = None.
Proof.
  intros Hn. unfold Err, firstCancel.
  destruct (filter _ log) as [|ev evs] eqn:E; [done|]. exfalso.
  assert (Hin : ev ∈ filter (fun ev => cnode ev ∈ nodes c) log) by (rewrite E; left).
  apply list_elem_of_filter in Hin as [Hin Hl].
  apply (Hn _ Hin). apply list_elem_of_fmap. by exists ev.
Qed.


Lemma nodes_requestCtx adctx ctx : nodes (requestCtx adctx ctx) = nodes adctx.
Proof.
  unfold requestCtx, GetForceDirectDial, GetSimultaneousConnect,
    WithForceDirectDial, WithSimultaneousConnect.
  destruct (Value ctx forceDirectDial), (Value ctx simConnectIsClient),
    (Value ctx simConnectIsServer); reflexivity.
Qed.

Lemma external_no_dial c ad : external c = true -> DialNode ad ∉ nodes c.
Proof.
  unfold external. rewrite forallb_forall. intros Hf Hin.
  apply list_elem_of_In in Hin. by apply Hf in Hin.
Qed.

(** *** The invariant *)

Record Inv (st : State) : Prop := {
  I_reg : forall p ad, dials (ds st) !! p = Some ad ->
    exists r, records (ds st) !! ad = Some r
      /\ refCnt r = Z.of_nat (holders ad (callers st))
      /\ (0 < holders ad (callers st))%nat
      /\ reqchClosed r = false
      /\ actx r = WithCancelCause (DialNode ad) Background
      /\ DialNode ad ∉ cnode <$> cancels st;
  I_callers : forall c cl ad, callers st !! c = Some cl -> isActive ad (pc cl) = true ->
    dials (ds st) !! target cl = Some ad;
  I_inj : forall p1 p2 ad,
    dials (ds st) !! p1 = Some ad -> dials (ds st) !! p2 = Some ad -> p1 = p2;
  I_next : forall p ad, dials (ds st) !! p = Some ad -> (ad < nextRecord (ds st))%nat;
  I_panic : panicked st = false;
  I_ext : forall c cl, callers st !! c = Some cl -> external (cctx cl) = true;
  I_recv : forall ad ctx c, (ad, ctx, c) ∈ received st -> nodes ctx = [DialNode ad];
  I_pc_recv : forall c cl ad, callers st !! c = Some cl -> pc cl = AtRecv ad ->
    c ∈ (received st).*2;
  I_resch : forall c cl, callers st !! c = Some cl -> answered cl = false -> resch cl = None;
  I_log : forall ev ad, ev ∈ cancels st -> cnode ev = DialNode ad ->
    (ad < nextRecord (ds st))%nat
}.

Lemma Inv_initial : Inv initial.
Proof.
  split; simpl; try done.
  - intros ad ctx c Hin. by apply elem_of_nil in Hin.
  - intros ev ad Hin. by apply elem_of_nil in Hin.
Qed.

(** A step that changes only caller [c], keeping what it holds. *)
Lemma Inv_setCaller st c cl cl' rcv :
  Inv st ->
  callers st !! c = Some cl ->
  target cl' = target cl ->
  cctx cl' = cctx cl ->
  (forall ad, isActive ad (pc cl') = isActive ad (pc cl)) ->
  (forall ad, pc cl' = AtRecv ad -> c ∈ rcv.*2) ->
  (answered cl' = false -> resch cl' = None) ->
  (forall x, x ∈ rcv -> x ∈ received st \/
     exists ad r, x = (ad, requestCtx (actx r) (cctx cl), c)
                  /\ records (ds st) !! ad = Some r /\ isActive ad (pc cl) = true) ->
  (forall x, x ∈ received st -> x ∈ rcv) ->
  Inv (mkState (ds st) (cancels st) (<[c := cl']> (callers st)) rcv false).
Proof.
  intros [Hreg Hcal Hinj Hnext Hpan Hext Hrecv Hpc Hres Hlog] Hc Et Ec Ea Hr1 Hr2 Hnew Hold.
  split; simpl; try done.
  - intros p ad Hd. destruct (Hreg p ad Hd) as (r & ? & ? & ? & ? & ? & ?).
    exists r. unfold holders in *.
    rewrite (countb_insert_same _ _ c cl cl' Hc) by (by rewrite Ea). done.
  - intros c' cl0 ad. destruct (decide (c' = c)) as [->|Hne].
    + rewrite list_lookup_insert_eq by (by eapply lookup_lt_Some).
      intros [= <-]. rewrite Ea, Et. by apply (Hcal c).
    + rewrite list_lookup_insert_ne by done. apply Hcal.
  - intros c' cl0. destruct (decide (c' = c)) as [->|Hne].
    + rewrite list_lookup_insert_eq by (by eapply lookup_lt_Some).
      intros [= <-]. rewrite Ec. by apply (Hext c).
    + rewrite list_lookup_insert_ne by done. apply Hext.
  - intros ad ctx c' Hin. destruct (Hnew _ Hin) as [Hin'|(ad' & r & E & Hr & Hact)].
    + by apply (Hrecv ad ctx c').
    + injection E as -> -> ->. rewrite nodes_requestCtx.
      pose proof (Hcal c cl ad' Hc Hact) as Hd.
      destruct (Hreg _ _ Hd) as (r' & Hr' & _ & _ & _ & Hctx & _).
      rewrite Hr in Hr'. injection Hr' as <-. by rewrite Hctx.
  - intros c' cl0 ad. destruct (decide (c' = c)) as [->|Hne].
    + rewrite list_lookup_insert_eq by (by eapply lookup_lt_Some).
      intros [= <-]. apply Hr1.
    + rewrite list_lookup_insert_ne by done. intros H1 H2.
      pose proof (Hpc c' cl0 ad H1 H2) as Hin.
      apply list_elem_of_fmap in Hin as (x & -> & Hin).
      apply list_elem_of_fmap. exists x. split; [done|]. by apply Hold.
  - intros c' cl0. destruct (decide (c' = c)) as [->|Hne].
    + rewrite list_lookup_insert_eq by (by eapply lookup_lt_Some).
      intros [= <-]. apply Hr2.
    + rewrite list_lookup_insert_ne by done. apply Hres.
Qed.

Lemma countb_zero {A} (p : A -> bool) l i x :
  countb p l = 0%nat -> l !! i = Some x -> p x = false.
Proof.
  intros Hz Hi. destruct (p x) eqn:E; [|done].
  pose proof (countb_pos p l i x Hi E). lia.
Qed.

Lemma holders_fresh st ad :
  Inv st -> (nextRecord (ds st) <= ad)%nat -> holders ad (callers st) = 0%nat.
Proof.
  intros I Hge. unfold holders.
  destruct (countb _ (callers st)) as [|n] eqn:E; [done|]. exfalso.
  assert (Hex : exists i x, callers st !! i = Some x /\ isActive ad (pc x) = true).
  { clear -E. induction (callers st) as [|z l IH]; simpl in E; [done|].
    destruct (isActive ad (pc z)) eqn:Ez.
    - by exists 0%nat, z.
    - destruct (IH E) as (i & x & ? & ?). by exists (S i), x. }
  destruct Hex as (i & x & Hi & Hx).
  pose proof (I_next _ I _ _ (I_callers _ I _ _ _ Hi Hx)). lia.
Qed.

Lemma Inv_step st l st' : Inv st -> step st l = Some st' -> Inv st'.
Proof.
  intros I Hstep. pose proof I as [Hreg Hcal Hinj Hnext Hpan Hext Hrecv Hpc Hres Hlog].
  destruct l as [p ctx|c|c|c|c conn err|c|c|c|n e]; simpl in Hstep.
  - (* LCall *)
    destruct (external ctx) eqn:Ex; [|done]. injection Hstep as <-.
    split; simpl; try done.
    + intros p' ad Hd. destruct (Hreg p' ad Hd) as (r & ? & ? & ? & ? & ? & ?).
      exists r. unfold holders in *. rewrite countb_app. simpl.
      rewrite !Nat.add_0_r. done.
    + intros c cl ad [Hc|[_ Hc]]%lookup_app_Some; [by apply (Hcal c)|].
      destruct (c - length (callers st))%nat; [|done]. by injection Hc as <-.
    + intros c cl [Hc|[_ Hc]]%lookup_app_Some; [by apply (Hext c)|].
      destruct (c - length (callers st))%nat; [|done]. by injection Hc as <-.
    + intros c cl ad [Hc|[_ Hc]]%lookup_app_Some; [by apply (Hpc c)|].
      destruct (c - length (callers st))%nat; [|done]. by injection Hc as <-.
    + intros c cl [Hc|[_ Hc]]%lookup_app_Some; [by apply (Hres c)|].
      destruct (c - length (callers st))%nat; [|done]. by injection Hc as <-.
  - (* LGetActiveDial *)
    destruct (callers st !! c) as [cl|] eqn:Hc; [|done]. simpl in Hstep.
    destruct (pc cl) eqn:Epc; try done.
    unfold getActiveDial in Hstep.
    destruct (dials (ds st) !! target cl) as [ad|] eqn:Hd.
    + (* the record exists *)
      injection Hstep as <-.
      destruct (Hreg _ _ Hd) as (r & Hr & Hcnt & Hpos & Hopen & Hctx & Hnc).
      assert (Hh : forall ad', holders ad' (<[c := setPC cl (AtSend ad)]> (callers st))
                   = (holders ad' (callers st) + if bool_decide (ad = ad') then 1 else 0)%nat).
      { intros ad'. unfold holders.
        pose proof (countb_insert (fun cl => isActive ad' (pc cl)) _ c cl
                      (setPC cl (AtSend ad)) Hc) as E.
        cbv beta in E. rewrite Epc in E. simpl in E. lia. }
      split; simpl; try done.
      * intros p' ad' Hd'. rewrite Hh.
        destruct (decide (ad = ad')) as [<-|Hne].
        -- rewrite lookup_alter_eq, Hr. simpl. eexists. split; [done|]. simpl.
           rewrite bool_decide_eq_true_2 by done. repeat split; try done; lia.
        -- rewrite lookup_alter_ne by done.
           destruct (Hreg _ _ Hd') as (r' & ? & ? & ? & ? & ? & ?). exists r'.
           rewrite bool_decide_eq_false_2 by done. rewrite Nat.add_0_r. done.
      * intros c' cl' ad'. destruct (decide (c' = c)) as [->|Hne].
        -- rewrite list_lookup_insert_eq by (by eapply lookup_lt_Some).
           intros [= <-]. simpl. intros <-%bool_decide_eq_true. done.
        -- rewrite list_lookup_insert_ne by done. apply Hcal.
      * intros c' cl'. destruct (decide (c' = c)) as [->|Hne].
        -- rewrite list_lookup_insert_eq by (by eapply lookup_lt_Some).
           intros [= <-]. simpl. by apply (Hext c).
        -- rewrite list_lookup_insert_ne by done. apply Hext.
      * intros c' cl' ad'. destruct (decide (c' = c)) as [->|Hne].
        -- rewrite list_lookup_insert_eq by (by eapply lookup_lt_Some).
           by intros [= <-].
        -- rewrite list_lookup_insert_ne by done. apply Hpc.
      * intros c' cl'. destruct (decide (c' = c)) as [->|Hne].
        -- rewrite list_lookup_insert_eq by (by eapply lookup_lt_Some).
           intros [= <-]. simpl. by apply (Hres c).
        -- rewrite list_lookup_insert_ne by done. apply Hres.
    + (* a new record *)
      injection Hstep as <-. simpl.
      set (ad := nextRecord (ds st)).
      assert (Hh : forall ad', holders ad' (<[c := setPC cl (AtSend ad)]> (callers st))
                   = (holders ad' (callers st) + if bool_decide (ad = ad') then 1 else 0)%nat).
      { intros ad'. unfold holders.
        pose proof (countb_insert (fun cl => isActive ad' (pc cl)) _ c cl
                      (setPC cl (AtSend ad)) Hc) as E.
        cbv beta in E. rewrite Epc in E. simpl in E. lia. }
      split; simpl; try done.
      * intros p' ad' Hd'. rewrite Hh.
        destruct (decide (p' = target cl)) as [->|Hne].
        -- rewrite lookup_insert_eq in Hd'. injection Hd' as <-.
           rewrite lookup_alter_eq, lookup_insert_eq. simpl. eexists. split; [done|].
           simpl. rewrite bool_decide_eq_true_2 by done.
           rewrite (holders_fresh st ad I) by (unfold ad; lia).
           repeat split; try done; try lia.
           intros (ev & Hev & Hin)%list_elem_of_fmap.
           symmetry in Hev. pose proof (Hlog ev ad Hin Hev). unfold ad in *. lia.
        -- rewrite lookup_insert_ne in Hd' by done.
           pose proof (Hnext _ _ Hd') as Hlt.
           assert (ad <> ad') by (unfold ad; lia).
           rewrite lookup_alter_ne, lookup_insert_ne by done.
           destruct (Hreg _ _ Hd') as (r' & ? & ? & ? & ? & ? & ?). exists r'.
           rewrite bool_decide_eq_false_2 by done. rewrite Nat.add_0_r. done.
      * intros c' cl' ad'. destruct (decide (c' = c)) as [->|Hne].
        -- rewrite list_lookup_insert_eq by (by eapply lookup_lt_Some).
           intros [= <-]. simpl. intros <-%bool_decide_eq_true.
           by rewrite lookup_insert_eq.
        -- rewrite list_lookup_insert_ne by done. intros H1 H2.
           pose proof (Hcal _ _ _ H1 H2) as Hd'.
           rewrite lookup_insert_ne; [done|]. intros E. rewrite <- E in Hd'. congruence.
      * intros p1 p2 ad'.
        destruct (decide (p1 = target cl)) as [->|N1], (decide (p2 = target cl)) as [->|N2];
          rewrite ?lookup_insert_eq, ?lookup_insert_ne by done; try done.
        -- intros [= <-] H2. pose proof (Hnext _ _ H2). unfold ad in *. lia.
        -- intros H1 [= <-]. pose proof (Hnext _ _ H1). unfold ad in *. lia.
        -- apply Hinj.
      * intros p' ad'. destruct (decide (p' = target cl)) as [->|N1];
          rewrite ?lookup_insert_eq, ?lookup_insert_ne by done.
        -- intros [= <-]. unfold ad. lia.
        -- intros H1. pose proof (Hnext _ _ H1). lia.
      * intros c' cl'. destruct (decide (c' = c)) as [->|Hne].
        -- rewrite list_lookup_insert_eq by (by eapply lookup_lt_Some).
           intros [= <-]. simpl. by apply (Hext c).
        -- rewrite list_lookup_insert_ne by done. apply Hext.
      * intros c' cl' ad'. destruct (decide (c' = c)) as [->|Hne].
        -- rewrite list_lookup_insert_eq by (by eapply lookup_lt_Some).
           by intros [= <-].
        -- rewrite list_lookup_insert_ne by done. apply Hpc.
      * intros c' cl'. destruct (decide (c' = c)) as [->|Hne].
        -- rewrite list_lookup_insert_eq by (by eapply lookup_lt_Some).
           intros [= <-]. simpl. by apply (Hres c).
        -- rewrite list_lookup_insert_ne by done. apply Hres.
      * intros ev ad' Hin Hev. pose proof (Hlog ev ad' Hin Hev). lia.
  - (* LSend *)
    destruct (callers st !! c) as [cl|] eqn:Hc; [|done]. simpl in Hstep.
    destruct (pc cl) eqn:Epc; try done.
    destruct (records (ds st) !! ad) as [r|] eqn:Hr; [|done]. injection Hstep as <-.
    assert (Hact : isActive ad (pc cl) = true)
      by (rewrite Epc; simpl; by apply bool_decide_eq_true).
    destruct (Hreg _ _ (Hcal _ _ _ Hc Hact)) as (r' & Hr' & _ & _ & Hopen & _).
    rewrite Hr in Hr'. injection Hr' as <-. rewrite Hpan, Hopen. simpl.
    apply (Inv_setCaller st c cl); try done.
    + intros ad'. by rewrite Epc.
    + intros ad' _. rewrite fmap_app. apply elem_of_app. right. simpl. left.
    + simpl. by apply (Hres c).
    + intros x [Hin| ->%list_elem_of_singleton]%elem_of_app; [by left|].
      right. by exists ad, r.
    + intros x Hin. apply elem_of_app. by left.
  - (* LSendCanceled *)
    destruct (callers st !! c) as [cl|] eqn:Hc; [|done]. simpl in Hstep.
    destruct (pc cl) eqn:Epc; try done.
    destruct (Err (cctx cl) (cancels st)) as [e|]; [|done]. injection Hstep as <-.
    unfold setCaller. rewrite Hpan.
    apply (Inv_setCaller st c cl); try done.
    + intros ad'. by rewrite Epc.
    + simpl. by apply (Hres c).
    + intros x Hin. by left.
  - (* LRespond *)
    destruct (callers st !! c) as [cl|] eqn:Hc; [|done]. simpl in Hstep.
    destruct (_ && _) eqn:E; [|done]. injection Hstep as <-.
    apply andb_true_iff in E as [Hin%bool_decide_eq_true _].
    unfold setCaller. rewrite Hpan.
    apply (Inv_setCaller st c cl); try done.
    intros x Hx. by left.
  - (* LRecv *)
    destruct (callers st !! c) as [cl|] eqn:Hc; [|done]. simpl in Hstep.
    destruct (pc cl) eqn:Epc; try done.
    destruct (resch cl) as [[conn err]|] eqn:Er; [|done]. injection Hstep as <-.
    unfold setCaller. rewrite Hpan.
    apply (Inv_setCaller st c cl); try done.
    + intros ad'. by rewrite Epc.
    + intros x Hx. by left.
  - (* LRecvCanceled *)
    destruct (callers st !! c) as [cl|] eqn:Hc; [|done]. simpl in Hstep.
    destruct (pc cl) eqn:Epc; try done.
    destruct (Err (cctx cl) (cancels st)) as [e|]; [|done]. injection Hstep as <-.
    unfold setCaller. rewrite Hpan.
    apply (Inv_setCaller st c cl); try done.
    + intros ad'. by rewrite Epc.
    + simpl. by apply (Hres c).
    + intros x Hin. by left.
  - (* LRelease *)
    destruct (callers st !! c) as [cl|] eqn:Hc; [|done]. simpl in Hstep.
    destruct (pc cl) eqn:Epc; try done.
    assert (Hact : isActive ad (pc cl) = true)
      by (rewrite Epc; simpl; by apply bool_decide_eq_true).
    pose proof (Hcal _ _ _ Hc Hact) as Hd.
    destruct (Hreg _ _ Hd) as (r & Hr & Hcnt & Hpos & Hopen & Hctx & Hnc).
    assert (Hh : forall ad', (holders ad' (<[c := setPC cl (Returned conn err)]> (callers st))
                   + (if bool_decide (ad = ad') then 1 else 0)
                   = holders ad' (callers st))%nat).
    { intros ad'. unfold holders.
      pose proof (countb_insert (fun cl => isActive ad' (pc cl)) _ c cl
                    (setPC cl (Returned conn err)) Hc) as E.
      cbv beta in E. rewrite Epc in E. simpl in E. lia. }
    unfold release in Hstep. rewrite Hr in Hstep. simpl in Hstep.
    destruct (Z.eqb_spec (refCnt r - 1) 0) as [Hz|Hnz]; injection Hstep as <-.
    + (* the last holder *)
      assert (H0 : holders ad (<[c := setPC cl (Returned conn err)]> (callers st)) = 0%nat).
      { pose proof (Hh ad) as E. rewrite bool_decide_eq_true_2 in E by done. lia. }
      split; simpl; try done.
      * intros p' ad' [Hne Hd']%lookup_delete_Some.
        assert (ad <> ad') by (intros <-; by pose proof (Hinj _ _ _ Hd Hd')).
        rewrite lookup_insert_ne by done.
        destruct (Hreg _ _ Hd') as (r' & ? & ? & ? & ? & ? & ?). exists r'.
        pose proof (Hh ad') as E. rewrite bool_decide_eq_false_2 in E by done.
        rewrite Nat.add_0_r in E. rewrite E. repeat split; try done.
        rewrite fmap_app. intros [?|Hin%list_elem_of_singleton]%elem_of_app; [done|].
        simpl in Hin. congruence.
      * intros c' cl' ad'. destruct (decide (c' = c)) as [->|Hne].
        -- rewrite list_lookup_insert_eq by (by eapply lookup_lt_Some).
           by intros [= <-].
        -- intros H1 H2. pose proof H1 as H1'.
           rewrite list_lookup_insert_ne in H1 by done.
           pose proof (Hcal _ _ _ H1 H2) as Hd'.
           apply lookup_delete_Some. split; [|done]. intros E.
           rewrite <- E in Hd'. rewrite Hd in Hd'. injection Hd' as <-.
           pose proof (countb_zero _ _ _ _ H0 H1') as Hz'. simpl in Hz'. congruence.
      * intros p1 p2 ad' [_ H1]%lookup_delete_Some [_ H2]%lookup_delete_Some.
        by apply (Hinj p1 p2 ad').
      * intros p' ad' [_ H1]%lookup_delete_Some. by apply (Hnext p').
      * by rewrite Hpan, Hopen.
      * intros c' cl'. destruct (decide (c' = c)) as [->|Hne].
        -- rewrite list_lookup_insert_eq by (by eapply lookup_lt_Some).
           intros [= <-]. simpl. by apply (Hext c).
        -- rewrite list_lookup_insert_ne by done. apply Hext.
      * intros c' cl' ad'. destruct (decide (c' = c)) as [->|Hne].
        -- rewrite list_lookup_insert_eq by (by eapply lookup_lt_Some).
           by intros [= <-].
        -- rewrite list_lookup_insert_ne by done. apply Hpc.
      * intros c' cl'. destruct (decide (c' = c)) as [->|Hne].
        -- rewrite list_lookup_insert_eq by (by eapply lookup_lt_Some).
           intros [= <-]. simpl. by apply (Hres c).
        -- rewrite list_lookup_insert_ne by done. apply Hres.
      * intros ev ad' [Hin| ->%list_elem_of_singleton]%elem_of_app; [by apply Hlog|].
        simpl. intros [= <-]. by apply (Hnext (target cl)).
    + (* other holders remain *)
      split; simpl; try done.
      * intros p' ad' Hd'. pose proof (Hh ad') as E.
        destruct (decide (ad = ad')) as [<-|Hne].
        -- rewrite lookup_insert_eq. eexists. split; [done|]. simpl.
           rewrite bool_decide_eq_true_2 in E by done. repeat split; try done; lia.
        -- rewrite lookup_insert_ne by done.
           destruct (Hreg _ _ Hd') as (r' & ? & ? & ? & ? & ? & ?). exists r'.
           rewrite bool_decide_eq_false_2 in E by done.
           rewrite Nat.add_0_r in E. by rewrite E.
      * intros c' cl' ad'. destruct (decide (c' = c)) as [->|Hne].
        -- rewrite list_lookup_insert_eq by (by eapply lookup_lt_Some).
           by intros [= <-].
        -- rewrite list_lookup_insert_ne by done. apply Hcal.
      * by rewrite Hpan.
      * intros c' cl'. destruct (decide (c' = c)) as [->|Hne].
        -- rewrite list_lookup_insert_eq by (by eapply lookup_lt_Some).
           intros [= <-]. simpl. by apply (Hext c).
        -- rewrite list_lookup_insert_ne by done. apply Hext.
      * intros c' cl' ad'. destruct (decide (c' = c)) as [->|Hne].
        -- rewrite list_lookup_insert_eq by (by eapply lookup_lt_Some).
           by intros [= <-].
        -- rewrite list_lookup_insert_ne by done. apply Hpc.
      * intros c' cl'. destruct (decide (c' = c)) as [->|Hne].
        -- rewrite list_lookup_insert_eq by (by eapply lookup_lt_Some).
           intros [= <-]. simpl. by apply (Hres c).
        -- rewrite list_lookup_insert_ne by done. apply Hres.
  - (* LCancel *)
    injection Hstep as <-. split; simpl; try done.
    + intros p' ad' Hd'. destruct (Hreg _ _ Hd') as (r' & ? & ? & ? & ? & ? & ?).
      exists r'. repeat split; try done. rewrite fmap_app.
      by intros [?|?%list_elem_of_singleton]%elem_of_app.
    + intros ev ad' [Hin| ->%list_elem_of_singleton]%elem_of_app; [by apply Hlog|done].
Qed.

Lemma run_Inv st tr st' : Inv st -> run st tr = Some st' -> Inv st'.
Proof.
  revert st. induction tr as [|l tr IH]; intros st I; simpl.
  - by intros [= <-].
  - destruct (step st l) as [st1|] eqn:E; [|done]. simpl.
    apply IH. by eapply Inv_step.
Qed.

Lemma reachable_Inv st : reachable st -> Inv st.
Proof. intros [tr Hrun]. eapply run_Inv; [apply Inv_initial|done]. Qed.

(** *** Consequences *)

Lemma firstCancel_new c log ev :
  (forall n, n ∈ nodes c -> n ∉ cnode <$> log) -> cnode ev ∈ nodes c ->
  firstCancel c (log ++ [ev]) = Some ev.
Proof.
  intros Hn Hin. unfold firstCancel. rewrite filter_app.
  assert (E : filter (fun ev => cnode ev ∈ nodes c) log = []).
  { destruct (filter _ log) as [|x xs] eqn:E; [done|]. exfalso.
    assert (Hx : x ∈ filter (fun ev => cnode ev ∈ nodes c) log) by (rewrite E; left).
    apply list_elem_of_filter in Hx as [Hx Hl].
    apply (Hn _ Hx). apply list_elem_of_fmap. by exists x. }
  rewrite E. simpl. by rewrite filter_cons_True.
Qed.

Lemma registered_not_canceled st p ad r :
  Inv st -> dials (ds st) !! p = Some ad -> records (ds st) !! ad = Some r ->
  refCnt r = Z.of_nat (holders ad (callers st)) /\ 0 < refCnt r
  /\ reqchClosed r = false
  /\ actx r = WithCancelCause (DialNode ad) Background
  /\ Err (actx r) (cancels st) = None
  /\ (forall ctx, Err (requestCtx (actx r) ctx) (cancels st) = None).
Proof.
  intros I Hd Hr. destruct (I_reg _ I _ _ Hd) as (r' & Hr' & ? & ? & ? & Hctx & Hnc).
  rewrite Hr in Hr'. injection Hr' as <-.
  assert (Hn : forall n, n ∈ nodes (actx r) -> n ∉ cnode <$> cancels st).
  { rewrite Hctx. simpl. by intros n ->%list_elem_of_singleton. }
  repeat split; try done; try lia.
  - by apply Err_not_canceled.
  - intros ctx. apply Err_not_canceled. by rewrite nodes_requestCtx.
Qed.

(** C2.  In every reachable state of the registry: a peer has at most one
    record (the registry is a map, and no record serves two peers); every
    caller that is inside [Dial] for that peer holds this record, and the
    record's reference count is the number of such callers; the record is
    then open and not canceled.  A call of [getActiveDial] for a peer that
    has a record attaches to it and adds one to its count, and creates a
    record (with a worker) only when there is none.  When the last caller
    leaves, the record's context is canceled with the caller's error, or
    with [errConcurrentDialSuccessful] when it has none, its channel is
    closed and the peer is removed from the registry; otherwise only the
    count changes. *)
Theorem one_active_dial_per_peer (st : State) :
  reachable st ->
  (forall p ad, dials (ds st) !! p = Some ad ->
     exists r, records (ds st) !! ad = Some r
       /\ refCnt r = Z.of_nat (holders ad (callers st))
       /\ 0 < refCnt r
       /\ reqchClosed r = false
       /\ Err (actx r) (cancels st) = None
       /\ forall p', dials (ds st) !! p' = Some ad -> p' = p)
  /\ (forall c cl ad, callers st !! c = Some cl -> isActive ad (pc cl) = true ->
        dials (ds st) !! target cl = Some ad)
  /\ (forall p ad r, dials (ds st) !! p = Some ad -> records (ds st) !! ad = Some r ->
        getActiveDial (ds st) p
        = (mkDialSync (dials (ds st))
             (<[ad := mkActiveDial (refCnt r + 1) (actx r) (reqchClosed r)]> (records (ds st)))
             (nextRecord (ds st)) (spawned (ds st)),
           ad))
  /\ (forall p, dials (ds st) !! p = None ->
        let ad := nextRecord (ds st) in
        getActiveDial (ds st) p
        = (mkDialSync (<[p := ad]> (dials (ds st)))
             (<[ad := mkActiveDial 1 (WithCancelCause (DialNode ad) Background) false]>
                (records (ds st)))
             (S ad) (spawned (ds st) ++ [(p, ad)]),
           ad))
  /\ (forall c cl ad conn err r,
        callers st !! c = Some cl -> pc cl = AtRelease ad conn err ->
        records (ds st) !! ad = Some r ->
        let '(ds', log', pan) := release (ds st) (cancels st) (target cl) ad err in
        pan = false
        /\ if refCnt r =? 1 then
             dials ds' !! target cl = None
             /\ exists r', records ds' !! ad = Some r'
                  /\ refCnt r' = 0 /\ reqchClosed r' = true
                  /\ Cause (actx r') log'
                     = Some (default errConcurrentDialSuccessful err)
           else
             dials ds' = dials (ds st) /\ log' = cancels st
             /\ records ds' !! ad = Some (mkActiveDial (refCnt r - 1) (actx r) false)).
Proof.
  intros I%reachable_Inv. split; [|split; [|split; [|split]]].
  - intros p ad Hd. destruct (I_reg _ I _ _ Hd) as (r & Hr & ? & ? & ? & ? & ?).
    exists r. destruct (registered_not_canceled st p ad r I Hd Hr) as (? & ? & ? & ? & ? & ?).
    repeat split; try done. intros p' Hd'. by apply (I_inj _ I p' p ad).
  - apply (I_callers _ I).
  - intros p ad r Hd Hr. unfold getActiveDial. rewrite Hd. simpl. f_equal. f_equal.
    apply map_eq. intros i. destruct (decide (i = ad)) as [->|Hne].
    + by rewrite lookup_alter_eq, lookup_insert_eq, Hr.
    + by rewrite lookup_alter_ne, lookup_insert_ne.
  - intros p Hd ad. unfold getActiveDial. rewrite Hd. simpl. f_equal. f_equal.
    apply map_eq. intros i. destruct (decide (i = ad)) as [->|Hne].
    + by rewrite lookup_alter_eq, !lookup_insert_eq.
    + by rewrite lookup_alter_ne, !lookup_insert_ne.
  - intros c cl ad conn err r Hc Epc Hr.
    assert (Hact : isActive ad (pc cl) = true)
      by (rewrite Epc; simpl; by apply bool_decide_eq_true).
    pose proof (I_callers _ I _ _ _ Hc Hact) as Hd.
    destruct (registered_not_canceled st _ ad r I Hd Hr) as (Hcnt & Hpos & Hopen & Hctx & _ & _).
    destruct (I_reg _ I _ _ Hd) as (r' & Hr' & _ & _ & _ & _ & Hnc).
    unfold release. rewrite Hr. simpl.
    destruct (Z.eqb_spec (refCnt r - 1) 0) as [Hz|Hnz].
    + split; [done|]. destruct (Z.eqb_spec (refCnt r) 1) as [_|]; [|lia].
      simpl. split; [apply lookup_delete_eq|]. eexists. rewrite lookup_insert_eq.
      split; [done|]. simpl. repeat split; [done|].
      unfold Cause. rewrite Hctx.
      rewrite (firstCancel_new _ _ (mkCancel (DialNode ad) Canceled
                                      (if err is Some e then e else errConcurrentDialSuccessful))).
      * simpl. by destruct err.
      * simpl. by intros n ->%list_elem_of_singleton.
      * simpl. left.
    + split; [done|]. destruct (Z.eqb_spec (refCnt r) 1) as [|_]; [lia|].
      simpl. rewrite lookup_insert_eq. by rewrite Hopen.
Qed.

(** Two callers share a record, and the last one leaves with an error. *)
Lemma one_active_dial_witness :
  exists st,
    run initial [LCall "QmPeer" Background; LCall "QmPeer" Background;
                 LGetActiveDial 0; LGetActiveDial 1] = Some st
    /\ dials (ds st) !! "QmPeer" = Some 0%nat
    /\ (refCnt <$> records (ds st) !! 0%nat) = Some 2.
Proof.
  destruct (run initial [LCall "QmPeer" Background; LCall "QmPeer" Background;
                 LGetActiveDial 0; LGetActiveDial 1]) as [st|] eqn:E0;
    [|by vm_compute in E0].
  assert (R : reachable st) by (eexists; exact E0).
  vm_compute in E0. injection E0 as E0.
  assert (Hd : dials (ds st) !! "QmPeer" = Some 0%nat)
    by (rewrite <- E0; vm_compute; reflexivity).
  destruct (one_active_dial_per_peer st R) as (A & _).
  destruct (A "QmPeer" 0%nat Hd) as (r & Hr & Hcnt & _).
  exists st. split; [reflexivity|]. split; [exact Hd|].
  rewrite Hr. simpl. rewrite Hcnt, <- E0. vm_compute. reflexivity.
Defined.


(** *** One caller leaves, the others stay *)


Lemma step_frame st l st' c2 cl2 :
  step st l = Some st' -> callers st !! c2 = Some cl2 -> subject l <> Some c2 ->
  callers st' !! c2 = Some cl2.
Proof.
  intros Hstep Hc2 Hsub.
  destruct l as [p ctx|c|c|c|c conn err|c|c|c|n e]; simpl in Hstep, Hsub.
  - destruct (external ctx); [|done]. injection Hstep as <-. simpl.
    by apply lookup_app_l_Some.
  - destruct (callers st !! c) as [cl|]; [|done]. simpl in Hstep.
    destruct (pc cl); try done. destruct (getActiveDial _ _). injection Hstep as <-.
    simpl. rewrite list_lookup_insert_ne; [done|congruence].
  - destruct (callers st !! c) as [cl|]; [|done]. simpl in Hstep.
    destruct (pc cl); try done. destruct (records _ !! _); [|done].
    injection Hstep as <-. simpl. rewrite list_lookup_insert_ne; [done|congruence].
  - destruct (callers st !! c) as [cl|]; [|done]. simpl in Hstep.
    destruct (pc cl); try done. destruct (Err _ _); [|done].
    injection Hstep as <-. simpl. rewrite list_lookup_insert_ne; [done|congruence].
  - destruct (callers st !! c) as [cl|]; [|done]. simpl in Hstep.
    destruct (_ && _); [|done].
    injection Hstep as <-. simpl. rewrite list_lookup_insert_ne; [done|congruence].
  - destruct (callers st !! c) as [cl|]; [|done]. simpl in Hstep.
    destruct (pc cl); try done. destruct (resch cl) as [[??]|]; [|done].
    injection Hstep as <-. simpl. rewrite list_lookup_insert_ne; [done|congruence].
  - destruct (callers st !! c) as [cl|]; [|done]. simpl in Hstep.
    destruct (pc cl); try done. destruct (Err _ _); [|done].
    injection Hstep as <-. simpl. rewrite list_lookup_insert_ne; [done|congruence].
  - destruct (callers st !! c) as [cl|]; [|done]. simpl in Hstep.
    destruct (pc cl); try done. destruct (release _ _ _ _ _) as [[??]?].
    injection Hstep as <-. simpl. rewrite list_lookup_insert_ne; [done|congruence].
  - by injection Hstep as <-.
Qed.






(** *** What a request context takes from the caller's context *)











End DialSyncFacts.


(** ** The noise handshake: the check of the remote identity *)
Module NoiseFacts.
Import Noise.

Section facts.
Context `{NoiseEnv}.

Lemma keeps_refl s : keeps s s.
Proof. by repeat split. Qed.

Lemma keeps_trans s1 s2 s3 : keeps s1 s2 -> keeps s2 s3 -> keeps s1 s3.
Proof. intros (?&?&?&?) (?&?&?&?). repeat split; congruence. Qed.

(** A computation that leaves the identity fields alone. *)
Definition preserving {A} (m : M A) : Prop :=
  forall s n s' n' r, m s n = (s', n', r) -> keeps s s'.

Lemma preserving_ret {A} (a : A) : preserving (ret a).
Proof. intros s n s' n' r [= <- _ _]. apply keeps_refl. Qed.

Lemma preserving_lift {A} (x : error + A) : preserving (lift x).
Proof. intros s n s' n' r [= <- _ _]. apply keeps_refl. Qed.

Lemma preserving_onNet {A} (f : Net -> Net * (error + A)) : preserving (onNet f).
Proof.
  intros s n s' n' r. unfold onNet. destruct (f n). intros [= <- _ _]. apply keeps_refl.
Qed.

Lemma preserving_onNetErr f : preserving (onNetErr f).
Proof.
  intros s n s' n' r. unfold onNetErr. destruct (f n). intros [= <- _ _]. apply keeps_refl.
Qed.

Lemma preserving_getSession : preserving getSession.
Proof. intros s n s' n' r [= <- _ _]. apply keeps_refl. Qed.

Lemma preserving_wrapErr {A} msg (m : M A) : preserving m -> preserving (wrapErr msg m).
Proof.
  intros Hm s n s' n' r. unfold wrapErr.
  destruct (m s n) as [[s1 n1] [e|a]] eqn:E; intros [= <- _ _]; by apply (Hm _ _ _ _ _ E).
Qed.

Lemma preserving_bind {A B} (m : M A) (k : A -> M B) :
  preserving m -> (forall a, preserving (k a)) -> preserving (bind m k).
Proof.
  intros Hm Hk s n s' n' r. unfold bind.
  destruct (m s n) as [[s1 n1] [e|a]] eqn:E.
  - intros [= <- _ _]. by apply (Hm _ _ _ _ _ E).
  - intros E2. eapply keeps_trans; [by apply (Hm _ _ _ _ _ E)|by apply (Hk a _ _ _ _ _ E2)].
Qed.

Lemma preserving_applyCipherStates cs1 cs2 : preserving (applyCipherStates cs1 cs2).
Proof.
  intros s n s' n' r [= <- _ _]. unfold setIfBoth, setCipherStates.
  destruct cs1, cs2; try apply keeps_refl.
  unfold keeps. destruct (initiator s) eqn:E; simpl; by rewrite ?E.
Qed.

Lemma preserving_send hs payload : preserving (sendHandshakeMessage hs payload).
Proof.
  unfold sendHandshakeMessage. apply preserving_bind; [apply preserving_lift|].
  intros [[[hs' bz] cs1] cs2]. apply preserving_bind; [apply preserving_onNetErr|].
  intros _. apply preserving_bind; [apply preserving_applyCipherStates|].
  intros _. apply preserving_ret.
Qed.

Lemma preserving_read hs : preserving (readHandshakeMessage hs).
Proof.
  unfold readHandshakeMessage. apply preserving_bind; [apply preserving_onNet|].
  intros l. apply preserving_bind; [apply preserving_onNet|].
  intros buf. apply preserving_bind; [apply preserving_lift|].
  intros [[[hs' msg] cs1] cs2]. apply preserving_bind; [apply preserving_applyCipherStates|].
  intros _. apply preserving_ret.
Qed.

Lemma preserving_edhSend h : preserving (edhSend h).
Proof.
  destruct h as [h|]; simpl; [|apply preserving_ret].
  intros s n s' n' r. destruct (Send h n (remoteID s)). intros [= <- _ _]. apply keeps_refl.
Qed.

Lemma preserving_edhReceived h ed : preserving (edhReceived h ed).
Proof. destruct h as [h|]; simpl; [apply preserving_onNetErr|apply preserving_ret]. Qed.

(** *** [handleRemoteHandshakePayload] *)

Lemma handle_mismatch s payload static id :
  carries payload id -> checkPeerID s = true -> remoteID s <> id ->
  handleRemoteHandshakePayload s payload static
  = (s, inl (ErrPeerIDMismatch (remoteID s) id)).
Proof.
  intros (nhp & k & E1 & E2 & E3) Hc Hne. unfold handleRemoteHandshakePayload.
  rewrite E1, E2, E3, Hc. simpl.
  destruct (String.eqb_spec (remoteID s) id); [done|]. done.
Qed.

Lemma handle_outcome s payload static s' r :
  handleRemoteHandshakePayload s payload static = (s', r) ->
  checkPeerID s = true ->
  initiator s' = initiator s /\ checkPeerID s' = checkPeerID s /\ remoteID s' = remoteID s
  /\ match r with
     | inr _ => verified s s'
     | inl _ => remoteKey s' = remoteKey s
     end.
Proof.
  unfold handleRemoteHandshakePayload. intros E Hc.
  destruct (proto_Unmarshal payload) as [e|nhp]; [by injection E as <- <-|].
  destruct (crypto_UnmarshalPublicKey _) as [e|k]; [by injection E as <- <-|].
  destruct (peer_IDFromPublicKey k) as [e|id] eqn:Eid; [by injection E as <- <-|].
  rewrite Hc in E. simpl in E.
  destruct (String.eqb_spec (remoteID s) id) as [Heq|Hne]; simpl in E;
    [|by injection E as <- <-].
  destruct (Verify k _ _) as [e|[|]]; injection E as <- <-; try done.
  simpl. repeat split; try done. exists k. by rewrite Heq.
Qed.

(** A computation that, when it succeeds on a session that checks the
    peer identity, has verified the expected identity. *)
Definition establishing {A} (m : M A) : Prop :=
  forall s n s' n' r, m s n = (s', n', r) -> checkPeerID s = true ->
    initiator s' = initiator s /\ checkPeerID s' = checkPeerID s /\ remoteID s' = remoteID s
    /\ (forall a, r = inr a -> verified s s').

Lemma establishing_handle payload static : establishing (handlePayload payload static).
Proof.
  intros s n s' n' r. unfold handlePayload.
  destruct (handleRemoteHandshakePayload s payload static) as [s1 r1] eqn:E.
  intros [= <- _ <-] Hc.
  destruct (handle_outcome _ _ _ _ _ E Hc) as (? & ? & ? & Hr).
  split; [done|]. split; [done|]. split; [done|]. intros x ->. exact Hr.
Qed.

Lemma establishing_wrapErr {A} msg (m : M A) : establishing m -> establishing (wrapErr msg m).
Proof.
  intros Hm s n s' n' r. unfold wrapErr.
  destruct (m s n) as [[s1 n1] [e|a]] eqn:E; intros [= <- _ <-] Hc;
    destruct (Hm _ _ _ _ _ E Hc) as (? & ? & ? & Hr);
    (split; [done|]; split; [done|]; split; [done|]); [done|].
  intros x _. by apply (Hr a).
Qed.

Lemma establishing_bind_l {A B} (m : M A) (k : A -> M B) :
  establishing m -> (forall a, preserving (k a)) -> establishing (bind m k).
Proof.
  intros Hm Hk s n s' n' r. unfold bind.
  destruct (m s n) as [[s1 n1] [e|a]] eqn:E.
  - intros [= <- _ <-] Hc. destruct (Hm _ _ _ _ _ E Hc) as (? & ? & ? & _).
    split; [done|]. split; [done|]. split; [done|]. done.
  - intros E2 Hc. destruct (Hm _ _ _ _ _ E Hc) as (? & ? & ? & Hv).
    destruct (Hk a _ _ _ _ _ E2) as (? & ? & ? & Hk4).
    split; [congruence|]. split; [congruence|]. split; [congruence|].
    intros b _. destruct (Hv a eq_refl) as (? & k0 & ? & ?).
    split; [congruence|]. exists k0. split; congruence.
Qed.

Lemma establishing_bind_r {A B} (m : M A) (k : A -> M B) :
  preserving m -> (forall a, establishing (k a)) -> establishing (bind m k).
Proof.
  intros Hm Hk s n s' n' r. unfold bind.
  destruct (m s n) as [[s1 n1] [e|a]] eqn:E.
  - intros [= <- _ <-] Hc. destruct (Hm _ _ _ _ _ E) as (? & ? & ? & _).
    split; [done|]. split; [done|]. split; [done|]. done.
  - intros E2 Hc. destruct (Hm _ _ _ _ _ E) as (? & Hc1 & Hid & _).
    assert (Hc' : checkPeerID s1 = true) by congruence.
    destruct (Hk a _ _ _ _ _ E2 Hc') as (? & ? & ? & Hv).
    split; [congruence|]. split; [congruence|]. split; [congruence|].
    intros b Hb. destruct (Hv b Hb) as (? & k0 & ? & ?).
    split; [congruence|]. exists k0. split; congruence.
Qed.

Lemma establishing_initiator kp hs : establishing (initiatorStages kp hs).
Proof.
  unfold initiatorStages. change (@mbind M _) with (fun A B k m => @bind _ A B m k).
  cbv beta.
  apply establishing_bind_r; [apply preserving_wrapErr, preserving_send|]. intros hs1.
  apply establishing_bind_r; [apply preserving_wrapErr, preserving_read|]. intros [hs2 pt].
  apply establishing_bind_l; [apply establishing_handle|]. intros rcvd.
  apply preserving_bind; [apply preserving_getSession|]. intros s1.
  apply preserving_bind; [apply preserving_edhReceived|]. intros _.
  apply preserving_bind; [apply preserving_edhSend|]. intros ed.
  apply preserving_bind; [apply preserving_getSession|]. intros s2.
  apply preserving_bind; [apply preserving_lift|]. intros payload.
  apply preserving_bind; [apply preserving_wrapErr, preserving_send|]. intros _.
  apply preserving_ret.
Qed.

Lemma establishing_responder kp hs : establishing (responderStages kp hs).
Proof.
  unfold responderStages. change (@mbind M _) with (fun A B k m => @bind _ A B m k).
  cbv beta.
  apply establishing_bind_r; [apply preserving_wrapErr, preserving_read|]. intros [hs1 pt0].
  apply establishing_bind_r; [apply preserving_getSession|]. intros s1.
  apply establishing_bind_r; [apply preserving_edhSend|]. intros ed.
  apply establishing_bind_r; [apply preserving_getSession|]. intros s2.
  apply establishing_bind_r; [apply preserving_lift|]. intros payload.
  apply establishing_bind_r; [apply preserving_wrapErr, preserving_send|]. intros hs2.
  apply establishing_bind_r; [apply preserving_wrapErr, preserving_read|]. intros [hs3 pt].
  apply establishing_bind_l; [apply establishing_handle|]. intros rcvd.
  apply preserving_bind; [apply preserving_getSession|]. intros s3.
  apply preserving_bind; [apply preserving_edhReceived|]. intros _.
  apply preserving_ret.
Qed.

Lemma establishing_withDeadline d body : establishing body -> establishing (withDeadline d body).
Proof.
  intros Hb. destruct d as [d|]; [|done]. intros s n s' n' r. simpl.
  destruct (SetDeadline (Some d) n) as [n1 e].
  destruct (body s n1) as [[s1 n2] res] eqn:E.
  destruct e; intros [= <- _ <-]; by apply (Hb _ _ _ _ _ E).
Qed.

Lemma establishing_runHandshake d : establishing (runHandshake d).
Proof.
  unfold runHandshake. change (@mbind M _) with (fun A B k m => @bind _ A B m k).
  cbv beta.
  apply establishing_bind_r; [apply preserving_wrapErr, preserving_onNet|]. intros kp.
  apply establishing_bind_r; [apply preserving_getSession|]. intros s0.
  apply establishing_bind_r; [apply preserving_wrapErr, preserving_lift|]. intros hs.
  apply establishing_withDeadline.
  destruct (initiator s0); [apply establishing_initiator|apply establishing_responder].
Qed.

(** *** The mismatch error reaches the caller of [runHandshake] *)

Lemma bind_inr {A B} (m : M A) (k : A -> M B) s n s1 n1 a :
  m s n = (s1, n1, inr a) -> bind m k s n = k a s1 n1.
Proof. intros E. unfold bind. by rewrite E. Qed.

Lemma bind_inl {A B} (m : M A) (k : A -> M B) s n s1 n1 e :
  m s n = (s1, n1, inl e) -> bind m k s n = (s1, n1, inl e).
Proof. intros E. unfold bind. by rewrite E. Qed.

Lemma wrapErr_inr {A} msg (m : M A) s n s1 n1 a :
  m s n = (s1, n1, inr a) -> wrapErr msg m s n = (s1, n1, inr a).
Proof. intros E. unfold wrapErr. by rewrite E. Qed.

Lemma withDeadline_inl d body s n s1 n1 e :
  body s (if d is Some x then (SetDeadline (Some x) n).1 else n) = (s1, n1, inl e) ->
  exists n', withDeadline d body s n = (s1, n', inl e).
Proof.
  destruct d as [x|]; simpl; [|by eexists].
  destruct (SetDeadline (Some x) n) as [n0 r]. simpl. intros ->.
  destruct r; by eexists.
Qed.

Lemma initiator_mismatch d s n plaintext s2 id :
  initiator s = true -> checkPeerID s = true ->
  initiatorReaches d s n plaintext s2 -> carries plaintext id -> remoteID s <> id ->
  exists n', runHandshake d s n = (s2, n', inl (ErrPeerIDMismatch (remoteID s) id)).
Proof.
  intros Hi Hc (n1 & kp & hs0 & s1 & n2 & hs1 & n3 & hs2 & E1 & E2 & E3 & E4) Hcar Hne.
  destruct (preserving_send _ _ _ _ _ _ _ E3) as (_ & Hc1 & Hid1 & _).
  destruct (preserving_read _ _ _ _ _ _ E4) as (_ & Hc2 & Hid2 & _).
  assert (Hm : handleRemoteHandshakePayload s2 plaintext (PeerStatic hs2)
               = (s2, inl (ErrPeerIDMismatch (remoteID s) id))).
  { rewrite (handle_mismatch s2 plaintext (PeerStatic hs2) id Hcar) by congruence.
    do 3 f_equal. congruence. }
  unfold runHandshake. change (@mbind M _) with (fun A B k m => @bind _ A B m k). cbv beta.
  rewrite (bind_inr _ _ s n s n1 kp)
    by (apply wrapErr_inr; unfold onNet; by rewrite E1).
  rewrite (bind_inr _ _ s n1 s n1 s) by done.
  rewrite (bind_inr _ _ s n1 s n1 hs0)
    by (apply wrapErr_inr; unfold lift; by rewrite Hi, E2).
  rewrite Hi. eapply withDeadline_inl.
  unfold initiatorStages. change (@mbind M _) with (fun A B k m => @bind _ A B m k). cbv beta.
  rewrite (bind_inr _ _ _ _ _ _ _ (wrapErr_inr _ _ _ _ _ _ _ E3)).
  rewrite (bind_inr _ _ _ _ _ _ _ (wrapErr_inr _ _ _ _ _ _ _ E4)).
  apply bind_inl. unfold handlePayload. by rewrite Hm.
Qed.

Lemma responder_mismatch d s n plaintext s3 id :
  initiator s = false -> checkPeerID s = true ->
  responderReaches d s n plaintext s3 -> carries plaintext id -> remoteID s <> id ->
  exists n', runHandshake d s n = (s3, n', inl (ErrPeerIDMismatch (remoteID s) id)).
Proof.
  intros Hi Hc (n1 & kp & hs0 & s1 & n2 & hs1 & pt0 & s1' & n3 & ed & payload & s2 & n4
                & hs2 & n5 & hs3 & E1 & E2 & E3 & E4 & E5 & E6 & E7) Hcar Hne.
  destruct (preserving_read _ _ _ _ _ _ E3) as (_ & Hc1 & Hid1 & _).
  destruct (preserving_edhSend _ _ _ _ _ _ E4) as (_ & Hc1' & Hid1' & _).
  destruct (preserving_send _ _ _ _ _ _ _ E6) as (_ & Hc2 & Hid2 & _).
  destruct (preserving_read _ _ _ _ _ _ E7) as (_ & Hc3 & Hid3 & _).
  assert (Hm : handleRemoteHandshakePayload s3 plaintext (PeerStatic hs3)
               = (s3, inl (ErrPeerIDMismatch (remoteID s) id))).
  { rewrite (handle_mismatch s3 plaintext (PeerStatic hs3) id Hcar) by congruence.
    do 3 f_equal. congruence. }
  unfold runHandshake. change (@mbind M _) with (fun A B k m => @bind _ A B m k). cbv beta.
  rewrite (bind_inr _ _ s n s n1 kp)
    by (apply wrapErr_inr; unfold onNet; by rewrite E1).
  rewrite (bind_inr _ _ s n1 s n1 s) by done.
  rewrite (bind_inr _ _ s n1 s n1 hs0)
    by (apply wrapErr_inr; unfold lift; by rewrite Hi, E2).
  rewrite Hi. eapply withDeadline_inl.
  unfold responderStages. change (@mbind M _) with (fun A B k m => @bind _ A B m k). cbv beta.
  rewrite (bind_inr _ _ _ _ _ _ _ (wrapErr_inr _ _ _ _ _ _ _ E3)).
  rewrite (bind_inr _ _ s1 n2 s1 n2 s1) by done.
  rewrite (bind_inr _ _ _ _ _ _ _ E4).
  rewrite (bind_inr _ _ s1' n3 s1' n3 s1') by done.
  rewrite (bind_inr _ _ s1' n3 s1' n3 payload) by (unfold lift; by rewrite E5).
  rewrite (bind_inr _ _ _ _ _ _ _ (wrapErr_inr _ _ _ _ _ _ _ E6)).
  rewrite (bind_inr _ _ _ _ _ _ _ (wrapErr_inr _ _ _ _ _ _ _ E7)).
  apply bind_inl. unfold handlePayload. by rewrite Hm.
Qed.

(** C4.  For a session that checks the peer identity ([checkPeerID], with
    the expected identity in [remoteID]): (1) when the remote payload
    carries a key whose identity differs from the expected one,
    [handleRemoteHandshakePayload] fails with
    [ErrPeerIDMismatch{Expected, Actual}] and leaves the session as it was;
    (2) and (3) an initiator, respectively a responder, whose handshake
    gets as far as such a payload returns this very error from
    [runHandshake]; (4) a handshake that returns no error has stored a
    remote key of exactly the expected identity, so no session with
    another identity comes out of it; (5) [newSecureSession] hands the
    error of the handshake to its caller. *)
Theorem peer_id_mismatch_fails_handshake
    (s : secureSession) (n : Net) (deadline : option Z) :
  checkPeerID s = true ->
  (forall payload static id,
      carries payload id -> remoteID s <> id ->
      handleRemoteHandshakePayload s payload static
      = (s, inl (ErrPeerIDMismatch (remoteID s) id)))
  /\ (forall plaintext s2 id,
        initiator s = true -> initiatorReaches deadline s n plaintext s2 ->
        carries plaintext id -> remoteID s <> id ->
        exists n', runHandshake deadline s n
                   = (s2, n', inl (ErrPeerIDMismatch (remoteID s) id)))
  /\ (forall plaintext s3 id,
        initiator s = false -> responderReaches deadline s n plaintext s3 ->
        carries plaintext id -> remoteID s <> id ->
        exists n', runHandshake deadline s n
                   = (s3, n', inl (ErrPeerIDMismatch (remoteID s) id)))
  /\ (forall s' n', runHandshake deadline s n = (s', n', inr tt) -> verified s s')
  /\ (forall s' n' e,
        runHandshake deadline s n = (s', n', inl e) ->
        newSecureSession s n deadline None = (Some s', connClose n', Some e)).
Proof.
  intros Hc. split; [|split; [|split; [|split]]].
  - intros payload static id Hcar Hne. by apply handle_mismatch.
  - intros plaintext s2 id Hi Hr Hcar Hne. by apply (initiator_mismatch _ _ _ plaintext).
  - intros plaintext s3 id Hi Hr Hcar Hne. by apply (responder_mismatch _ _ _ plaintext).
  - intros s' n' E. destruct (establishing_runHandshake deadline _ _ _ _ _ E Hc) as (_ & _ & _ & Hv).
    by apply (Hv tt).
  - intros s' n' e E. unfold newSecureSession. by rewrite E.
Qed.
End facts.

(** An initiator that expects "bob" and is answered by "eve". *)
Lemma peer_id_mismatch_witness :
  runHandshake None bobExpected [bytesOfString "eve"]
  = (bobExpected, [], inl (ErrPeerIDMismatch "bob" "eve"))
  /\ newSecureSession bobExpected [bytesOfString "eve"] None None
     = (Some bobExpected, [], Some (ErrPeerIDMismatch "bob" "eve")).
Proof.
  destruct (peer_id_mismatch_fails_handshake bobExpected [bytesOfString "eve"] None
              eq_refl) as (_ & A & _ & _ & B).
  destruct (A (bytesOfString "eve") bobExpected "eve" eq_refl) as [n' E].
  - by exists [bytesOfString "eve"], tt, 0%nat, bobExpected, [bytesOfString "eve"],
      1%nat, [], 2%nat.
  - by exists (mkPayload (bytesOfString "eve") [] None), "eve"%string.
  - done.
  - split; [reflexivity|]. exact (B _ _ _ eq_refl).
Defined.

End NoiseFacts.


(** ** The upgrader's listener *)
Module ListenerFacts.
Import Listener.
Local Open Scope Z_scope.

(** *** [Accept] *)

Lemma acceptLoop_spec IsClosed incoming :
  match acceptLoop IsClosed incoming with
  | (Some c, rest) =>
      IsClosed c = false
      /\ exists skipped, incoming = skipped ++ c :: rest
                         /\ Forall (fun x => IsClosed x = true) skipped
  | (None, rest) => rest = [] /\ Forall (fun x => IsClosed x = true) incoming
  end.
Proof.
  induction incoming as [|c l IH]; simpl; [done|].
  destruct (IsClosed c) eqn:Ec; simpl.
  - destruct (acceptLoop IsClosed l) as [[c'|] rest].
    + destruct IH as (Hc' & skipped & -> & Hs). split; [done|].
      exists (c :: skipped). split; [done|]. by constructor.
    + destruct IH as (-> & Hs). split; [done|]. by constructor.
  - split; [done|]. by exists [].
Qed.

(** What [Accept] returns, for any state of the channel and of [l.err]. *)
Lemma Accept_spec
    (IsClosed : nat -> bool) (incoming : list nat) (incomingClosed : bool)
    (lerr : option error) :
  match Accept IsClosed incoming incomingClosed lerr with
  | (Accepted c, rest) =>
      IsClosed c = false
      /\ exists skipped, incoming = skipped ++ c :: rest
                         /\ Forall (fun x => IsClosed x = true) skipped
  | (Failed e, rest) =>
      rest = [] /\ incomingClosed = true
      /\ Forall (fun x => IsClosed x = true) incoming
      /\ exists le, lerr = Some le
           /\ e = if Contains (Error le) "use of closed network connection"
                  then ErrListenerClosed else le
  | (Blocked, rest) =>
      rest = [] /\ incomingClosed = false
      /\ Forall (fun x => IsClosed x = true) incoming
  | (NilError, rest) =>
      rest = [] /\ incomingClosed = true /\ lerr = None
      /\ Forall (fun x => IsClosed x = true) incoming
  end.
Proof.
  unfold Accept. pose proof (acceptLoop_spec IsClosed incoming) as Hl.
  destruct (acceptLoop IsClosed incoming) as [[c|] rest]; [done|].
  destruct Hl as [-> Hall]. destruct incomingClosed; [|done].
  destruct lerr as [le|]; [|done].
  destruct (Contains (Error le) _) eqn:E; repeat split; try done; exists le; by rewrite E.
Qed.

Example Accept_example :
  Accept (fun c => bool_decide (c = 1%nat \/ c = 2%nat)) [1; 2; 3; 4]%nat false None
  = (Accepted 3%nat, [4%nat])
  /\ Accept (fun _ => true) [1; 2]%nat true
       (Some (AcceptError "accept tcp: use of closed network connection" false))
     = (Failed ErrListenerClosed, [])
  /\ Accept (fun _ => true) [1; 2]%nat true (Some (Errorf "listener closed"))
     = (Failed (Errorf "listener closed"), []).
Proof. repeat split. Qed.


(** *** The accept loop *)















(** [close(l.incoming)] comes after [l.err] is set. *)
Definition closedInv (st : State) : Prop :=
  (incomingClosed st = true -> loop st = Exited)
  /\ (loop st = Draining \/ loop st = Exited -> is_Some (lerr st)).

Lemma closedInv_step st l st' : step st l = Some st' -> closedInv st -> closedInv st'.
Proof.
  unfold closedInv, step. intros Hs [H1 H2].
  destruct l;
    repeat match type of Hs with
           | context [match ?x with _ => _ end] => destruct x eqn:?; try done
           end;
    injection Hs as <-; simpl in *;
    (split; [try done; intros Hc; by specialize (H1 Hc)|]);
    try (intros [|]; done); try (intros _; by destruct (lerr st)); try done;
    try (intros _; apply H2; by (left + right)).
Qed.

Lemma run_closedInv st tr st' : run st tr = Some st' -> closedInv st -> closedInv st'.
Proof.
  revert st. induction tr as [|l tr IH]; intros st; simpl.
  - by intros [= <-].
  - destruct (step st l) as [st1|] eqn:Hs; [|done]. simpl.
    intros Hr Hb. eapply IH; [done|]. by eapply closedInv_step.
Qed.

Lemma closedInv_initial cutoff0 : closedInv (initial cutoff0).
Proof. split; [done|]. by intros [|]. Qed.

(** C10.  In every state of the listener, [Accept] returns a connection
    only if it is not closed when [Accept] looks at it, and it is the
    first such connection of the queue: the closed ones before it are
    taken from the queue and not returned.  When the queue holds no open
    connection and the channel is closed, [Accept] returns an error and no
    connection: [ErrListenerClosed] when the text of [l.err] contains
    "use of closed network connection", and [l.err] itself otherwise;
    [l.err] is set by then.  While the channel is open, [Accept] waits. *)
Theorem Accept_skips_closed_connections
    (cutoff0 : Z) (tr : list Label) (st : State)
    (IsClosed : nat -> bool) (incoming : list nat) :
  run (initial cutoff0) tr = Some st ->
  match Accept IsClosed incoming (incomingClosed st) (lerr st) with
  | (Accepted c, rest) =>
      IsClosed c = false
      /\ exists skipped, incoming = skipped ++ c :: rest
                         /\ Forall (fun x => IsClosed x = true) skipped
  | (Failed e, rest) =>
      rest = [] /\ incomingClosed st = true
      /\ Forall (fun x => IsClosed x = true) incoming
      /\ exists le, lerr st = Some le
           /\ e = if Contains (Error le) "use of closed network connection"
                  then ErrListenerClosed else le
  | (Blocked, rest) =>
      rest = [] /\ incomingClosed st = false
      /\ Forall (fun x => IsClosed x = true) incoming
  | (NilError, _) => False
  end.
Proof.
  intros Hr. apply run_closedInv in Hr; [|apply closedInv_initial].
  destruct Hr as [H1 H2].
  pose proof (Accept_spec IsClosed incoming (incomingClosed st) (lerr st)) as HA.
  destruct (Accept IsClosed incoming (incomingClosed st) (lerr st)) as [[c|e| |] rest];
    try done.
  destruct HA as (_ & Hc & Hn & _). specialize (H1 Hc).
  destruct H2 as [le Hle]; [by right|]. congruence.
Qed.

Definition closedConnError : error :=
  AcceptError "accept tcp: use of closed network connection" false.

Lemma Accept_witness :
  run (initial 1) [LCallAccept; LAcceptErr closedConnError; LDrained]
  = Some (mkState Exited [] (mkThreshold 0 1) false (Some closedConnError) 1 [] [] true)
  /\ Accept (fun c => bool_decide (c = 7%nat)) [7%nat; 7%nat] true (Some closedConnError)
     = (Failed ErrListenerClosed, [])
  /\ Forall (fun x => bool_decide (x = 7%nat) = true) [7%nat; 7%nat]
  /\ exists le, Some closedConnError = Some le
       /\ ErrListenerClosed
          = if Contains (Error le) "use of closed network connection"
            then ErrListenerClosed else le.
Proof.
  split; [reflexivity|]. split; [reflexivity|].
  exact (proj2 (proj2 (Accept_skips_closed_connections 1
    [LCallAccept; LAcceptErr closedConnError; LDrained]
    _ (fun c => bool_decide (c = 7%nat)) [7%nat; 7%nat] eq_refl))).
Defined.



End ListenerFacts.


(** ** Connection notifications *)
Module NotifyFacts.
Import Notify.

(** What holds where: while the opener notifies it holds the lock and the
    notifier has not passed [Lock]; afterwards the log is the connect
    notifications of all notifiees followed by the disconnect notifications
    the notifier has got to. *)
Definition notifyInv (fs : list nat) (st : State) : Prop :=
  (notifiees st = fs /\ (closeOnce st = false -> notifier st = NotStarted))
  /\ match opener st with
     | Opening todo =>
         notifyLk st = Some Opener
         /\ (notifier st = NotStarted \/ notifier st = AtLock)
         /\ exists sent, fs = sent ++ todo /\ log st = Connected <$> sent
     | OpenerDone =>
         exists ds, log st = (Connected <$> fs) ++ (Disconnected <$> ds)
           /\ match notifier st with
              | NotStarted | AtLock => ds = [] /\ notifyLk st = None
              | Notifying todo => fs = ds ++ todo /\ notifyLk st = Some Notifier
              | NotifierDone => ds = fs /\ notifyLk st = None
              end
     end.

Lemma notifyInv_initial fs : notifyInv fs (initial fs).
Proof. split; [done|]. simpl. split; [done|]. split; [by left|]. by exists []. Qed.

Lemma notifyInv_step fs st l st' :
  step st l = Some st' -> notifyInv fs st -> notifyInv fs st'.
Proof.
  unfold notifyInv, step. intros Hs [[Hn Hc] Hi]. destruct l.
  - (* LConnected *)
    destruct (opener st) as [[|f todo]|] eqn:Eo; try done. injection Hs as <-. simpl.
    split; [done|]. destruct Hi as (Hlk & Hnt & sent & -> & Hlog).
    split; [done|]. split; [done|]. exists (sent ++ [f]).
    split; [by rewrite <- app_assoc|]. by rewrite Hlog, fmap_app.
  - (* LOpenerUnlock *)
    destruct (opener st) as [[|f todo]|] eqn:Eo; try done. injection Hs as <-. simpl.
    split; [done|]. destruct Hi as (Hlk & Hnt & sent & -> & Hlog).
    exists []. rewrite app_nil_r in *. simpl. rewrite app_nil_r. split; [done|].
    by destruct Hnt as [-> | ->].
  - (* LClose *)
    destruct (closeOnce st) eqn:Ec; injection Hs as <-; simpl; (split; [done|]).
    + done.
    + (* the first call: the notifier has not started *)
      specialize (Hc eq_refl). rewrite Hc in Hi.
      destruct (opener st) as [todo|].
      * destruct Hi as (Hlk & Hnt & Hsent). split; [done|]. split; [by right|done].
      * done.
  - (* LNotifierLock *)
    destruct (notifier st) eqn:En; try done.
    destruct (notifyLk st) eqn:El; try done. injection Hs as <-. simpl.
    split; [split; [done|]; intros Hf; by specialize (Hc Hf)|].
    destruct (opener st) as [todo|].
    + destruct Hi as (Hlk & _). congruence.
    + destruct Hi as (ds & Hlog & -> & _). exists []. by rewrite Hn.
  - (* LDisconnected *)
    destruct (notifier st) as [| |[|f todo]|] eqn:En; try done. injection Hs as <-. simpl.
    split; [split; [done|]; intros Hf; by specialize (Hc Hf)|].
    destruct (opener st) as [todo'|].
    + destruct Hi as (_ & [|] & _); done.
    + destruct Hi as (ds & Hlog & -> & Hlk). exists (ds ++ [f]).
      split; [by rewrite Hlog, (fmap_app Disconnected), <- !app_assoc|].
      split; [by rewrite <- app_assoc|done].
  - (* LNotifierUnlock *)
    destruct (notifier st) as [| |[|f todo]|] eqn:En; try done. injection Hs as <-. simpl.
    split; [split; [done|]; intros Hf; by specialize (Hc Hf)|].
    destruct (opener st) as [todo'|].
    + destruct Hi as (_ & [|] & _); done.
    + destruct Hi as (ds & Hlog & -> & Hlk). exists ds. rewrite app_nil_r in *. done.
Qed.

Lemma notifyInv_run fs st tr st' :
  run st tr = Some st' -> notifyInv fs st -> notifyInv fs st'.
Proof.
  revert st. induction tr as [|l tr IH]; intros st; simpl.
  - by intros [= <-].
  - destruct (step st l) as [st1|] eqn:Hs; [|done]. simpl.
    intros Hr Hi. eapply IH; [done|]. by eapply notifyInv_step.
Qed.

(** C9.  In every state the connection reaches, whatever the number and
    the timing of the calls of [Close]: the notifications delivered so far
    are connect notifications followed by disconnect notifications, each
    of them to the notifiees in order and at most once each; a disconnect
    notification has been delivered only if the connect notification has
    been delivered to every notifiee and the opener has left [notifyAll];
    so every disconnect notification a notifiee has received comes
    strictly after the connect notification it received. *)
Theorem Connected_precedes_Disconnected (fs : list nat) (tr : list Label) (st : State) :
  run (initial fs) tr = Some st ->
  exists cs ds,
    log st = (Connected <$> cs) ++ (Disconnected <$> ds)
    /\ cs `prefix_of` fs /\ ds `prefix_of` fs
    /\ (ds <> [] -> cs = fs /\ opener st = OpenerDone)
    /\ forall j f, log st !! j = Some (Disconnected f) ->
         exists i, (i < j)%nat /\ log st !! i = Some (Connected f)
                   /\ forall k, (j <= k)%nat -> log st !! k <> Some (Connected f).
Proof.
  intros Hr. apply (notifyInv_run fs) in Hr; [|apply notifyInv_initial].
  destruct Hr as [[Hn Hc] Hi].
  assert (exists cs ds,
    log st = (Connected <$> cs) ++ (Disconnected <$> ds)
    /\ cs `prefix_of` fs /\ ds `prefix_of` fs
    /\ (ds <> [] -> cs = fs /\ opener st = OpenerDone)) as (cs & ds & Hlog & Hcs & Hds & Hfin).
  { destruct (opener st) as [todo|].
    - destruct Hi as (_ & _ & sent & -> & Hlog). exists sent, [].
      simpl. rewrite app_nil_r. split; [done|]. split; [by eexists|].
      split; [by eexists|done].
    - destruct Hi as (ds & Hlog & Hcase). exists fs, ds.
      split; [done|]. split; [done|]. split; [|done].
      destruct (notifier st) as [| |todo|].
      + destruct Hcase as [-> _]. by eexists.
      + destruct Hcase as [-> _]. by eexists.
      + destruct Hcase as [-> _]. by eexists.
      + by destruct Hcase as [-> _]. }
  exists cs, ds. split; [done|]. split; [done|]. split; [done|]. split; [done|].
  intros j f Hj. rewrite Hlog in Hj |- *.
  assert (Hlen : (length (Connected <$> cs) <= j)%nat).
  { destruct (Nat.le_gt_cases (length (Connected <$> cs)) j) as [|Hlt]; [done|].
    rewrite lookup_app_l in Hj by done. rewrite list_lookup_fmap in Hj.
    by destruct (cs !! j). }
  rewrite lookup_app_r in Hj by done. rewrite list_lookup_fmap in Hj.
  destruct (ds !! (j - length (Connected <$> cs))%nat) as [f'|] eqn:Ef; [|done].
  injection Hj as ->.
  destruct Hfin as [-> _]; [by intros ->|].
  pose proof (prefix_lookup_Some _ _ _ _ Ef Hds) as Hf.
  pose proof (lookup_lt_Some _ _ _ Hf) as Hlt.
  rewrite length_fmap in *.
  exists (j - length fs)%nat. split; [lia|]. split.
  - rewrite lookup_app_l by (rewrite length_fmap; lia).
    by rewrite list_lookup_fmap, Hf.
  - intros k Hk. rewrite lookup_app_r by (rewrite length_fmap; lia).
    rewrite list_lookup_fmap. intros Hx.
    destruct (ds !! (k - length (Connected <$> fs))%nat); simpl in Hx; congruence.
Qed.

Lemma Connected_precedes_Disconnected_witness :
  run (initial [1; 2])
      [LClose; LConnected; LClose; LConnected; LOpenerUnlock; LNotifierLock;
       LDisconnected; LClose; LDisconnected]
  = Some (mkState [1; 2] (Some Notifier) OpenerDone true 3 (Notifying [])
            [Connected 1; Connected 2; Disconnected 1; Disconnected 2])
  /\ exists cs ds,
       [Connected 1; Connected 2; Disconnected 1; Disconnected 2]
       = (Connected <$> cs) ++ (Disconnected <$> ds)
       /\ cs `prefix_of` [1; 2] /\ ds `prefix_of` [1; 2].
Proof.
  assert (Hr : run (initial [1; 2])
      [LClose; LConnected; LClose; LConnected; LOpenerUnlock; LNotifierLock;
       LDisconnected; LClose; LDisconnected]
    = Some (mkState [1; 2] (Some Notifier) OpenerDone true 3 (Notifying [])
              [Connected 1; Connected 2; Disconnected 1; Disconnected 2]))
    by reflexivity.
  split; [exact Hr|].
  pose proof (Connected_precedes_Disconnected _ _ _ Hr) as (cs & ds & Hlog & Hcs & Hds & _).
  exists cs, ds. split; [exact Hlog|]. split; [exact Hcs|exact Hds].
Defined.

(** The lock is what orders the two: the notifier cannot take it while the
    opener notifies. *)
Example notifier_waits_for_opener :
  run (initial [1; 2]) [LConnected; LClose; LNotifierLock] = None
  /\ run (initial [1; 2]) [LConnected; LClose; LClose; LDisconnected] = None.
Proof. split; reflexivity. Qed.
End NotifyFacts.


(** ** More on the address ranker *)
Module RankerMore.
Import Ranker RankerFacts.
Local Open Scope Z_scope.

Lemma matching_failing f (l : list Multiaddr) : matching f l ++ failing f l ≡ₚ l.
Proof.
  unfold matching, failing. induction l as [|a l IH]; [done|].
  rewrite !filter_cons. destruct (f a) eqn:E.
  - destruct (decide (true = true)); [|done]. destruct (decide (true = false)); [done|].
    simpl. by rewrite IH.
  - destruct (decide (false = true)); [done|]. destruct (decide (false = false)); [|done].
    rewrite <- Permutation_middle. by rewrite IH.
Qed.

(** X1.  [filterAddrs] splits the slice in two: the first part holds the
    addresses that pass the test, in their original order; the second
    holds the others, each once, in an order that the swaps may have
    changed.  Nothing is lost or added. *)
Theorem filterAddrs_partition (addrs : list Multiaddr) (f : Multiaddr -> bool) :
  (filterAddrs addrs f).1 = matching f addrs
  /\ (filterAddrs addrs f).2 ≡ₚ failing f addrs
  /\ (filterAddrs addrs f).1 ++ (filterAddrs addrs f).2 ≡ₚ addrs
  /\ Forall (fun a => f a = true) (filterAddrs addrs f).1
  /\ Forall (fun a => f a = false) (filterAddrs addrs f).2.
Proof.
  destruct (filterAddrs_spec addrs f) as [E P].
  split; [done|]. split; [done|]. split; [by rewrite E, P, matching_failing|].
  split.
  - rewrite E. unfold matching. apply Forall_forall. by intros a [? _]%list_elem_of_filter.
  - rewrite P. unfold failing. apply Forall_forall. by intros a [? _]%list_elem_of_filter.
Qed.

(** The second part need not keep the original order. *)
Example filterAddrs_rest_order :
  filterAddrs [q1v1; t1; q2v1; onion1] (fun a => isProtocolAddr a P_ONION3)
  = ([onion1], [t1; q2v1; q1v1]).
Proof. reflexivity. Qed.

(** *** Bounds on the delays *)

Lemma mul_small a b : Int64.inRange (a * b) -> Int64.mul a b = a * b.
Proof. apply Int64Facts.wrap_small. Qed.

(** The durations the ranker is called with are far from the ends of the
    64-bit range. *)
Definition modest (d : Z) : Prop := 0 <= d <= 2 ^ 40.

Lemma quicDelayAt_range q hq i : modest q -> 0 <= quicDelayAt q hq i <= 2 * q.
Proof.
  unfold modest, quicDelayAt. intros Hq.
  destruct (1 <? i)%nat; [destruct hq|destruct (i =? 1)%nat]; try lia.
  rewrite mul_small; [lia|small].
Qed.

Lemma tcpDelayAt_range t ht k i : modest t -> 0 <= tcpDelayAt t ht k i <= 2 * t.
Proof.
  unfold modest, tcpDelayAt. intros Ht.
  destruct (k + 1 <? i)%nat; [destruct ht|destruct (i =? k + 1)%nat]; try lia.
  rewrite mul_small; [lia|small].
Qed.

Lemma delayLoop_bounds t q o off hq ht k addrs :
  modest t -> modest q -> modest o -> modest off ->
  forall i tf lq,
    0 <= tf <= 2 * q + t -> 0 <= lq <= 2 * q + 3 * t ->
    Forall (fun r => off <= Delay r <= off + 2 * q + 3 * t + o)
           (delayLoop t q o off hq ht k i tf lq addrs).
Proof.
  intros Ht Hq Ho Hoff. induction addrs as [|a r IH]; intros i tf lq Htf Hlq; simpl;
    [constructor|].
  pose proof (quicDelayAt_range q hq i Hq) as Rq.
  pose proof (tcpDelayAt_range t ht k i Ht) as Rt.
  unfold modest in *.
  destruct (isQUICAddr a); [|destruct (isProtocolAddr a P_TCP)].
  - constructor.
    + simpl. rewrite add_small by small. lia.
    + apply IH; [rewrite add_small by small|]; lia.
  - assert (E : Int64.add (tcpDelayAt t ht k i) tf = tcpDelayAt t ht k i + tf)
      by (apply add_small; small).
    rewrite E. constructor.
    + simpl. rewrite add_small by small. lia.
    + apply IH; lia.
  - assert (E : Int64.add lq o = lq + o) by (apply add_small; small).
    rewrite E. constructor.
    + simpl. rewrite add_small by small. lia.
    + by apply IH.
Qed.

Section more.
Context `{RankerEnv}.

Lemma getAddrDelay_bounds addrs t q o off :
  modest t -> modest q -> modest o -> modest off ->
  Forall (fun r => off <= Delay r <= off + 2 * q + 3 * t + o)
         (getAddrDelay addrs t q o off).
Proof.
  intros Ht Hq Ho Hoff. unfold getAddrDelay.
  destruct (length addrs =? 0)%nat; [constructor|].
  destruct (reorderQUIC _) as [[l1 hq] i].
  destruct (reorderTCP _ _) as [l2 ht].
  apply delayLoop_bounds; try done; unfold modest in *; lia.
Qed.

Lemma groups_perm addrs :
  let '(relay, pvt, public, rest) := groups addrs in
  pvt ++ public ++ relay ++ rest ≡ₚ addrs.
Proof.
  pose proof (groups_spec addrs) as G.
  destruct (groups addrs) as [[[relay pvt] public] rest].
  destruct G as (-> & Gp & Gu & Gr). rewrite Gp, Gu, Gr.
  set (R := matching isRelayAddr addrs).
  set (P := matching IsPrivateAddr (failing isRelayAddr addrs)).
  set (U := matching hasIP (failing IsPrivateAddr (failing isRelayAddr addrs))).
  set (O := failing hasIP (failing IsPrivateAddr (failing isRelayAddr addrs))).
  transitivity (R ++ P ++ U ++ O).
  { rewrite (Permutation_app_comm R O), !app_assoc.
    rewrite (Permutation_app_comm ((P ++ U) ++ O) R). by rewrite <- !app_assoc. }
  subst R P U O. by rewrite !matching_failing.
Qed.

(** X2.  [DefaultDialRanker] ranks every address of its input exactly
    once: the addresses of its result are the input addresses as a
    multiset, whatever groups they fall in. *)
Theorem DefaultDialRanker_ranks_every_address (addrs : list Multiaddr) :
  Addr <$> DefaultDialRanker addrs ≡ₚ addrs
  /\ length (DefaultDialRanker addrs) = length addrs.
Proof.
  assert (P : Addr <$> DefaultDialRanker addrs ≡ₚ addrs).
  { unfold DefaultDialRanker, rankedGroups. pose proof (groups_perm addrs) as G.
    destruct (groups addrs) as [[[relay pvt] public] rest].
    rewrite !fmap_app, !getAddrDelay_Addr, <- list_fmap_compose.
    etransitivity; [|exact G]. rewrite <- !app_assoc.
    do 3 apply Permutation_app_head.
    clear G. induction rest as [|a r IH]; [done|]. simpl. by f_equiv. }
  split; [done|]. rewrite <- (length_fmap Addr). by apply Permutation_length.
Qed.

(** Where an entry of the result comes from. *)
Lemma DefaultDialRanker_cases addrs r :
  r ∈ DefaultDialRanker addrs ->
  exists pvt public relay,
    pvt ≡ₚ matching IsPrivateAddr (failing isRelayAddr addrs)
    /\ public ≡ₚ matching hasIP (failing IsPrivateAddr (failing isRelayAddr addrs))
    /\ relay = matching isRelayAddr addrs
    /\ let relayOffset := if (0 <? length public)%nat then RelayDelay else 0 in
       let ranked :=
         getAddrDelay pvt PrivateTCPDelay PrivateQUICDelay PrivateOtherDelay 0
         ++ getAddrDelay public PublicTCPDelay PublicQUICDelay PublicOtherDelay 0
         ++ getAddrDelay relay PublicTCPDelay PublicQUICDelay PublicOtherDelay relayOffset in
       (r ∈ getAddrDelay pvt PrivateTCPDelay PrivateQUICDelay PrivateOtherDelay 0
        /\ isRelayAddr (Addr r) = false /\ IsPrivateAddr (Addr r) = true)
       \/ (r ∈ getAddrDelay public PublicTCPDelay PublicQUICDelay PublicOtherDelay 0
           /\ publicAddr (Addr r) = true)
       \/ (r ∈ getAddrDelay relay PublicTCPDelay PublicQUICDelay PublicOtherDelay relayOffset
           /\ isRelayAddr (Addr r) = true)
       \/ (Addr r ∈ leftover addrs
           /\ Delay r = Int64.add (maxDelayOf ranked) PublicOtherDelay
           /\ Forall (fun x => 0 <= Delay x <= 2750 * Millisecond) ranked).
Proof.
  rewrite DefaultDialRanker_unfold.
  destruct (rankedGroups_split addrs) as (pvt & public & relay & E & Er & Ep & Eu).
  rewrite E. intros Hin. exists pvt, public, relay.
  split; [done|]. split; [done|]. split; [done|]. cbv zeta.
  rewrite !elem_of_app in Hin. destruct Hin as [[Hin|[Hin|Hin]]|Hin].
  - left. split; [done|].
    apply (list_elem_of_fmap_2 Addr) in Hin. rewrite getAddrDelay_Addr, Ep in Hin.
    unfold matching, failing in Hin. rewrite !list_elem_of_filter in Hin. tauto.
  - right. left. split; [done|].
    apply (list_elem_of_fmap_2 Addr) in Hin. rewrite getAddrDelay_Addr, Eu in Hin.
    unfold matching, failing in Hin. rewrite !list_elem_of_filter in Hin.
    apply publicAddr_true. tauto.
  - do 2 right. left. split; [done|].
    apply (list_elem_of_fmap_2 Addr) in Hin. rewrite getAddrDelay_Addr, Er in Hin.
    unfold matching in Hin. rewrite list_elem_of_filter in Hin. tauto.
  - do 3 right. apply list_elem_of_fmap in Hin as (a & -> & Ha). simpl.
    split; [done|]. split; [done|].
    rewrite !Forall_app. split; [|split].
    + eapply Forall_impl; [apply getAddrDelay_bounds; by vm_compute|].
      simpl. unfold PrivateQUICDelay, PrivateTCPDelay, PrivateOtherDelay, Millisecond.
      intros x. lia.
    + eapply Forall_impl; [apply getAddrDelay_bounds; by vm_compute|].
      simpl. unfold PublicQUICDelay, PublicTCPDelay, PublicOtherDelay, Second, Millisecond.
      intros x. lia.
    + destruct (0 <? length public)%nat.
      * eapply Forall_impl; [apply getAddrDelay_bounds; by vm_compute|].
        simpl. unfold PublicQUICDelay, PublicTCPDelay, PublicOtherDelay, RelayDelay,
          Second, Millisecond.
        intros x. lia.
      * eapply Forall_impl; [apply getAddrDelay_bounds; by vm_compute|].
        simpl. unfold PublicQUICDelay, PublicTCPDelay, PublicOtherDelay, Second, Millisecond.
        intros x. lia.
Qed.

Lemma maxDelayOf_range (res : list AddrDelay) (b : Z) :
  0 <= b -> Forall (fun x => 0 <= Delay x <= b) res -> 0 <= maxDelayOf res <= b.
Proof.
  intros Hb Hall. unfold maxDelayOf. destruct (last res) as [x|] eqn:E; [|lia].
  rewrite Forall_forall in Hall. apply Hall.
  apply last_Some in E as [l' ->]. rewrite elem_of_app, list_elem_of_singleton. by right.
Qed.

Lemma public_group_nonempty addrs public :
  public ≡ₚ matching hasIP (failing IsPrivateAddr (failing isRelayAddr addrs)) ->
  (0 <? length public)%nat = existsb publicAddr addrs.
Proof.
  intros ->. unfold matching, failing.
  induction addrs as [|a l IH]; [done|]. simpl.
  rewrite !filter_cons. unfold publicAddr at 1.
  destruct (isRelayAddr a) eqn:Er; simpl.
  { destruct (decide (true = false)); [done|]. apply IH. }
  destruct (decide (false = false)); [|done]. rewrite filter_cons.
  destruct (IsPrivateAddr a) eqn:Ep; simpl.
  { destruct (decide (true = false)); [done|]. apply IH. }
  destruct (decide (false = false)); [|done]. rewrite filter_cons.
  destruct (hasIP a) eqn:Ei; simpl.
  - by destruct (decide (true = true)).
  - destruct (decide (false = true)); [done|]. apply IH.
Qed.

(** X3.  The delays [DefaultDialRanker] hands out are bounded, however
    many addresses it is given: no delay is negative or above 3.75s; an
    address of the private group waits at most 250ms, one of the public
    group at most 2.25s, a relay address at most 2.75s, and an address
    ranked after the groups between 1s and 3.75s. *)
Theorem DefaultDialRanker_delays_bounded (addrs : list Multiaddr) (r : AddrDelay) :
  r ∈ DefaultDialRanker addrs ->
  0 <= Delay r <= 3750 * Millisecond
  /\ (isRelayAddr (Addr r) = false -> IsPrivateAddr (Addr r) = true ->
      Delay r <= 250 * Millisecond)
  /\ (publicAddr (Addr r) = true -> Delay r <= 2250 * Millisecond)
  /\ (isRelayAddr (Addr r) = true -> Delay r <= 2750 * Millisecond)
  /\ (Addr r ∈ leftover addrs -> 1000 * Millisecond <= Delay r).
Proof.
  intros Hin.
  destruct (DefaultDialRanker_cases addrs r Hin) as (pvt & public & relay & _ & _ & _ & C).
  cbv zeta in C.
  assert (Bp : forall x, x ∈ getAddrDelay pvt PrivateTCPDelay PrivateQUICDelay PrivateOtherDelay 0 ->
                         0 <= Delay x <= 250 * Millisecond).
  { pose proof (getAddrDelay_bounds pvt PrivateTCPDelay PrivateQUICDelay PrivateOtherDelay 0)
      as B. rewrite Forall_forall in B. intros x Hx.
    specialize (B ltac:(by vm_compute) ltac:(by vm_compute) ltac:(by vm_compute)
                  ltac:(by vm_compute) x Hx).
    unfold PrivateQUICDelay, PrivateTCPDelay, PrivateOtherDelay, Millisecond in *. lia. }
  assert (Bu : forall x, x ∈ getAddrDelay public PublicTCPDelay PublicQUICDelay PublicOtherDelay 0 ->
                         0 <= Delay x <= 2250 * Millisecond).
  { pose proof (getAddrDelay_bounds public PublicTCPDelay PublicQUICDelay PublicOtherDelay 0)
      as B. rewrite Forall_forall in B. intros x Hx.
    specialize (B ltac:(by vm_compute) ltac:(by vm_compute) ltac:(by vm_compute)
                  ltac:(by vm_compute) x Hx).
    unfold PublicQUICDelay, PublicTCPDelay, PublicOtherDelay, Second, Millisecond in *. lia. }
  set (off := if (0 <? length public)%nat then RelayDelay else 0) in *.
  assert (Br : forall x, x ∈ getAddrDelay relay PublicTCPDelay PublicQUICDelay PublicOtherDelay off ->
                         0 <= Delay x <= 2750 * Millisecond).
  { pose proof (getAddrDelay_bounds relay PublicTCPDelay PublicQUICDelay PublicOtherDelay off)
      as B. rewrite Forall_forall in B. intros x Hx.
    assert (Hoff : modest off) by (subst off; destruct (0 <? length public)%nat; by vm_compute).
    specialize (B ltac:(by vm_compute) ltac:(by vm_compute) ltac:(by vm_compute) Hoff x Hx).
    subst off. unfold PublicQUICDelay, PublicTCPDelay, PublicOtherDelay, RelayDelay, Second,
      Millisecond in *. destruct (0 <? length public)%nat; lia. }
  destruct C as [(Hr & Er & Ep)|[(Hr & Eu)|[(Hr & Er)|(Hr & Ed & Hall)]]].
  - specialize (Bp r Hr). unfold Millisecond in *.
    split; [lia|]. split; [intros; lia|]. split.
    { intros (_ & ? & _)%publicAddr_true. congruence. }
    split; [congruence|].
    intros (_ & _ & ? & _)%leftover_elem. congruence.
  - specialize (Bu r Hr). unfold Millisecond in *. apply publicAddr_true in Eu as (E1 & E2 & E3).
    split; [lia|]. split; [congruence|]. split; [intros; lia|]. split; [congruence|].
    intros (_ & _ & _ & ?)%leftover_elem. congruence.
  - specialize (Br r Hr). unfold Millisecond in *.
    split; [lia|]. split; [congruence|]. split.
    { intros (? & _)%publicAddr_true. congruence. }
    split; [intros; lia|].
    intros (_ & ? & _)%leftover_elem. congruence.
  - pose proof (maxDelayOf_range _ (2750 * Millisecond) ltac:(by vm_compute) Hall) as M.
    rewrite add_small in Ed
      by (unfold PublicOtherDelay, Second, Millisecond in *; small).
    apply leftover_elem in Hr as (_ & E1 & E2 & E3).
    unfold PublicOtherDelay, Second, Millisecond in *.
    split; [lia|]. split; [congruence|]. split.
    { intros (_ & _ & ?)%publicAddr_true. congruence. }
    split; [congruence|]. intros _. lia.
Qed.

(** X4.  Relay addresses wait for direct ones only when the input has a
    public address with an IP component: the relay group is then ranked
    with an offset of [RelayDelay] (500ms), so that no relay address is
    dialed before 500ms; otherwise (also when the only direct addresses
    are private) the relay group is ranked with no offset, like a group of
    direct addresses. *)
Theorem relay_addresses_wait_for_public (addrs : list Multiaddr) (r : AddrDelay) :
  r ∈ DefaultDialRanker addrs ->
  isRelayAddr (Addr r) = true ->
  let relayOffset := if existsb publicAddr addrs then RelayDelay else 0 in
  r ∈ getAddrDelay (matching isRelayAddr addrs) PublicTCPDelay PublicQUICDelay
        PublicOtherDelay relayOffset
  /\ relayOffset <= Delay r <= relayOffset + 2250 * Millisecond.
Proof.
  intros Hin Hrel.
  destruct (DefaultDialRanker_cases addrs r Hin) as (pvt & public & relay & _ & Eu & -> & C).
  cbv zeta in *. rewrite (public_group_nonempty addrs public Eu) in C.
  destruct C as [(Hr & Er & Ep)|[(Hr & E)|[(Hr & Er)|(Hr & Ed & Hall)]]].
  - congruence.
  - apply publicAddr_true in E as (? & _). congruence.
  - split; [done|].
    pose proof (getAddrDelay_bounds (matching isRelayAddr addrs) PublicTCPDelay
                  PublicQUICDelay PublicOtherDelay
                  (if existsb publicAddr addrs then RelayDelay else 0)) as B.
    rewrite Forall_forall in B.
    assert (Hoff : modest (if existsb publicAddr addrs then RelayDelay else 0))
      by (destruct (existsb publicAddr addrs); by vm_compute).
    specialize (B ltac:(by vm_compute) ltac:(by vm_compute) ltac:(by vm_compute) Hoff r Hr).
    unfold PublicQUICDelay, PublicTCPDelay, PublicOtherDelay, Second, Millisecond in *. lia.
  - apply leftover_elem in Hr as (_ & ? & _). congruence.
Qed.
End more.

Lemma delays_bounded_witness :
  mkAddrDelay onion1 (PublicQUICDelay + 2 * PublicOtherDelay)
    ∈ DefaultDialRanker [q1v1; q1v16; wrtc1; wrtc1v6; onion1; onlyIP]
  /\ 1000 * Millisecond <= PublicQUICDelay + 2 * PublicOtherDelay <= 3750 * Millisecond.
Proof.
  assert (Hin : mkAddrDelay onion1 (PublicQUICDelay + 2 * PublicOtherDelay)
                  ∈ DefaultDialRanker [q1v1; q1v16; wrtc1; wrtc1v6; onion1; onlyIP]).
  { vm_compute. do 5 right. left. }
  split; [exact Hin|].
  destruct (DefaultDialRanker_delays_bounded _ _ Hin) as ([_ A] & _ & _ & _ & B).
  split; [|exact A]. apply B. vm_compute. left.
Defined.

(** A relay address beside a public one, and beside a private one. *)
Definition relay1 : Multiaddr :=
  [ip4 "5.6.7.8"; tcp "4001"; mkComponent P_P2P "QmRelay"; mkComponent P_CIRCUIT EmptyString].
Definition pvt1 : Multiaddr := [ip4 "192.168.0.1"; udp "1"; quic_v1].

Lemma relay_wait_witness :
  mkAddrDelay relay1 RelayDelay ∈ DefaultDialRanker [relay1; q1v1]
  /\ RelayDelay <= Delay (mkAddrDelay relay1 RelayDelay).
Proof.
  assert (Hin : mkAddrDelay relay1 RelayDelay ∈ DefaultDialRanker [relay1; q1v1]).
  { vm_compute. right. left. }
  split; [exact Hin|].
  destruct (relay_addresses_wait_for_public _ _ Hin eq_refl) as (_ & A & _).
  exact A.
Defined.

Example relay_beside_private :
  DefaultDialRanker [relay1; pvt1] = [mkAddrDelay pvt1 0; mkAddrDelay relay1 0].
Proof. reflexivity. Qed.
End RankerMore.


(** ** The score of an address *)
Module ScoreFacts.
Import Ranker RankerFacts.
Local Open Scope Z_scope.

(** The place of an address in the ranking that the comment of [score]
    documents: QUICv1 IPv6, QUICdraft29 IPv6, QUICv1 IPv4, QUICdraft29
    IPv4, WebTransport IPv6, WebTransport IPv4, TCP IPv6, TCP IPv4; [None]
    for an address of none of these kinds.  As in the code, an address
    counts as IPv4 when it has an ip4 component. *)
Definition documentedRank (a : Multiaddr) : option nat :=
  let v4 := isProtocolAddr a P_IP4 in
  if isProtocolAddr a P_WEBTRANSPORT then Some (if v4 then 5%nat else 4%nat)
  else if isProtocolAddr a P_QUIC then Some (if v4 then 3%nat else 1%nat)
  else if isProtocolAddr a P_QUIC_V1 then Some (if v4 then 2%nat else 0%nat)
  else if isProtocolAddr a P_TCP then Some (if v4 then 7%nat else 6%nat)
  else None.

(** The port that [score] reads: the udp port, or the tcp port for a TCP
    address. *)
Definition scoredPort (a : Multiaddr) : Z :=
  if isProtocolAddr a P_WEBTRANSPORT || isQUICAddr a then udpPort a
  else Atoi (default EmptyString (ValueForProtocol a P_TCP)).

Definition rankBase (i : nat) : Z :=
  match i with
  | 0%nat => 0
  | 1%nat => 2 ^ 17
  | 2%nat => 2 ^ 18
  | 3%nat => 2 ^ 18 + 2 ^ 17
  | 4%nat => 2 ^ 19
  | 5%nat => 2 ^ 19 + 2 ^ 18
  | 6%nat => 2 ^ 20
  | _ => 2 ^ 20 + 2 ^ 18
  end.

Lemma score_of_rank a :
  wellFormedPorts a = true ->
  match documentedRank a with
  | Some i => score a = rankBase i + scoredPort a /\ 0 <= scoredPort a <= 65535
              /\ (i <= 7)%nat
  | None => score a = 2 ^ 21 \/ score a = 2 ^ 30
  end.
Proof.
  intros Hwf. pose proof (udpPort_range a Hwf) as Hp.
  unfold documentedRank, scoredPort, score, isQUICAddr.
  destruct (isProtocolAddr a P_WEBTRANSPORT) eqn:Ew.
  { destruct (ValueForProtocol_Some _ _ Ew) as (c & _ & _ & ->). simpl.
    destruct (isProtocolAddr a P_IP4); simpl; rewrite !add_small; rewrite ?add_small;
      try small; (split; [lia|split; [lia|lia]]). }
  rewrite (ValueForProtocol_None _ _ Ew).
  destruct (isProtocolAddr a P_QUIC) eqn:Eq.
  { destruct (ValueForProtocol_Some _ _ Eq) as (c & _ & _ & ->). simpl.
    destruct (isProtocolAddr a P_IP4); simpl; rewrite !add_small; rewrite ?add_small;
      try small; (split; [lia|split; [lia|lia]]). }
  rewrite (ValueForProtocol_None _ _ Eq).
  destruct (isProtocolAddr a P_QUIC_V1) eqn:Ev.
  { destruct (ValueForProtocol_Some _ _ Ev) as (c & _ & _ & ->). simpl.
    destruct (isProtocolAddr a P_IP4); simpl; rewrite !add_small; rewrite ?add_small;
      try small; (split; [lia|split; [lia|lia]]). }
  rewrite (ValueForProtocol_None _ _ Ev).
  destruct (isProtocolAddr a P_TCP) eqn:Et.
  { destruct (ValueForProtocol_Some _ _ Et) as (c & Hin & Hc & ->). simpl.
    assert (0 <= Atoi (Value c) <= 65535)
      by (apply (wellFormedPorts_elem a c Hwf Hin); by right).
    destruct (isProtocolAddr a P_IP4); simpl; rewrite !add_small; rewrite ?add_small;
      try small; (split; [lia|split; [lia|lia]]). }
  rewrite (ValueForProtocol_None _ _ Et).
  destruct (ValueForProtocol a P_WEBRTC_DIRECT); [by left|by right].
Qed.

Lemma rankBase_gap i j :
  (i < j)%nat -> (j <= 7)%nat -> rankBase i + 2 ^ 17 <= rankBase j.
Proof.
  intros Hij Hj.
  do 8 (destruct i as [|i]; [do 8 (destruct j as [|j]; [simpl; lia|]); lia|]). lia.
Qed.

(** X5.  For addresses whose ports are 16-bit numbers, [score] orders
    addresses as its comment says: an address of an earlier kind in the
    documented ranking always scores lower than one of a later kind; two
    addresses of the same kind compare by their port, lower first; and an
    address of none of the ranked kinds scores above every ranked one. *)
Theorem score_follows_documented_ranking (a b : Multiaddr) :
  wellFormedPorts a = true -> wellFormedPorts b = true ->
  match documentedRank a, documentedRank b with
  | Some i, Some j =>
      ((i < j)%nat -> score a < score b)
      /\ (i = j -> (score a < score b <-> scoredPort a < scoredPort b))
  | Some _, None => score a < score b
  | None, Some _ => score b < score a
  | None, None => 2 ^ 21 <= score a /\ 2 ^ 21 <= score b
  end.
Proof.
  intros Ha Hb.
  pose proof (score_of_rank a Ha) as Sa. pose proof (score_of_rank b Hb) as Sb.
  destruct (documentedRank a) as [i|], (documentedRank b) as [j|].
  - destruct Sa as (-> & Pa & Hi), Sb as (-> & Pb & Hj). split.
    + intros Hij. pose proof (rankBase_gap i j Hij Hj). lia.
    + intros ->. lia.
  - destruct Sa as (-> & Pa & Hi).
    assert (rankBase i <= 2 ^ 20 + 2 ^ 18).
    { do 8 (destruct i as [|i]; [simpl; lia|]). lia. }
    destruct Sb as [-> | ->]; lia.
  - destruct Sb as (-> & Pb & Hj).
    assert (rankBase j <= 2 ^ 20 + 2 ^ 18).
    { do 8 (destruct j as [|j]; [simpl; lia|]). lia. }
    destruct Sa as [-> | ->]; lia.
  - destruct Sa as [-> | ->], Sb as [-> | ->]; lia.
Qed.

Lemma score_ranking_witness :
  documentedRank q1v16 = Some 0%nat /\ documentedRank q1v1 = Some 2%nat
  /\ documentedRank t1 = Some 7%nat
  /\ score q1v16 < score q1v1 /\ score q1v1 < score t1
  /\ (score q1v1 < score q2v1 <-> scoredPort q1v1 < scoredPort q2v1)
  /\ score t1 < score wrtc1.
Proof.
  split; [reflexivity|]. split; [reflexivity|]. split; [reflexivity|].
  pose proof (score_follows_documented_ranking q1v16 q1v1 eq_refl eq_refl) as A.
  pose proof (score_follows_documented_ranking q1v1 t1 eq_refl eq_refl) as B.
  pose proof (score_follows_documented_ranking q1v1 q2v1 eq_refl eq_refl) as C.
  pose proof (score_follows_documented_ranking t1 wrtc1 eq_refl eq_refl) as D.
  split; [apply (proj1 A); simpl; lia|].
  split; [apply (proj1 B); simpl; lia|].
  split; [exact (proj2 C eq_refl)|exact D].
Defined.
End ScoreFacts.


(** ** More on the dial registry *)
Module DialSyncMore.
Import DialSync DialSyncFacts.
Local Open Scope Z_scope.

(** What holds of every record ever created, registered or not. *)
Record Settled (d : dialSync) (log : list CancelEvent) : Prop := {
  S_rec : forall ad, (ad < nextRecord d)%nat ->
    exists r, records d !! ad = Some r
      /\ actx r = WithCancelCause (DialNode ad) Background
      /\ ((exists p, dials d !! p = Some ad)
          \/ (reqchClosed r = true /\ refCnt r = 0
              /\ DialNode ad ∈ cnode <$> log));
  S_spawn : (spawned d).*2 = seq 0 (nextRecord d);
  S_reg : forall p ad, dials d !! p = Some ad -> (p, ad) ∈ spawned d;
  S_err : forall ev ad, ev ∈ log -> cnode ev = DialNode ad -> cerr ev = Canceled
}.

Lemma Settled_initial : Settled newDialSync [].
Proof.
  split; simpl; try done.
  - intros ad Hlt. lia.
  - intros ev ad Hin. by apply elem_of_nil in Hin.
Qed.

Lemma Settled_cancel d log n e :
  Settled d log -> Settled d (log ++ [mkCancel (ExtNode n) e e]).
Proof.
  intros [Hrec Hsp Hreg Herr]. split; try done.
  - intros ad Hlt. destruct (Hrec ad Hlt) as (r & Hr & Hctx & [Hp|(Hc & Hz & Hin)]).
    + exists r. split; [done|]. split; [done|]. by left.
    + exists r. split; [done|]. split; [done|]. right. split; [done|]. split; [done|].
      rewrite fmap_app, elem_of_app. by left.
  - intros ev ad [Hin|Hin%list_elem_of_singleton]%elem_of_app Hn.
    + by apply (Herr ev ad).
    + by subst ev.
Qed.

Lemma Settled_getActiveDial d log p :
  Settled d log ->
  (forall p' ad, dials d !! p' = Some ad -> (ad < nextRecord d)%nat) ->
  Settled (getActiveDial d p).1 log.
Proof.
  intros [Hrec Hsp Hreg Herr] Hnext. unfold getActiveDial.
  destruct (dials d !! p) as [ad0|] eqn:Hd; simpl.
  - split; simpl; try done.
    intros ad Hlt. destruct (Hrec ad Hlt) as (r & Hr & Hctx & Hcase).
    destruct (decide (ad = ad0)) as [->|Hne].
    + eexists. rewrite lookup_alter_eq, Hr. simpl. split; [done|]. split; [done|].
      left. by exists p.
    + exists r. rewrite lookup_alter_ne by done. done.
  - split; simpl.
    + intros ad Hlt. destruct (decide (ad = nextRecord d)) as [->|Hne].
      * eexists. rewrite lookup_alter_eq, lookup_insert_eq. simpl.
        split; [done|]. split; [done|]. left. exists p. by rewrite lookup_insert_eq.
      * destruct (Hrec ad ltac:(lia)) as (r & Hr & Hctx & Hcase).
        exists r. rewrite lookup_alter_ne, lookup_insert_ne by done.
        split; [done|]. split; [done|]. destruct Hcase as [[p' Hp']|Hc]; [|by right].
        left. exists p'. rewrite lookup_insert_ne; [done|]. intros <-. congruence.
    + rewrite fmap_app, Hsp. exact (eq_sym (seq_S (nextRecord d) 0)).
    + intros p' ad. destruct (decide (p' = p)) as [->|Hne].
      * rewrite lookup_insert_eq. intros [= <-]. rewrite elem_of_app, list_elem_of_singleton.
        by right.
      * rewrite lookup_insert_ne by done. intros Hp'. rewrite elem_of_app. left.
        by apply Hreg.
    + done.
Qed.

Lemma Settled_release d log p ad err r :
  Settled d log ->
  dials d !! p = Some ad ->
  records d !! ad = Some r ->
  (forall p1 p2 a, dials d !! p1 = Some a -> dials d !! p2 = Some a -> p1 = p2) ->
  Settled (release d log p ad err).1.1 (release d log p ad err).1.2.
Proof.
  intros [Hrec Hsp Hreg Herr] Hd Hr Hinj. unfold release. rewrite Hr. simpl.
  destruct (refCnt r - 1 =? 0) eqn:E; simpl.
  - apply Z.eqb_eq in E. split; simpl.
    + intros ad' Hlt. destruct (decide (ad' = ad)) as [->|Hne].
      * eexists. rewrite lookup_insert_eq. simpl.
        destruct (Hrec ad Hlt) as (r' & Hr' & Hctx & _).
        rewrite Hr in Hr'. injection Hr' as <-.
        split; [done|]. split; [done|]. right. split; [done|]. split; [done|].
        rewrite fmap_app, elem_of_app. right. simpl. by left.
      * destruct (Hrec ad' Hlt) as (r' & Hr' & Hctx & Hcase).
        exists r'. rewrite lookup_insert_ne by done.
        split; [done|]. split; [done|].
        destruct Hcase as [[p' Hp']|(Hc & Hz & Hin)].
        -- left. exists p'. rewrite lookup_delete_ne; [done|]. intros <-. congruence.
        -- right. split; [done|]. split; [done|]. rewrite fmap_app, elem_of_app. by left.
    + done.
    + intros p' ad'. destruct (decide (p' = p)) as [->|Hne].
      * by rewrite lookup_delete_eq.
      * rewrite lookup_delete_ne by done. apply Hreg.
    + intros ev ad' [Hin|Hin%list_elem_of_singleton]%elem_of_app Hn.
      * by apply (Herr ev ad').
      * by subst ev.
  - split; simpl; try done.
    intros ad' Hlt. destruct (decide (ad' = ad)) as [->|Hne].
    + eexists. rewrite lookup_insert_eq. simpl.
      destruct (Hrec ad Hlt) as (r' & Hr' & Hctx & _).
      rewrite Hr in Hr'. injection Hr' as <-.
      split; [done|]. split; [done|]. left. by exists p.
    + destruct (Hrec ad' Hlt) as (r' & Hr' & Hctx & Hcase).
      exists r'. by rewrite lookup_insert_ne.
Qed.

Lemma Settled_step st l st' :
  Inv st -> Settled (ds st) (cancels st) -> step st l = Some st' ->
  Settled (ds st') (cancels st').
Proof.
  intros I S Hs. destruct l as [p ctx|c|c|c|c conn err|c|c|c|n e]; simpl in Hs.
  - destruct (external ctx); [|done]. by injection Hs as <-.
  - destruct (callers st !! c) as [cl|] eqn:Hc; [|done]. simpl in Hs.
    destruct (pc cl) eqn:Epc; try done.
    pose proof (Settled_getActiveDial (ds st) (cancels st) (target cl) S (I_next _ I)) as S'.
    destruct (getActiveDial (ds st) (target cl)) as [ds' ad]. by injection Hs as <-.
  - destruct (callers st !! c) as [cl|] eqn:Hc; [|done]. simpl in Hs.
    destruct (pc cl) eqn:Epc; try done.
    destruct (records (ds st) !! ad) as [r|]; [|done]. by injection Hs as <-.
  - destruct (callers st !! c) as [cl|] eqn:Hc; [|done]. simpl in Hs.
    destruct (pc cl) eqn:Epc; try done.
    destruct (Err (cctx cl) (cancels st)); [|done]. by injection Hs as <-.
  - destruct (callers st !! c) as [cl|] eqn:Hc; [|done]. simpl in Hs.
    destruct (_ && _); [|done]. by injection Hs as <-.
  - destruct (callers st !! c) as [cl|] eqn:Hc; [|done]. simpl in Hs.
    destruct (pc cl) eqn:Epc; try done.
    destruct (resch cl) as [[conn err]|]; [|done]. by injection Hs as <-.
  - destruct (callers st !! c) as [cl|] eqn:Hc; [|done]. simpl in Hs.
    destruct (pc cl) eqn:Epc; try done.
    destruct (Err (cctx cl) (cancels st)); [|done]. by injection Hs as <-.
  - destruct (callers st !! c) as [cl|] eqn:Hc; [|done]. simpl in Hs.
    destruct (pc cl) eqn:Epc; try done.
    assert (Hact : isActive ad (pc cl) = true) by (rewrite Epc; simpl; by apply bool_decide_eq_true).
    pose proof (I_callers _ I _ _ _ Hc Hact) as Hd.
    destruct (I_reg _ I _ _ Hd) as (r & Hr & _).
    pose proof (Settled_release (ds st) (cancels st) (target cl) ad err r S Hd Hr (I_inj _ I))
      as S'.
    destruct (release (ds st) (cancels st) (target cl) ad err) as [[ds' log'] pan].
    by injection Hs as <-.
  - injection Hs as <-. simpl. by apply Settled_cancel.
Qed.

Lemma Settled_run st tr st' :
  Inv st -> Settled (ds st) (cancels st) -> run st tr = Some st' ->
  Settled (ds st') (cancels st').
Proof.
  revert st. induction tr as [|l tr IH]; intros st I S; simpl.
  - by intros [= <-].
  - destruct (step st l) as [st1|] eqn:E; [|done]. simpl.
    apply IH; [by eapply Inv_step|by eapply Settled_step].
Qed.

Lemma reachable_Settled st : reachable st -> Settled (ds st) (cancels st).
Proof.
  intros [tr Hrun]. eapply Settled_run; [apply Inv_initial|apply Settled_initial|done].
Qed.

Lemma countb_exists {A} (p : A -> bool) (l : list A) :
  (0 < countb p l)%nat -> exists i x, l !! i = Some x /\ p x = true.
Proof.
  induction l as [|z l IH]; simpl; [lia|].
  destruct (p z) eqn:Ez.
  - intros _. by exists 0%nat, z.
  - intros Hpos. destruct (IH Hpos) as (i & x & ? & ?). by exists (S i), x.
Qed.

Lemma snd_unique {A} (l : list (A * nat)) a b x :
  NoDup l.*2 -> (a, x) ∈ l -> (b, x) ∈ l -> a = b.
Proof.
  induction l as [|[a0 x0] l IH]; simpl; [by intros _ ?%elem_of_nil|].
  intros [Hnin Hnd]%NoDup_cons Ha Hb.
  apply elem_of_cons in Ha as [Ha|Ha], Hb as [Hb|Hb].
  - congruence.
  - injection Ha as -> ->. exfalso. apply Hnin.
    apply list_elem_of_fmap. by exists (b, x0).
  - injection Hb as -> ->. exfalso. apply Hnin.
    apply list_elem_of_fmap. by exists (a, x0).
  - by apply IH.
Qed.

Lemma Err_dial_canceled ad log :
  (forall ev a, ev ∈ log -> cnode ev = DialNode a -> cerr ev = Canceled) ->
  DialNode ad ∈ cnode <$> log ->
  Err (WithCancelCause (DialNode ad) Background) log = Some Canceled.
Proof.
  intros Herr Hin. unfold Err, firstCancel. simpl.
  apply list_elem_of_fmap in Hin as (ev & Hn & Hev).
  assert (Hf : ev ∈ filter (fun ev => cnode ev ∈ [DialNode ad]) log).
  { apply list_elem_of_filter. split; [|done]. rewrite <- Hn. by left. }
  destruct (filter _ log) as [|x xs] eqn:E; [by apply elem_of_nil in Hf|]. simpl.
  assert (Hx : x ∈ filter (fun ev => cnode ev ∈ [DialNode ad]) log) by (rewrite E; left).
  apply list_elem_of_filter in Hx as [Hx Hl]. apply list_elem_of_singleton in Hx.
  by rewrite (Herr x ad Hl Hx).
Qed.

(** X6.  The registry never misuses a request channel: in every state
    that calls of [Dial] can reach, no channel has been closed twice and no
    request sent on a closed channel; a caller about to send its request,
    or about to give its reference back, holds a record that is open, and
    the count it decrements is positive. *)
Theorem dialSync_never_panics (st : State) :
  reachable st ->
  panicked st = false
  /\ (forall c cl ad, callers st !! c = Some cl -> pc cl = AtSend ad ->
        exists r, records (ds st) !! ad = Some r /\ reqchClosed r = false)
  /\ (forall c cl ad conn err, callers st !! c = Some cl -> pc cl = AtRelease ad conn err ->
        exists r, records (ds st) !! ad = Some r /\ reqchClosed r = false
                  /\ 0 < refCnt r
                  /\ (release (ds st) (cancels st) (target cl) ad err).2 = false).
Proof.
  intros I%reachable_Inv. split; [apply (I_panic _ I)|]. split.
  - intros c cl ad Hc Hpc.
    assert (Hact : isActive ad (pc cl) = true)
      by (rewrite Hpc; simpl; by apply bool_decide_eq_true).
    destruct (I_reg _ I _ _ (I_callers _ I _ _ _ Hc Hact)) as (r & Hr & _ & _ & Ho & _).
    by exists r.
  - intros c cl ad conn err Hc Hpc.
    assert (Hact : isActive ad (pc cl) = true)
      by (rewrite Hpc; simpl; by apply bool_decide_eq_true).
    destruct (I_reg _ I _ _ (I_callers _ I _ _ _ Hc Hact)) as (r & Hr & Hn & Hp & Ho & _).
    exists r. split; [done|]. split; [done|]. split; [lia|].
    unfold release. rewrite Hr. simpl. by destruct (refCnt r - 1 =? 0).
Qed.

(** X7.  No record and no worker is left behind.  The registry starts
    exactly one worker per record it creates.  A worker's record is either
    still registered under the worker's peer, open and held by at least one
    caller, or it has left the registry for good with its request channel
    closed, its count at zero and its context canceled.  Once no caller is
    inside [Dial], the registry is empty and every worker's channel is
    closed. *)
Theorem no_dial_record_is_left_behind (st : State) :
  reachable st ->
  (length (spawned (ds st)) = nextRecord (ds st) /\ NoDup (spawned (ds st)).*2)
  /\ (forall p ad, (p, ad) ∈ spawned (ds st) ->
        exists r, records (ds st) !! ad = Some r
          /\ ((dials (ds st) !! p = Some ad /\ reqchClosed r = false
               /\ (0 < holders ad (callers st))%nat)
              \/ ((forall p', dials (ds st) !! p' <> Some ad)
                  /\ reqchClosed r = true /\ refCnt r = 0
                  /\ Err (actx r) (cancels st) = Some Canceled)))
  /\ ((forall c cl ad, callers st !! c = Some cl -> isActive ad (pc cl) = false) ->
      dials (ds st) = ∅
      /\ forall p ad, (p, ad) ∈ spawned (ds st) ->
           exists r, records (ds st) !! ad = Some r /\ reqchClosed r = true).
Proof.
  intros R. pose proof (reachable_Inv _ R) as I.
  destruct (reachable_Settled _ R) as [Hrec Hsp Hreg Herr].
  assert (Hnd : NoDup (spawned (ds st)).*2) by (rewrite Hsp; apply NoDup_seq).
  assert (Hcases : forall p ad, (p, ad) ∈ spawned (ds st) ->
        exists r, records (ds st) !! ad = Some r
          /\ ((dials (ds st) !! p = Some ad /\ reqchClosed r = false
               /\ (0 < holders ad (callers st))%nat)
              \/ ((forall p', dials (ds st) !! p' <> Some ad)
                  /\ reqchClosed r = true /\ refCnt r = 0
                  /\ Err (actx r) (cancels st) = Some Canceled))).
  { intros p ad Hin.
    assert (Hlt : (ad < nextRecord (ds st))%nat).
    { assert (Hin2 : ad ∈ (spawned (ds st)).*2)
        by (apply list_elem_of_fmap; by exists (p, ad)).
      rewrite Hsp in Hin2. apply elem_of_seq in Hin2. lia. }
    destruct (Hrec ad Hlt) as (r & Hr & Hctx & [[p' Hp']|(Hc & Hz & Hcan)]).
    - exists r. split; [done|]. left.
      assert (p' = p) as -> by (eapply snd_unique; [exact Hnd|by apply Hreg|done]).
      destruct (I_reg _ I _ _ Hp') as (r' & Hr' & _ & Hpos & Ho & _).
      rewrite Hr in Hr'. by injection Hr' as <-.
    - exists r. split; [done|]. right. split.
      + intros p' Hp'. destruct (I_reg _ I _ _ Hp') as (_ & _ & _ & _ & _ & _ & Hnc). done.
      + split; [done|]. split; [done|]. rewrite Hctx. by apply Err_dial_canceled. }
  split.
  { split; [|done]. rewrite <- (length_fmap snd), Hsp. apply length_seq. }
  split; [exact Hcases|].
  intros Hidle.
  assert (Hempty : dials (ds st) = ∅).
  { apply map_eq. intros p. rewrite lookup_empty.
    destruct (dials (ds st) !! p) as [ad|] eqn:Hd; [|done]. exfalso.
    destruct (I_reg _ I _ _ Hd) as (_ & _ & _ & Hpos & _).
    destruct (countb_exists _ _ Hpos) as (c & cl & Hc & Hact).
    by rewrite (Hidle c cl ad Hc) in Hact. }
  split; [done|].
  intros p ad Hin. destruct (Hcases p ad Hin) as (r & Hr & [(Hd & _)|(_ & Hc & _)]).
  - rewrite Hempty in Hd. by rewrite lookup_empty in Hd.
  - by exists r.
Qed.

Lemma never_panics_witness :
  exists st,
    run initial [LCall "QmPeer" Background; LGetActiveDial 0] = Some st
    /\ panicked st = false
    /\ exists r, records (ds st) !! 0%nat = Some r /\ reqchClosed r = false.
Proof.
  destruct (run initial [LCall "QmPeer" Background; LGetActiveDial 0]) as [st|] eqn:E0;
    [|by vm_compute in E0].
  assert (R : reachable st) by (eexists; exact E0).
  vm_compute in E0. injection E0 as E0.
  destruct (dialSync_never_panics st R) as (A & B & _).
  exists st. split; [reflexivity|]. split; [exact A|].
  apply (B 0%nat (mkCaller "QmPeer" Background (AtSend 0) None false) 0%nat);
    [by rewrite <- E0|reflexivity].
Defined.

Lemma no_record_left_witness :
  exists st,
    run initial [LCall "QmPeer" Background; LGetActiveDial 0; LSend 0;
                 LRespond 0 (Some 42%nat) None; LRecv 0; LRelease 0] = Some st
    /\ dials (ds st) = ∅
    /\ exists r, records (ds st) !! 0%nat = Some r /\ reqchClosed r = true.
Proof.
  destruct (run initial [LCall "QmPeer" Background; LGetActiveDial 0; LSend 0;
                 LRespond 0 (Some 42%nat) None; LRecv 0; LRelease 0]) as [st|] eqn:E0;
    [|by vm_compute in E0].
  assert (R : reachable st) by (eexists; exact E0).
  vm_compute in E0. injection E0 as E0.
  destruct (no_dial_record_is_left_behind st R) as (_ & _ & A).
  destruct A as [A1 A2].
  { intros c cl ad Hc. rewrite <- E0 in Hc. destruct c as [|c]; [|done].
    injection Hc as <-. reflexivity. }
  exists st. split; [reflexivity|]. split; [exact A1|].
  apply (A2 "QmPeer"%string 0%nat). rewrite <- E0. vm_compute. left.
Defined.
End DialSyncMore.


(** ** Accounting of a connection's streams *)
Module StreamsMore.
Import Streams StreamsFacts.
Local Open Scope Z_scope.

(** The streams that are not closed, and those whose scope is not
    released. *)
Definition notClosed (kv : nat * Stream) : Prop := isClosed kv.2 = false.
Definition held (kv : nat * Stream) : Prop := scopeDone kv.2 = 0%nat.

Definition openStreams (c : Conn) : nat := size (filter notClosed (objects c)).
Definition heldScopes (c : Conn) : nat := size (filter held (objects c)).

Section counting.
Context (P : nat * Stream -> Prop) `{!forall x, Decision (P x)}.

Lemma size_filter_fresh (m : gmap nat Stream) i y :
  m !! i = None ->
  size (filter P (<[i := y]> m))
  = (size (filter P m) + (if decide (P (i, y)) then 1 else 0))%nat.
Proof.
  intros Hi. rewrite map_filter_insert. destruct (decide (P (i, y))).
  - rewrite map_size_insert_None; [lia|]. apply map_lookup_filter_None. by left.
  - rewrite delete_id by done. lia.
Qed.

Lemma size_filter_update (m : gmap nat Stream) i x y :
  m !! i = Some x ->
  (size (filter P (<[i := y]> m)) + (if decide (P (i, x)) then 1 else 0)
   = size (filter P m) + (if decide (P (i, y)) then 1 else 0))%nat.
Proof.
  intros Hi.
  assert (E : size (filter P m)
              = (size (filter P (delete i m)) + (if decide (P (i, x)) then 1 else 0))%nat).
  { rewrite <- (insert_id m i x Hi) at 1. rewrite <- (insert_delete_eq m i x).
    apply size_filter_fresh, lookup_delete_eq. }
  rewrite <- (insert_delete_eq m i y).
  rewrite size_filter_fresh by apply lookup_delete_eq. lia.
Qed.
End counting.

(** What the counters of a connection stand for. *)
Record Accounts (refs0 : Z) (c : Conn) : Prop := {
  A_done : forall id s, objects c !! id = Some s ->
    scopeDone s = if isClosed s && acceptStreamGoroutineCompleted s then 1%nat else 0%nat;
  A_fresh : forall id s, objects c !! id = Some s -> (id <= nextStreamID c)%nat;
  A_refs : refs c = refs0 + Z.of_nat (openStreams c);
  A_num : NumStreams c = Z.of_nat (heldScopes c);
  A_map : forall m, streams_m c = Some m ->
    forall id, id ∈ m <-> exists s, objects c !! id = Some s /\ scopeDone s = 0%nat
}.

Lemma Accounts_init n r : Accounts r (newConn n r).
Proof.
  split; simpl; try done.
  - unfold openStreams. simpl. rewrite map_filter_empty, map_size_empty. lia.
  - intros m [= <-] id. split; [set_solver|]. intros (s & Hs & _). done.
Qed.

Lemma close_counts c id s call :
  objects c !! id = Some s ->
  let c' := closeAndRemoveStream (muxCall c id call) id in
  refs c' = (if isClosed s then refs c else refs c - 1)
  /\ NumStreams c' = (if negb (isClosed s) && acceptStreamGoroutineCompleted s
                      then NumStreams c - 1 else NumStreams c).
Proof.
  intros Hs. unfold closeAndRemoveStream, muxCall. rewrite Hs. simpl.
  rewrite lookup_insert_eq. simpl.
  destruct (isClosed s) eqn:Ec; simpl; [done|].
  destruct (acceptStreamGoroutineCompleted s) eqn:Ea; simpl; [|done].
  unfold removeStream. simpl. by rewrite lookup_insert_eq.
Qed.

Lemma complete_counts c id s :
  objects c !! id = Some s ->
  let c' := completeAcceptStreamGoroutine c id in
  refs c' = refs c
  /\ NumStreams c' = (if negb (acceptStreamGoroutineCompleted s) && isClosed s
                      then NumStreams c - 1 else NumStreams c).
Proof.
  intros Hs. unfold completeAcceptStreamGoroutine. rewrite Hs.
  destruct (acceptStreamGoroutineCompleted s) eqn:Ea; simpl; [done|].
  destruct (isClosed s) eqn:Ec; simpl; [|done].
  unfold removeStream. simpl. by rewrite lookup_insert_eq.
Qed.

Definition openBit (s : Stream) : Z := if isClosed s then 0 else 1.

(** A call that changes one stream. *)
Lemma Accounts_update refs0 c c' id s s' (b : bool) :
  Accounts refs0 c ->
  objects c !! id = Some s ->
  objects c' = <[id := s']> (objects c) ->
  nextStreamID c' = nextStreamID c ->
  streams_m c' = dropFrom b id (streams_m c) ->
  scopeDone s' = (if isClosed s' && acceptStreamGoroutineCompleted s' then 1%nat else 0%nat) ->
  (b = true <-> scopeDone s = 0%nat /\ scopeDone s' <> 0%nat) ->
  (scopeDone s' = 0%nat -> scopeDone s = 0%nat) ->
  refs c' = refs c + openBit s' - openBit s ->
  NumStreams c' = NumStreams c - (if b then 1 else 0) ->
  Accounts refs0 c'.
Proof.
  intros [Hdone Hfresh Hrefs Hnum Hmap] Hs Eo En Em Hd' Hb Hmono Er Enum.
  split.
  - intros i x. rewrite Eo. destruct (decide (i = id)) as [->|Hne].
    + rewrite lookup_insert_eq. by intros [= <-].
    + rewrite lookup_insert_ne by done. apply Hdone.
  - intros i x. rewrite Eo, En. destruct (decide (i = id)) as [->|Hne].
    + rewrite lookup_insert_eq. intros _. by apply (Hfresh id s).
    + rewrite lookup_insert_ne by done. apply Hfresh.
  - rewrite Er, Hrefs. unfold openStreams. rewrite Eo.
    pose proof (size_filter_update notClosed (objects c) id s s' Hs) as E.
    unfold openBit, notClosed in *. simpl in E.
    destruct (decide (isClosed s = false)) as [E1|E1],
             (decide (isClosed s' = false)) as [E2|E2];
      destruct (isClosed s), (isClosed s'); try done; lia.
  - rewrite Enum, Hnum. unfold heldScopes. rewrite Eo.
    pose proof (size_filter_update held (objects c) id s s' Hs) as E.
    unfold held in *. simpl in E.
    destruct (decide (scopeDone s = 0%nat)) as [E1|E1],
             (decide (scopeDone s' = 0%nat)) as [E2|E2].
    + destruct b; [|lia]. destruct (proj1 Hb eq_refl). done.
    + assert (b = true) as -> by (by apply Hb). lia.
    + by specialize (Hmono E2).
    + destruct b; [|lia]. destruct (proj1 Hb eq_refl). done.
  - intros m' Hm' i. rewrite Em in Hm'. rewrite Eo.
    destruct (streams_m c) as [m|] eqn:Emc; [|by destruct b].
    specialize (Hmap m eq_refl).
    destruct (decide (i = id)) as [->|Hne].
    + rewrite lookup_insert_eq.
      destruct b; simpl in Hm'; injection Hm' as <-.
      * destruct (proj1 Hb eq_refl) as [_ Hn]. split; [set_solver|].
        intros (x & [= <-] & Hx). done.
      * split.
        -- intros Hin. apply Hmap in Hin as (x & Hx & Hz).
           rewrite Hs in Hx. injection Hx as <-. exists s'. split; [done|].
           destruct (decide (scopeDone s' = 0%nat)) as [|Hn]; [done|].
           assert (false = true) by (by apply Hb). done.
        -- intros (x & [= <-] & Hx). apply Hmap. exists s. split; [done|]. by apply Hmono.
    + rewrite lookup_insert_ne by done. rewrite <- Hmap.
      destruct b; simpl in Hm'; injection Hm' as <-; set_solver.
Qed.

Lemma Accounts_close refs0 c id s call :
  Accounts refs0 c -> objects c !! id = Some s ->
  Accounts refs0 (closeAndRemoveStream (muxCall c id call) id).
Proof.
  intros A Hs. pose proof (A_done _ _ A id s Hs) as Hd.
  destruct (close_spec c id s call Hs) as (Eo & Em & En).
  destruct (close_counts c id s call Hs) as (Er & Enum).
  apply (Accounts_update refs0 c _ id s (afterClose s call)
           (negb (isClosed s) && acceptStreamGoroutineCompleted s) A Hs Eo En Em);
    unfold afterClose, openBit; simpl;
    destruct (isClosed s), (acceptStreamGoroutineCompleted s); simpl in *;
    rewrite ?Hd, ?Er, ?Enum; try done; try lia; try (split; [done|intros [? ?]; done]);
    try (split; [intros _; by split|done]).
Qed.

Lemma Accounts_complete refs0 c id s :
  Accounts refs0 c -> objects c !! id = Some s ->
  Accounts refs0 (completeAcceptStreamGoroutine c id).
Proof.
  intros A Hs. pose proof (A_done _ _ A id s Hs) as Hd.
  destruct (complete_spec c id s Hs) as (Eo & Em & En).
  destruct (complete_counts c id s Hs) as (Er & Enum).
  apply (Accounts_update refs0 c _ id s (afterComplete s)
           (negb (acceptStreamGoroutineCompleted s) && isClosed s) A Hs Eo En Em);
    unfold afterComplete, openBit; simpl;
    destruct (isClosed s), (acceptStreamGoroutineCompleted s); simpl in *;
    rewrite ?Hd, ?Er, ?Enum; try done; try lia; try (split; [done|intros [? ?]; done]);
    try (split; [intros _; by split|done]).
Qed.

Lemma Accounts_step refs0 c e c' :
  Accounts refs0 c -> step c e = Some c' -> Accounts refs0 c'.
Proof.
  intros A Hstep. destruct e as [d|i|i|i code|i|]; simpl in Hstep.
  - injection Hstep as <-. unfold addStream.
    destruct (streams_m c) as [m|] eqn:Em; simpl; [|done].
    destruct A as [Hdone Hfresh Hrefs Hnum Hmap].
    assert (Hnew : objects c !! S (nextStreamID c) = None).
    { destruct (objects c !! S (nextStreamID c)) as [s|] eqn:E; [|done].
      pose proof (Hfresh _ _ E). lia. }
    split; simpl.
    + intros id s. destruct (decide (id = S (nextStreamID c))) as [->|Hne].
      * rewrite lookup_insert_eq. by intros [= <-].
      * rewrite lookup_insert_ne by done. apply Hdone.
    + intros id s. destruct (decide (id = S (nextStreamID c))) as [->|Hne].
      * done.
      * rewrite lookup_insert_ne by done. intros Hs. pose proof (Hfresh _ _ Hs). lia.
    + unfold openStreams. simpl.
      rewrite (size_filter_fresh notClosed) by done.
      destruct (decide (notClosed _)) as [|Hn]; [|exfalso; by apply Hn].
      unfold openStreams in Hrefs. lia.
    + unfold heldScopes. simpl.
      rewrite (size_filter_fresh held) by done.
      destruct (decide (held _)) as [|Hn]; [|exfalso; by apply Hn].
      unfold heldScopes in Hnum. lia.
    + intros m' [= <-] id. specialize (Hmap m Em).
      destruct (decide (id = S (nextStreamID c))) as [->|Hne].
      * rewrite lookup_insert_eq. split; [|set_solver]. intros _. by eexists.
      * rewrite lookup_insert_ne by done. rewrite <- Hmap. set_solver.
  - destruct (objects c !! i) as [s|] eqn:Hs; [|done]. injection Hstep as <-.
    by apply (Accounts_close refs0 c i s).
  - destruct (objects c !! i) as [s|] eqn:Hs; [|done]. injection Hstep as <-.
    by apply (Accounts_close refs0 c i s).
  - destruct (objects c !! i) as [s|] eqn:Hs; [|done]. injection Hstep as <-.
    by apply (Accounts_close refs0 c i s).
  - destruct (objects c !! i) as [s|] eqn:Hs; [|done]. injection Hstep as <-.
    by apply (Accounts_complete refs0 c i s).
  - injection Hstep as <-. destruct A as [Hdone Hfresh Hrefs Hnum Hmap]. by split.
Qed.

Lemma Accounts_run refs0 c tr c' :
  Accounts refs0 c -> run c tr = Some c' -> Accounts refs0 c'.
Proof.
  revert c. induction tr as [|e tr IH]; intros c A; simpl.
  - by intros [= <-].
  - destruct (step c e) as [c1|] eqn:E; [|done]. simpl.
    apply IH. by eapply Accounts_step.
Qed.

(** X8.  The counters of a connection stay exact through any sequence of
    calls: the swarm's reference count is its initial value plus the
    number of streams that are not closed (each stream takes one reference
    when it is added and gives it back at its first [Close] or [Reset], and
    only then); [NumStreams] is the number of streams whose scope is not
    released (it can be above zero after the map is gone); and while the
    connection keeps its map, the map holds exactly those streams, so
    [NumStreams] is its size. *)
Theorem stream_counters_are_exact
    (nextID : nat) (refs0 : Z) (tr : list Event) (c : Conn) :
  run (newConn nextID refs0) tr = Some c ->
  refs c = refs0 + Z.of_nat (openStreams c)
  /\ NumStreams c = Z.of_nat (heldScopes c)
  /\ (forall m, streams_m c = Some m ->
        NumStreams c = Z.of_nat (size m)
        /\ forall id, id ∈ m <-> exists s, objects c !! id = Some s /\ scopeDone s = 0%nat).
Proof.
  intros Hrun.
  destruct (Accounts_run refs0 _ tr c (Accounts_init nextID refs0) Hrun)
    as [Hdone Hfresh Hrefs Hnum Hmap].
  split; [done|]. split; [done|]. intros m Hm. split; [|by apply Hmap].
  rewrite Hnum. f_equal. unfold heldScopes.
  assert (E : m = dom (filter held (objects c))).
  { apply set_eq. intros id. rewrite (Hmap m Hm), elem_of_dom. unfold is_Some.
    split.
    - intros (s & Hs & Hz). exists s. by apply map_lookup_filter_Some.
    - intros (s & [Hs Hz]%map_lookup_filter_Some). by exists s. }
  rewrite E. by rewrite size_dom.
Qed.

Lemma stream_counters_witness :
  exists c,
    run (newConn 0 5) [EvAddStream DirInbound; EvAddStream DirOutbound; EvClose 1;
                       EvDetach; EvReset 2] = Some c
    /\ refs c = 5 /\ NumStreams c = 1 /\ openStreams c = 0%nat /\ heldScopes c = 1%nat.
Proof.
  destruct (run (newConn 0 5) [EvAddStream DirInbound; EvAddStream DirOutbound; EvClose 1;
                       EvDetach; EvReset 2]) as [c|] eqn:E0; [|by vm_compute in E0].
  destruct (stream_counters_are_exact 0 5 _ c E0) as (A & B & _).
  vm_compute in E0. injection E0 as E0.
  assert (Ho : openStreams c = 0%nat) by (rewrite <- E0; by vm_compute).
  assert (Hh : heldScopes c = 1%nat) by (rewrite <- E0; by vm_compute).
  exists c. split; [reflexivity|]. rewrite A, B, Ho, Hh. done.
Defined.

(** *** A closed connection *)

(** The map of live streams is gone exactly when [doClose] has taken it. *)
Lemma detached_step c e c' :
  step c e = Some c' ->
  (streams_m c' = None <-> streams_m c = None \/ e = EvDetach).
Proof.
  intros Hstep. destruct e as [d|i|i|i code|i|]; simpl in Hstep.
  - injection Hstep as <-. unfold addStream.
    destruct (streams_m c) eqn:E; simpl; [|rewrite E]; naive_solver.
  - destruct (objects c !! i) as [s|] eqn:Hs; [|done]. injection Hstep as <-.
    destruct (close_spec c i s MuxClose Hs) as (_ & Em & _). unfold Close. rewrite Em.
    unfold dropFrom. destruct (_ && _), (streams_m c); naive_solver.
  - destruct (objects c !! i) as [s|] eqn:Hs; [|done]. injection Hstep as <-.
    destruct (close_spec c i s MuxReset Hs) as (_ & Em & _). unfold Reset. rewrite Em.
    unfold dropFrom. destruct (_ && _), (streams_m c); naive_solver.
  - destruct (objects c !! i) as [s|] eqn:Hs; [|done]. injection Hstep as <-.
    destruct (close_spec c i s (MuxResetWithError code) Hs) as (_ & Em & _).
    unfold ResetWithError. rewrite Em.
    unfold dropFrom. destruct (_ && _), (streams_m c); naive_solver.
  - destruct (objects c !! i) as [s|] eqn:Hs; [|done]. injection Hstep as <-.
    destruct (complete_spec c i s Hs) as (_ & Em & _). rewrite Em.
    unfold dropFrom. destruct (_ && _), (streams_m c); naive_solver.
  - injection Hstep as <-. simpl. naive_solver.
Qed.

Lemma detached_run c tr c' :
  run c tr = Some c' ->
  (streams_m c' = None <-> streams_m c = None \/ EvDetach ∈ tr).
Proof.
  revert c. induction tr as [|e tr IH]; intros c; simpl.
  - intros [= <-]. split; [by left|]. intros [|Hin]; [done|]. by apply elem_of_nil in Hin.
  - destruct (step c e) as [c1|] eqn:E; [|done]. simpl. intros Hr.
    rewrite (IH _ Hr), (detached_step _ _ _ E), elem_of_cons. naive_solver.
Qed.

(** X9.  Closing is final for new streams.  Once [doClose] has taken the
    map of live streams, every later [addStream] fails with
    [ErrConnClosed] and leaves the connection as it is, whatever happened
    in between; until then [addStream] succeeds, and gives the stream an
    id that no stream of this connection has had. *)
Theorem closed_connection_takes_no_stream
    (nextID : nat) (refs0 : Z) (tr : list Event) (c : Conn) (d : Direction) :
  run (newConn nextID refs0) tr = Some c ->
  (EvDetach ∈ tr -> addStream c d = (c, None))
  /\ (EvDetach ∉ tr ->
      exists c', addStream c d = (c', Some (S (nextStreamID c)))
        /\ objects c !! S (nextStreamID c) = None
        /\ objects c' !! S (nextStreamID c)
           = Some (mkStream d false (negb (bool_decide (d = DirInbound))) [] 0)
        /\ refs c' = refs c + 1 /\ NumStreams c' = NumStreams c + 1).
Proof.
  intros Hrun. pose proof (detached_run _ _ _ Hrun) as Hd. simpl in Hd.
  pose proof (Accounts_run refs0 _ tr c (Accounts_init nextID refs0) Hrun) as A.
  split.
  - intros Hin. unfold addStream. by rewrite (proj2 Hd (or_intror Hin)).
  - intros Hnin. unfold addStream. destruct (streams_m c) as [m|] eqn:Em.
    + eexists. split; [reflexivity|]. simpl. rewrite lookup_insert_eq.
      split; [|done].
      destruct (objects c !! S (nextStreamID c)) as [s|] eqn:E; [|done].
      pose proof (A_fresh _ _ A _ _ E). lia.
    + destruct (proj1 Hd eq_refl) as [|]; done.
Qed.

Lemma closed_connection_witness :
  exists c,
    run (newConn 0 0) [EvAddStream DirOutbound; EvDetach; EvReset 1] = Some c
    /\ addStream c DirInbound = (c, None).
Proof.
  destruct (run (newConn 0 0) [EvAddStream DirOutbound; EvDetach; EvReset 1])
    as [c|] eqn:E0; [|by vm_compute in E0].
  exists c. split; [reflexivity|].
  apply (proj1 (closed_connection_takes_no_stream 0 0 _ c DirInbound E0)).
  right. left.
Defined.

(** *** What [doClose] leaves behind *)

Lemma streams_run_app c tr1 tr2 : run c (tr1 ++ tr2) = run c tr1 ≫= fun c1 => run c1 tr2.
Proof.
  revert c. induction tr1 as [|e tr1 IH]; intros c; simpl; [done|].
  destruct (step c e); simpl; [apply IH|done].
Qed.

(** Without its map a connection gets no new stream object, and a stream
    is closed after a call if it was before or the call closes it. *)
Lemma closed_after_step c e c' id s' :
  streams_m c = None -> step c e = Some c' -> objects c' !! id = Some s' ->
  exists s, objects c !! id = Some s
    /\ (isClosed s' = true <-> isClosed s = true \/ closes id e = true).
Proof.
  intros Hm Hstep.
  assert (Hclose : forall i call,
    is_Some (objects c !! i) ->
    objects (closeAndRemoveStream (muxCall c i call) i) !! id = Some s' ->
    exists s, objects c !! id = Some s
      /\ (isClosed s' = true <-> isClosed s = true \/ bool_decide (i = id) = true)).
  { intros i call [s Hs] Hs'. destruct (close_spec c i s call Hs) as (Eo & _).
    rewrite Eo in Hs'. destruct (decide (i = id)) as [->|Hne].
    - rewrite lookup_insert_eq in Hs'. injection Hs' as <-. exists s. split; [done|].
      simpl. rewrite bool_decide_eq_true. naive_solver.
    - rewrite lookup_insert_ne in Hs' by done. exists s'. split; [done|].
      rewrite bool_decide_eq_true. naive_solver. }
  destruct e as [d|i|i|i code|i|]; simpl in Hstep |- *.
  - injection Hstep as <-. unfold addStream. rewrite Hm. simpl. intros Hs'.
    exists s'. split; [done|]. naive_solver.
  - destruct (objects c !! i) as [s|] eqn:Hs; [|done]. injection Hstep as <-.
    apply Hclose. by rewrite Hs.
  - destruct (objects c !! i) as [s|] eqn:Hs; [|done]. injection Hstep as <-.
    apply Hclose. by rewrite Hs.
  - destruct (objects c !! i) as [s|] eqn:Hs; [|done]. injection Hstep as <-.
    apply Hclose. by rewrite Hs.
  - destruct (objects c !! i) as [s|] eqn:Hs; [|done]. injection Hstep as <-.
    destruct (complete_spec c i s Hs) as (Eo & _). rewrite Eo.
    destruct (decide (i = id)) as [->|Hne].
    + rewrite lookup_insert_eq. intros [= <-]. exists s. split; [done|].
      simpl. naive_solver.
    + rewrite lookup_insert_ne by done. intros Hs'. exists s'. split; [done|].
      naive_solver.
  - injection Hstep as <-. simpl. intros Hs'. exists s'. split; [done|]. naive_solver.
Qed.

Lemma closed_after_run c tr c' id s' :
  streams_m c = None -> run c tr = Some c' -> objects c' !! id = Some s' ->
  exists s, objects c !! id = Some s
    /\ (isClosed s' = true <-> isClosed s = true \/ exists e, e ∈ tr /\ closes id e = true).
Proof.
  revert c. induction tr as [|e tr IH]; intros c Hm; simpl.
  - intros [= <-] Hs'. exists s'. split; [done|]. split; [by left|].
    intros [|(e & Hin & _)]; [done|]. by apply elem_of_nil in Hin.
  - destruct (step c e) as [c1|] eqn:E; [|done]. simpl. intros Hr Hs'.
    assert (Hm1 : streams_m c1 = None).
    { apply (detached_step _ _ _ E). by left. }
    destruct (IH c1 Hm1 Hr Hs') as (s1 & Hs1 & H1).
    destruct (closed_after_step c e c1 id s1 Hm E Hs1) as (s & Hs & H0).
    exists s. split; [done|]. rewrite H1, H0. split.
    + intros [[|]|(e' & Hin & Hc)]; [by left| |].
      * right. exists e. split; [left|done].
      * right. exists e'. split; [by right|done].
    + intros [|(e' & [->|Hin]%elem_of_cons & Hc)]; [by left; left|by left; right|].
      right. by exists e'.
Qed.

(** X10.  [doClose] leaves no stream open.  It takes the map of live
    streams away and calls [Reset] on every stream of the map it took; in
    whatever order these resets run, and whatever other calls on the
    connection's streams run in between, afterwards every stream the
    connection ever had is closed, the swarm's reference count is back at
    the value it had before the connection's first stream, and the only
    scopes not yet released belong to inbound streams whose accept
    goroutine has not finished. *)
Theorem doClose_closes_every_stream
    (nextID : nat) (refs0 : Z) (tr1 tr2 : list Event) (c1 c' : Conn) (m : gset nat) :
  run (newConn nextID refs0) tr1 = Some c1 ->
  streams_m c1 = Some m ->
  run (detachStreams c1) tr2 = Some c' ->
  (forall id, id ∈ m -> EvReset id ∈ tr2) ->
  (forall id s, objects c' !! id = Some s -> isClosed s = true)
  /\ refs c' = refs0
  /\ streams_m c' = None
  /\ (forall id s, objects c' !! id = Some s -> scopeDone s = 0%nat ->
        dir s = DirInbound /\ acceptStreamGoroutineCompleted s = false).
Proof.
  intros Hr1 Hm Hr2 Hall.
  pose proof (Accounts_run refs0 _ tr1 c1 (Accounts_init nextID refs0) Hr1) as A1.
  assert (Hfull : run (newConn nextID refs0) (tr1 ++ EvDetach :: tr2) = Some c').
  { rewrite streams_run_app, Hr1. simpl. exact Hr2. }
  pose proof (Accounts_run refs0 _ _ c' (Accounts_init nextID refs0) Hfull) as A'.
  pose proof (connInv_run _ _ _ _ Hfull) as Inv.
  assert (Hclosed : forall id s, objects c' !! id = Some s -> isClosed s = true).
  { intros id s' Hs'.
    destruct (closed_after_run (detachStreams c1) tr2 c' id s' eq_refl Hr2 Hs')
      as (s & Hs & Hiff).
    simpl in Hs. apply Hiff. destruct (isClosed s) eqn:Ec; [by left|right].
    exists (EvReset id). split; [|simpl; by apply bool_decide_eq_true].
    apply Hall, (A_map _ _ A1 m Hm). exists s. split; [done|].
    rewrite (A_done _ _ A1 _ _ Hs), Ec. done. }
  split; [done|]. split; [|split].
  - rewrite (A_refs _ _ A'). unfold openStreams.
    replace (filter notClosed (objects c')) with (∅ : gmap nat Stream).
    + rewrite map_size_empty. lia.
    + symmetry. apply map_empty_filter_2. intros id s Hs Hn.
      unfold notClosed in Hn. simpl in Hn. by rewrite (Hclosed _ _ Hs) in Hn.
  - apply (detached_run _ _ _ Hr2). by left.
  - intros id s Hs Hz. pose proof (A_done _ _ A' _ _ Hs) as Hd.
    rewrite (Hclosed _ _ Hs), Hz in Hd. simpl in Hd.
    destruct (acceptStreamGoroutineCompleted s) eqn:Ea; [done|]. split; [|done].
    destruct (decide (dir s = DirInbound)) as [|Hne]; [done|].
    pose proof (proj2 (inv_accept _ _ _ _ (ci_streams _ _ Inv _ _ Hs)) (or_introl Hne)).
    congruence.
Qed.

Lemma doClose_witness :
  exists c1 c',
    run (newConn 0 7) [EvAddStream DirInbound; EvAddStream DirOutbound; EvClose 1] = Some c1
    /\ run (detachStreams c1) [EvReset 2; EvCompleteAccept 1; EvReset 1] = Some c'
    /\ refs c1 = 8 /\ refs c' = 7.
Proof.
  destruct (run (newConn 0 7) [EvAddStream DirInbound; EvAddStream DirOutbound; EvClose 1])
    as [c1|] eqn:E1; [|by vm_compute in E1].
  destruct (run (detachStreams c1) [EvReset 2; EvCompleteAccept 1; EvReset 1])
    as [c'|] eqn:E2.
  2: { vm_compute in E1. injection E1 as <-. by vm_compute in E2. }
  exists c1, c'. split; [done|]. split; [done|].
  assert (Em : streams_m c1 = Some ({[2%nat]} ∪ ({[1%nat]} ∪ ∅))).
  { vm_compute in E1. injection E1 as <-. vm_compute. reflexivity. }
  split.
  { vm_compute in E1. injection E1 as <-. reflexivity. }
  refine (proj1 (proj2 (doClose_closes_every_stream 0 7 _ _ c1 c' _ E1 Em E2 _))).
  intros id Hin. set_solver.
Defined.
End StreamsMore.

